(** * Qwik ecosystem-ci: the repository, override and bisection engine

    A shallow embedding of [utils.ts] (the orchestration core of the
    ecosystem-ci runner).  The outside world (the shell, the file system,
    the package-manager detection library, semver, JSON) is an abstract
    host: a record of operations over an opaque world type.  The program
    itself is written in a small state-and-exception monad that threads
    the module-level variables ([cwd], [env], [qwikPath]) and records
    every observable action in a trace.

    Conventions.
    - Strings are sequences of ASCII characters; the character classes
      of regular expressions and [trim] are the ASCII ones.
    - A field or variable of type [T | undefined] is an [option T];
      truthiness is written out ([JS.truthy], [JS.cond], [JS.or_str]).
    - Objects used as dictionaries (override sets, the blocks of a
      manifest) are finite maps; [{...a, ...b}] is the union that
      prefers [b].  The enumeration order of [Object.entries] is that of
      the map.
    - An object that a function receives and assigns to is threaded
      through that function: the state of [setupRepo] and of
      [runInRepo] is the pair of their options object and the module
      state.
    - The [while] loop of the bisection runs on fuel; the result [None]
      stands for a loop that is still running. *)

From Stdlib Require Import String Ascii List Bool Arith Lia.
From stdpp Require Import base tactics option list gmap strings fin_maps sorting.
Import ListNotations.

Set Default Proof Using "Type".

(** ** JavaScript strings and truthiness *)

Module JS.

(** [s.includes(c)] for a one-character needle. *)
Fixpoint includes (c : ascii) (s : string) : bool :=
  match s with
  | EmptyString => false
  | String d s' => if Ascii.eqb c d then true else includes c s'
  end.

(** [s.startsWith(p)]. *)
Definition startsWith (p s : string) : bool := String.prefix p s.

(** [s.split(c)[0]]: the text before the first [c]. *)
Fixpoint split_head (c : ascii) (s : string) : string :=
  match s with
  | EmptyString => EmptyString
  | String d s' => if Ascii.eqb c d then EmptyString else String d (split_head c s')
  end.

(** [s.substring(s.lastIndexOf(c) + 1)]: the text after the last [c],
    the whole string when [c] does not occur ([lastIndexOf] is -1). *)
Fixpoint after_last (c : ascii) (s : string) : string :=
  match s with
  | EmptyString => EmptyString
  | String d s' =>
      if includes c s' then after_last c s'
      else if Ascii.eqb c d then s' else s
  end.

(** [s.substring(0, n)]. *)
Fixpoint take (n : nat) (s : string) : string :=
  match n, s with
  | S n', String c s' => String c (take n' s')
  | _, _ => EmptyString
  end.

(** [s.substring(n)]. *)
Fixpoint drop (n : nat) (s : string) : string :=
  match n, s with
  | S n', String _ s' => drop n' s'
  | _, _ => s
  end.

Definition lower_char (c : ascii) : ascii :=
  let n := nat_of_ascii c in
  if (65 <=? n) && (n <=? 90) then ascii_of_nat (n + 32) else c.

(** [s.toLowerCase()] on ASCII letters. *)
Fixpoint toLowerCase (s : string) : string :=
  match s with
  | EmptyString => EmptyString
  | String c s' => String (lower_char c) (toLowerCase s')
  end.

(** [\w] of a regular expression. *)
Definition is_word (c : ascii) : bool :=
  let n := nat_of_ascii c in
  ((48 <=? n) && (n <=? 57)) || ((65 <=? n) && (n <=? 90))
  || ((97 <=? n) && (n <=? 122)) || (n =? 95).

(** [\s] of a regular expression, on ASCII. *)
Definition is_space (c : ascii) : bool :=
  let n := nat_of_ascii c in ((9 <=? n) && (n <=? 13)) || (n =? 32).

(** What [.] of a regular expression refuses. *)
Definition is_line_terminator (c : ascii) : bool :=
  let n := nat_of_ascii c in (n =? 10) || (n =? 13).

(** The longest prefix of characters satisfying [p], and the rest. *)
Fixpoint span (p : ascii → bool) (s : string) : string * string :=
  match s with
  | EmptyString => (EmptyString, EmptyString)
  | String c s' =>
      if p c then let '(a, b) := span p s' in (String c a, b)
      else (EmptyString, s)
  end.

Fixpoint all (p : ascii → bool) (s : string) : bool :=
  match s with
  | EmptyString => true
  | String c s' => p c && all p s'
  end.

Fixpoint trimStart (s : string) : string :=
  match s with
  | String c s' => if is_space c then trimStart s' else s
  | EmptyString => EmptyString
  end.

Fixpoint trimEnd (s : string) : string :=
  match s with
  | EmptyString => EmptyString
  | String c s' =>
      match trimEnd s' with
      | EmptyString => if is_space c then EmptyString else String c EmptyString
      | t => String c t
      end
  end.

(** [s.trim()]. *)
Definition trim (s : string) : string := trimEnd (trimStart s).

Definition newline : string := String "010"%char EmptyString.
Definition dquote : string := String "034"%char EmptyString.

(** Truthiness of a string: only the empty string is falsy. *)
Definition truthy (s : string) : bool := negb (String.eqb s EmptyString).

(** Truthiness of a [string | undefined]. *)
Definition truthy_opt (o : option string) : bool :=
  match o with Some s => truthy s | None => false end.

(** [a ? f(a) : b] with [a : string | undefined]. *)
Definition cond {A} (a : option string) (f : string → A) (b : A) : A :=
  match a with
  | Some s => if truthy s then f s else b
  | None => b
  end.

(** [a || b] with [a : string | undefined] and [b : string]. *)
Definition or_str (a : option string) (b : string) : string := cond a id b.

(** [a || b] with both operands [string | undefined]. *)
Definition or_opt (a b : option string) : option string :=
  match a with
  | Some s => if truthy s then a else b
  | None => b
  end.

End JS.

(** The property names every object inherits from [Object.prototype]:
    reading one of them, as in [o[name]], finds a value (a function or
    an object) on any plain object, whatever its own keys are. *)
Definition object_prototype_keys : list string :=
  ["constructor"; "hasOwnProperty"; "isPrototypeOf"; "propertyIsEnumerable";
   "toLocaleString"; "toString"; "valueOf"; "__proto__"; "__defineGetter__";
   "__defineSetter__"; "__lookupGetter__"; "__lookupSetter__"].

(** ** Results, exceptions and the monad *)

(** What a JavaScript [throw] carries: an [Error] made by this program,
    or an error raised by the host (a failed command, a file-system error
    with its [code]). *)
Inductive Exn :=
| JsError (msg : string)
| HostError (code : string).

Global Instance Exn_eq_dec : EqDecision Exn.
Proof. solve_decision. Defined.

Inductive Res (A : Type) :=
| Ok (a : A)
| Throw (e : Exn).
Arguments Ok {A} a.
Arguments Throw {A} e.

Definition is_ok {A} (r : Res A) : bool :=
  match r with Ok _ => true | Throw _ => false end.

(** State-and-exception monad over a state [S]; the state survives a
    throw, as the side effects of a JavaScript function do. *)
Definition M (S A : Type) : Type := S → Res A * S.

Definition ret {S A} (a : A) : M S A := λ s, (Ok a, s).

Definition throw {S A} (e : Exn) : M S A := λ s, (Throw e, s).

Definition bind {S A B} (m : M S A) (f : A → M S B) : M S B :=
  λ s, match m s with
       | (Ok a, s') => f a s'
       | (Throw e, s') => (Throw e, s')
       end.

(** [try { m } catch (e) { h e }]. *)
Definition try_catch {S A} (m : M S A) (h : Exn → M S A) : M S A :=
  λ s, match m s with
       | (Ok a, s') => (Ok a, s')
       | (Throw e, s') => h e s'
       end.

(** [try { m } finally { f }]: [f] runs on both exits; a throw of [f]
    replaces the outcome of [m]. *)
Definition try_finally {S A} (m : M S A) (f : M S unit) : M S A :=
  λ s, match m s with
       | (r, s') =>
           match f s' with
           | (Ok _, s'') => (r, s'')
           | (Throw e, s'') => (Throw e, s'')
           end
       end.

Definition get {S} : M S S := λ s, (Ok s, s).
Definition modify {S} (f : S → S) : M S unit := λ s, (Ok tt, f s).
Definition when {S} (b : bool) (m : M S unit) : M S unit := if b then m else ret tt.

Declare Scope prog_scope.
Delimit Scope prog_scope with prog.
Notation "'let*' x ':=' m 'in' k" := (bind m (λ x, k))
  (at level 10, x pattern, m at level 100, k at level 200) : prog_scope.
Notation "m ';;' k" := (bind m (λ _, k))
  (at level 100, k at level 200, right associativity) : prog_scope.
Local Open Scope prog_scope.

(** ** The data model of [types.d.ts] *)

(** Modelled from the spec: [types.d.ts] is not among the sources; the
    records below have the fields that [utils.ts] reads and writes, and
    an optional field is an [option]. *)

Abbreviation Env := (gmap string string).

(** An override value is a string or a boolean flag. *)
Inductive OValue :=
| VStr (s : string)
| VBool (b : bool).

Global Instance OValue_eq_dec : EqDecision OValue.
Proof. solve_decision. Defined.

Definition ovalue_truthy (v : OValue) : bool :=
  match v with VStr s => JS.truthy s | VBool b => b end.

Abbreviation Overrides := (gmap string OValue).

(** The parsed [package.json]. *)
Record Pkg := {
  pkg_name : string;
  pkg_scripts : option (gmap string string);
  pkg_packageManager : option string;
  pkg_engines : option (gmap string string);
  pkg_dependencies : option (gmap string string);
  pkg_devDependencies : option (gmap string string);
  pkg_pnpm_overrides : option (option (gmap string string));
    (* [pkg.pnpm] absent, or present with [overrides] absent or present *)
  pkg_resolutions : option (gmap string string);
  pkg_overrides : option (gmap string string);
}.

Section PkgSetters.
Implicit Type p : Pkg.

Definition set_packageManager (v : option string) p : Pkg :=
  {| pkg_name := pkg_name p; pkg_scripts := pkg_scripts p;
     pkg_packageManager := v; pkg_engines := pkg_engines p;
     pkg_dependencies := pkg_dependencies p;
     pkg_devDependencies := pkg_devDependencies p;
     pkg_pnpm_overrides := pkg_pnpm_overrides p;
     pkg_resolutions := pkg_resolutions p; pkg_overrides := pkg_overrides p |}.

Definition set_engines (v : option (gmap string string)) p : Pkg :=
  {| pkg_name := pkg_name p; pkg_scripts := pkg_scripts p;
     pkg_packageManager := pkg_packageManager p; pkg_engines := v;
     pkg_dependencies := pkg_dependencies p;
     pkg_devDependencies := pkg_devDependencies p;
     pkg_pnpm_overrides := pkg_pnpm_overrides p;
     pkg_resolutions := pkg_resolutions p; pkg_overrides := pkg_overrides p |}.

Definition set_dependencies (v : option (gmap string string)) p : Pkg :=
  {| pkg_name := pkg_name p; pkg_scripts := pkg_scripts p;
     pkg_packageManager := pkg_packageManager p; pkg_engines := pkg_engines p;
     pkg_dependencies := v;
     pkg_devDependencies := pkg_devDependencies p;
     pkg_pnpm_overrides := pkg_pnpm_overrides p;
     pkg_resolutions := pkg_resolutions p; pkg_overrides := pkg_overrides p |}.

Definition set_devDependencies (v : option (gmap string string)) p : Pkg :=
  {| pkg_name := pkg_name p; pkg_scripts := pkg_scripts p;
     pkg_packageManager := pkg_packageManager p; pkg_engines := pkg_engines p;
     pkg_dependencies := pkg_dependencies p;
     pkg_devDependencies := v;
     pkg_pnpm_overrides := pkg_pnpm_overrides p;
     pkg_resolutions := pkg_resolutions p; pkg_overrides := pkg_overrides p |}.

Definition set_pnpm_overrides (v : option (option (gmap string string))) p : Pkg :=
  {| pkg_name := pkg_name p; pkg_scripts := pkg_scripts p;
     pkg_packageManager := pkg_packageManager p; pkg_engines := pkg_engines p;
     pkg_dependencies := pkg_dependencies p;
     pkg_devDependencies := pkg_devDependencies p;
     pkg_pnpm_overrides := v;
     pkg_resolutions := pkg_resolutions p; pkg_overrides := pkg_overrides p |}.

Definition set_resolutions (v : option (gmap string string)) p : Pkg :=
  {| pkg_name := pkg_name p; pkg_scripts := pkg_scripts p;
     pkg_packageManager := pkg_packageManager p; pkg_engines := pkg_engines p;
     pkg_dependencies := pkg_dependencies p;
     pkg_devDependencies := pkg_devDependencies p;
     pkg_pnpm_overrides := pkg_pnpm_overrides p;
     pkg_resolutions := v; pkg_overrides := pkg_overrides p |}.

Definition set_pkg_overrides (v : option (gmap string string)) p : Pkg :=
  {| pkg_name := pkg_name p; pkg_scripts := pkg_scripts p;
     pkg_packageManager := pkg_packageManager p; pkg_engines := pkg_engines p;
     pkg_dependencies := pkg_dependencies p;
     pkg_devDependencies := pkg_devDependencies p;
     pkg_pnpm_overrides := pkg_pnpm_overrides p;
     pkg_resolutions := pkg_resolutions p; pkg_overrides := v |}.

End PkgSetters.

(** Options of the child-process call: [{ cwd, encoding: 'utf-8' }] and,
    when given, [env]. *)
Record ExecOpts := {
  opt_cwd : string;
  opt_env : option Env;
}.

(** ** The host *)

(** A caller-supplied asynchronous function: it may do anything to the
    world and may leave the module's [cwd] elsewhere (by calling back
    into exported functions). *)
Definition Callback (W A : Type) : Type := W → string → Res A * W * string.

Record Host (W : Type) := {
  process_env : W → Env;
  process_cwd : W → string;
  module_dir : W → string;                       (* dirname of import.meta.url *)
  execSync : string → ExecOpts → W → Res string * W;
  existsSync : string → W → bool;
  rmSync : string → W → Res unit * W;             (* recursive, force *)
  mkdirSync : string → W → Res unit * W;          (* recursive *)
  writeFile : string → string → W → Res unit * W;
  readFile : string → W → Res string;
  lstat_isDirectory : string → W → Res bool;      (* lstatSync(v)?.isDirectory() *)
  path_resolve : W → list string → string;
  path_join : list string → string;
  JSON_parse : string → Res Pkg;
  JSON_stringify : Pkg → string;
  detect : string → W → option string;            (* @antfu/ni *)
  AGENTS : list string;                          (* Object.keys(AGENTS) *)
  getCommand : string → string → list string → Res string;
  semver_eq : string → string → Res bool;
}.
Arguments process_env {W}.
Arguments process_cwd {W}.
Arguments module_dir {W}.
Arguments execSync {W}.
Arguments existsSync {W}.
Arguments rmSync {W}.
Arguments mkdirSync {W}.
Arguments writeFile {W}.
Arguments readFile {W}.
Arguments lstat_isDirectory {W}.
Arguments path_resolve {W}.
Arguments path_join {W}.
Arguments JSON_parse {W}.
Arguments JSON_stringify {W}.
Arguments detect {W}.
Arguments AGENTS {W}.
Arguments getCommand {W}.
Arguments semver_eq {W}.

(** The environment a child process runs in: the [env] option when the
    caller passes one, the process environment otherwise. *)
Definition child_env {W} (host : Host W) (w : W) (o : ExecOpts) : Env :=
  default (process_env host w) (opt_env o).

(** ** Observable actions *)

Inductive Event :=
| EvGroup (title : string)                       (* actionsCore.startGroup *)
| EvEndGroup                                     (* actionsCore.endGroup *)
| EvLog (msg : string)                           (* console.log / console.warn *)
| EvExec (cmd : string) (opts : ExecOpts) (env : Env) (out : Res string)
    (* execSync: the command, the options passed, the environment the
       child ran in, and what came back *)
| EvRm (dir : string)                            (* fs.rmSync, recursive *)
| EvMkdir (dir : string)
| EvWrite (file content : string)
| EvCall.                                        (* a caller-supplied function ran *)

(** ** Module state *)

(** The module-level variables, as they are once [setupEnvironment] has
    run (all of them strings), the world outside, and the trace of what
    was done so far.  [isGitHubActions] is fixed when the module is
    loaded. *)
Record State (W : Type) := {
  world : W;
  isGitHubActions : bool;
  qwikPath : string;
  cwd : string;
  env : Env;
  trace : list Event;
}.
Arguments world {W}.
Arguments isGitHubActions {W}.
Arguments qwikPath {W}.
Arguments cwd {W}.
Arguments env {W}.
Arguments trace {W}.

Definition set_world {W} (w : W) (s : State W) : State W :=
  {| world := w; isGitHubActions := isGitHubActions s; qwikPath := qwikPath s;
     cwd := cwd s; env := env s; trace := trace s |}.

Definition set_cwd {W} (d : string) (s : State W) : State W :=
  {| world := world s; isGitHubActions := isGitHubActions s; qwikPath := qwikPath s;
     cwd := d; env := env s; trace := trace s |}.

Definition emit {W} (e : Event) (s : State W) : State W :=
  {| world := world s; isGitHubActions := isGitHubActions s; qwikPath := qwikPath s;
     cwd := cwd s; env := env s; trace := trace s ++ [e] |}.

(** A task of a hook slot: a shell-command string, a zero-argument
    action, or a manifest-script reference with explicit arguments. *)
Inductive Task (W : Type) :=
| TStr (s : string)
| TFun (f : Callback W unit)
| TScript (script : string) (args : option (list string)).
Arguments TStr {W} s.
Arguments TFun {W} f.
Arguments TScript {W} script args.

(** [Task | Task[] | void]. *)
Inductive Slot (W : Type) :=
| SNone
| SOne (t : Task W)
| SMany (ts : list (Task W)).
Arguments SNone {W}.
Arguments SOne {W} t.
Arguments SMany {W} ts.

(** [RepoOptions]: the object handed to [setupRepo]. *)
Record RepoOptions := {
  r_repo : string;
  r_dir : option string;
  r_branch : option string;
  r_tag : option string;
  r_commit : option string;
  r_shallow : option bool;
  r_overrides : option Overrides;
}.

Definition r_set_branch (b : option string) (o : RepoOptions) : RepoOptions :=
  {| r_repo := r_repo o; r_dir := r_dir o; r_branch := b; r_tag := r_tag o;
     r_commit := r_commit o; r_shallow := r_shallow o; r_overrides := r_overrides o |}.

Definition r_set_shallow (b : option bool) (o : RepoOptions) : RepoOptions :=
  {| r_repo := r_repo o; r_dir := r_dir o; r_branch := r_branch o; r_tag := r_tag o;
     r_commit := r_commit o; r_shallow := b; r_overrides := r_overrides o |}.

(** [RunOptions & RepoOptions]: the object handed to [runInRepo]. *)
Record Options (W : Type) := {
  o_repo : string;
  o_dir : option string;
  o_branch : option string;
  o_tag : option string;
  o_commit : option string;
  o_shallow : option bool;
  o_overrides : option Overrides;
  o_workspace : string;
  o_root : string;
  o_qwikPath : string;
  o_qwikMajor : nat;
  o_verify : option bool;
  o_skipGit : option bool;
  o_release : option string;
  o_agent : option string;
  o_build : Slot W;
  o_test : Slot W;
  o_beforeInstall : Slot W;
  o_beforeBuild : Slot W;
  o_beforeTest : Slot W;
}.
Arguments o_repo {W}.
Arguments o_dir {W}.
Arguments o_branch {W}.
Arguments o_tag {W}.
Arguments o_commit {W}.
Arguments o_shallow {W}.
Arguments o_overrides {W}.
Arguments o_workspace {W}.
Arguments o_root {W}.
Arguments o_qwikPath {W}.
Arguments o_qwikMajor {W}.
Arguments o_verify {W}.
Arguments o_skipGit {W}.
Arguments o_release {W}.
Arguments o_agent {W}.
Arguments o_build {W}.
Arguments o_test {W}.
Arguments o_beforeInstall {W}.
Arguments o_beforeBuild {W}.
Arguments o_beforeTest {W}.

Section OptionSetters.
Context {W : Type}.
Implicit Type o : Options W.

Definition set_branch (b : option string) o : Options W :=
  {| o_repo := o_repo o; o_dir := o_dir o; o_branch := b; o_tag := o_tag o;
     o_commit := o_commit o; o_shallow := o_shallow o; o_overrides := o_overrides o;
     o_workspace := o_workspace o; o_root := o_root o; o_qwikPath := o_qwikPath o;
     o_qwikMajor := o_qwikMajor o; o_verify := o_verify o; o_skipGit := o_skipGit o;
     o_release := o_release o; o_agent := o_agent o; o_build := o_build o;
     o_test := o_test o; o_beforeInstall := o_beforeInstall o;
     o_beforeBuild := o_beforeBuild o; o_beforeTest := o_beforeTest o |}.

Definition set_overrides (v : option Overrides) o : Options W :=
  {| o_repo := o_repo o; o_dir := o_dir o; o_branch := o_branch o; o_tag := o_tag o;
     o_commit := o_commit o; o_shallow := o_shallow o; o_overrides := v;
     o_workspace := o_workspace o; o_root := o_root o; o_qwikPath := o_qwikPath o;
     o_qwikMajor := o_qwikMajor o; o_verify := o_verify o; o_skipGit := o_skipGit o;
     o_release := o_release o; o_agent := o_agent o; o_build := o_build o;
     o_test := o_test o; o_beforeInstall := o_beforeInstall o;
     o_beforeBuild := o_beforeBuild o; o_beforeTest := o_beforeTest o |}.

Definition set_verify (b : option bool) o : Options W :=
  {| o_repo := o_repo o; o_dir := o_dir o; o_branch := o_branch o; o_tag := o_tag o;
     o_commit := o_commit o; o_shallow := o_shallow o; o_overrides := o_overrides o;
     o_workspace := o_workspace o; o_root := o_root o; o_qwikPath := o_qwikPath o;
     o_qwikMajor := o_qwikMajor o; o_verify := b; o_skipGit := o_skipGit o;
     o_release := o_release o; o_agent := o_agent o; o_build := o_build o;
     o_test := o_test o; o_beforeInstall := o_beforeInstall o;
     o_beforeBuild := o_beforeBuild o; o_beforeTest := o_beforeTest o |}.

Definition set_skipGit (b : option bool) o : Options W :=
  {| o_repo := o_repo o; o_dir := o_dir o; o_branch := o_branch o; o_tag := o_tag o;
     o_commit := o_commit o; o_shallow := o_shallow o; o_overrides := o_overrides o;
     o_workspace := o_workspace o; o_root := o_root o; o_qwikPath := o_qwikPath o;
     o_qwikMajor := o_qwikMajor o; o_verify := o_verify o; o_skipGit := b;
     o_release := o_release o; o_agent := o_agent o; o_build := o_build o;
     o_test := o_test o; o_beforeInstall := o_beforeInstall o;
     o_beforeBuild := o_beforeBuild o; o_beforeTest := o_beforeTest o |}.

Definition set_agent (a : option string) o : Options W :=
  {| o_repo := o_repo o; o_dir := o_dir o; o_branch := o_branch o; o_tag := o_tag o;
     o_commit := o_commit o; o_shallow := o_shallow o; o_overrides := o_overrides o;
     o_workspace := o_workspace o; o_root := o_root o; o_qwikPath := o_qwikPath o;
     o_qwikMajor := o_qwikMajor o; o_verify := o_verify o; o_skipGit := o_skipGit o;
     o_release := o_release o; o_agent := a; o_build := o_build o;
     o_test := o_test o; o_beforeInstall := o_beforeInstall o;
     o_beforeBuild := o_beforeBuild o; o_beforeTest := o_beforeTest o |}.

(** The three defaults [runInRepo] writes into its options object. *)
Definition with_defaults o : Options W :=
  set_branch (Some (default "main" (o_branch o)))
    (set_skipGit (Some (default false (o_skipGit o)))
       (set_verify (Some (default true (o_verify o))) o)).

End OptionSetters.

(** ** The program *)

Section Program.
Context {W : Type} (host : Host W).

Local Abbreviation St := (State W).

(** A function that receives an options object runs over the pair of
    that object and the module state: what it assigns to
    [options.field] is visible to the caller afterwards.  [lift] runs
    a computation that does not touch the object. *)
Definition lift {O A} (m : M St A) : M (O * St) A :=
  λ '(o, s), let '(r, s') := m s in (r, (o, s')).

(** Calling a function with a freshly built object literal: the callee
    may mutate the literal, nobody else sees it. *)
Definition call_with {O A} (o : O) (m : M (O * St) A) : M St A :=
  λ s, let '(r, (_, s')) := m (o, s) in (r, s').

Definition get_options {O} : M (O * St) O := λ '(o, s), (Ok o, (o, s)).
Definition update_options {O} (f : O → O) : M (O * St) unit :=
  λ '(o, s), (Ok tt, (f o, s)).

Definition lift_res {S A} (r : Res A) : M S A := λ s, (r, s).

Definition log (msg : string) : M St unit := modify (emit (EvLog msg)).

(** [cd]: [cwd = path.resolve(cwd, dir)]. *)
Definition cd (dir : string) : M St unit :=
  modify (λ s, set_cwd (path_resolve host (world s) [cwd s; dir]) s).

(** How [$] announces a command: a log group on GitHub Actions, a
    console line elsewhere. *)
Definition announce (s : St) (cmd : string) : Event :=
  let title := cwd s +:+ " $> " +:+ cmd in
  if isGitHubActions s then EvGroup title else EvLog title.

(** The template tag [$]: the command string is assembled by the
    caller; it is announced, run by [execSync] with the options
    [{ cwd, encoding }], and its captured output is returned as it
    is. *)
Definition sh (cmd : string) : M St string := λ s,
  let s1 := emit (announce s cmd) s in
  let opts := {| opt_cwd := cwd s; opt_env := None |} in
  let '(r, w') := execSync host cmd opts (world s) in
  let s2 := emit (EvExec cmd opts (child_env host (world s) opts) r) (set_world w' s1) in
  match r with
  | Ok out => (Ok out, if isGitHubActions s then emit EvEndGroup s2 else s2)
  | Throw e => (Throw e, s2)
  end.

Definition fs_exists (p : string) : M St bool :=
  λ s, (Ok (existsSync host p (world s)), s).

Definition fs_rm (p : string) : M St unit := λ s,
  let '(r, w') := rmSync host p (world s) in
  (r, emit (EvRm p) (set_world w' s)).

Definition fs_mkdir (p : string) : M St unit := λ s,
  let '(r, w') := mkdirSync host p (world s) in
  (r, emit (EvMkdir p) (set_world w' s)).

Definition fs_write (p content : string) : M St unit := λ s,
  let '(r, w') := writeFile host p content (world s) in
  (r, emit (EvWrite p content) (set_world w' s)).

Definition initWorkspace (workspace : string) : M St unit :=
  (let* there := fs_exists workspace in
   when (negb there) (fs_mkdir workspace);;
   let eslintrc := path_join host [workspace; ".eslintrc.json"] in
   let* there := fs_exists eslintrc in
   when (negb there)
     (fs_write eslintrc
        ("{" +:+ JS.dquote +:+ "root" +:+ JS.dquote +:+ ":true}" +:+ JS.newline));;
   let editorconfig := path_join host [workspace; ".editorconfig"] in
   let* there := fs_exists editorconfig in
   when (negb there) (fs_write editorconfig ("root = true" +:+ JS.newline));;
   let tsconfig := path_join host [workspace; "tsconfig.json"] in
   let* there := fs_exists tsconfig in
   when (negb there) (fs_write tsconfig ("{}" +:+ JS.newline))).

Record EnvironmentData := {
  ed_root : string;
  ed_workspace : string;
  ed_qwikPath : string;
  ed_cwd : string;
  ed_env : Env;
}.

(** The environment prepared for the run: the process environment
    with four entries forced. *)
Definition ci_env (penv : Env) : Env :=
  <["ECOSYSTEM_CI" := "true"]>
    (<["NODE_OPTIONS" := "--max-old-space-size=6144"]>
       (<["YARN_ENABLE_IMMUTABLE_INSTALLS" := "false"]>
          (<["CI" := "true"]> penv))).

Definition setupEnvironment : M St EnvironmentData := λ s,
  let w := world s in
  let root := module_dir host w in
  let workspace := path_resolve host w [root; "workspace"] in
  let qp := path_resolve host w [workspace; "qwik"] in
  let s1 := {| world := w; isGitHubActions := isGitHubActions s;
               qwikPath := qp; cwd := process_cwd host w;
               env := ci_env (process_env host w); trace := trace s |} in
  (initWorkspace workspace;;
   ret {| ed_root := root; ed_workspace := workspace; ed_qwikPath := qp;
          ed_cwd := cwd s1; ed_env := env s1 |}) s1.

Definition get_cwd : M St string := λ s, (Ok (cwd s), s).

Definition sh_ (cmd : string) : M St unit := (let* _ := sh cmd in ret tt).

(** [repo] becomes a full clone URL unless it already has a colon. *)
Definition normalize_repo (repo : string) : string :=
  if JS.includes ":" repo then repo
  else "https://github.com/" +:+ repo +:+ ".git".

Definition clone_cmd (shallow : bool) (tag : option string)
    (branch repo dir : string) : string :=
  "git -c advice.detachedHead=false clone "
    +:+ (if shallow then "--depth=1 --no-tags" else EmptyString)
    +:+ " --branch " +:+ JS.or_str tag branch
    +:+ " " +:+ repo +:+ " " +:+ dir.

Definition fetch_cmd (shallow : bool) (tag commit : option string)
    (branch : string) : string :=
  "git fetch " +:+ (if shallow then "--depth=1 --no-tags" else "--tags")
    +:+ " origin "
    +:+ JS.cond tag (λ t, "tag " +:+ t) (JS.or_str commit branch).

Definition shallow_checkout_cmd (tag commit : option string)
    (branch : string) : string :=
  "git -c advice.detachedHead=false checkout "
    +:+ JS.cond tag (λ t, "tags/" +:+ t) (JS.or_str commit branch).

(** The existing-directory test of [setupRepo]: [true] when a clone is
    needed.  The remote URL is whatever [git ls-remote --get-url]
    printed, compared with [===]. *)
Definition probe_existing (repo dir : string) : M St bool :=
  (let* there := fs_exists dir in
   if there : bool then
     let* _cwd := get_cwd in
     cd dir;;
     let* currentClonedRepo :=
       try_catch (let* out := sh "git ls-remote --get-url" in ret (Some out))
                 (λ _, ret None) in
     cd _cwd;;
     if bool_decide (Some repo = currentClonedRepo) then ret false
     else (fs_rm dir;; ret true)
   else ret true).

Definition setupRepo : M (RepoOptions * St) unit :=
  (let* o := get_options in
   when (bool_decide (r_branch o = None)) (update_options (r_set_branch (Some "main")));;
   let* o := get_options in
   when (bool_decide (r_shallow o = None)) (update_options (r_set_shallow (Some true)));;
   let* o := get_options in
   let commit := r_commit o in
   let branch := default EmptyString (r_branch o) in
   let tag := r_tag o in
   let shallow := default true (r_shallow o) in
   if negb (JS.truthy_opt (r_dir o)) then
     throw (JsError "setupRepo must be called with options.dir")
   else
     let dir := default EmptyString (r_dir o) in
     let repo := normalize_repo (r_repo o) in
     lift
       (let* needClone := probe_existing repo dir in
        when needClone (sh_ (clone_cmd shallow tag branch repo dir));;
        cd dir;;
        sh_ "git clean -fdxq";;
        sh_ (fetch_cmd shallow tag commit branch);;
        if shallow then
          sh_ (shallow_checkout_cmd tag commit branch)
        else
          (sh_ ("git checkout " +:+ branch);;
           sh_ "git merge FETCH_HEAD";;
           JS.cond (JS.or_opt tag commit)
             (λ ref, sh_ ("git reset --hard " +:+ ref))
             (ret tt)))).

(** A caller-supplied function is awaited. *)
Definition call {A} (f : Callback W A) : M St A := λ s,
  let '(r, w', cwd') := f (world s) (cwd s) in
  (r, emit EvCall (set_cwd cwd' (set_world w' s))).

Record ParsedCmd := { pc_cmd : string; pc_flags : option string }.

(** [parseCommand]: the regular expression
    [/^(\w+)(?:\s+(--.+))?$/] against the trimmed command.  The match
    is deterministic: the word, then either nothing, or white space
    and a flags part that starts with two dashes, has at least one
    more character and runs to the end without a line break. *)
Definition parseCommand (command : string) : option ParsedCmd :=
  let '(cmd, rest) := JS.span JS.is_word (JS.trim command) in
  match rest with
  | EmptyString =>
      if JS.truthy cmd then Some {| pc_cmd := cmd; pc_flags := None |} else None
  | _ =>
      let '(sp, flags) := JS.span JS.is_space rest in
      if JS.truthy sp && JS.startsWith "--" flags
         && (3 <=? String.length flags)
         && JS.all (λ c, negb (JS.is_line_terminator c)) flags
         && JS.truthy cmd
      then Some {| pc_cmd := cmd; pc_flags := Some flags |}
      else None
  end.

(** [scripts[name] != null]: the block has a script of that name, or
    the name is one that every object inherits; reading a property of
    an absent [scripts] block is a [TypeError]. *)
Definition has_script (scripts : option (gmap string string)) (name : string)
    : M St bool :=
  match scripts with
  | Some sc =>
      ret (bool_decide (is_Some (sc !! name) ∨ name ∈ object_prototype_keys))
  | None => throw (JsError "TypeError: Cannot read properties of undefined")
  end.

Definition typeof_task (t : Task W) : string :=
  match t with TStr _ => "string" | TFun _ => "function" | TScript _ _ => "object" end.

(** The task in a template literal. *)
Definition task_to_string (t : Task W) : string :=
  match t with
  | TStr s => s
  | TFun _ => "function"
  | TScript _ _ => "[object Object]"
  end.

Definition invalid_task (t : Task W) : Exn :=
  JsError ("invalid task, expected string or function but got "
           +:+ typeof_task t +:+ ": " +:+ task_to_string t).

(** One turn of the loop of [toCommand]. *)
Definition run_task (agent : string) (scripts : option (gmap string string))
    (task : Task W) : M St unit :=
  match task with
  | TStr s =>
      let parsedCmd := parseCommand s in
      if bool_decide (s = EmptyString) then ret tt
      else match parsedCmd with
           | Some pc =>
               let* present := has_script scripts (pc_cmd pc) in
               if present : bool then
                 let* runTaskWithAgent :=
                   lift_res (getCommand host agent "run"
                               (pc_cmd pc :: match pc_flags pc with
                                             | Some f => [f]
                                             | None => []
                                             end)) in
                 sh_ runTaskWithAgent
               else sh_ s
           | None => throw (invalid_task task)
           end
  | TFun f => call f
  | TScript script args =>
      if JS.truthy script then
        let* present := has_script scripts script in
        if present : bool then
          let* runTaskWithAgent :=
            lift_res (getCommand host agent "run" (script :: default [] args)) in
          sh_ runTaskWithAgent
        else
          throw (JsError ("invalid task, script " +:+ JS.dquote +:+ script
                          +:+ JS.dquote +:+ " does not exist in package.json"))
      else throw (invalid_task task)
  end.

Fixpoint run_tasks (agent : string) (scripts : option (gmap string string))
    (tasks : list (Task W)) : M St unit :=
  match tasks with
  | [] => ret tt
  | t :: ts => run_task agent scripts t;; run_tasks agent scripts ts
  end.

(** [toCommand(task, agent)], applied to [scripts].  A missing task is
    the one-element list of [undefined], which the loop skips. *)
Definition toCommand (task : Slot W) (agent : string)
    (scripts : option (gmap string string)) : M St unit :=
  match task with
  | SNone => ret tt
  | SOne t => run_tasks agent scripts [t]
  | SMany ts => run_tasks agent scripts ts
  end.

(** *** The override engine *)

(** [isLocalOverride]: path-like, and a directory on disk; a missing
    path is not local, any other [lstat] failure is rethrown. *)
Definition isLocalOverride (v : string) : M St bool := λ s,
  if negb (JS.includes "/" v) || JS.startsWith "@" v then (Ok false, s)
  else match lstat_isDirectory host v (world s) with
       | Ok b => (Ok b, s)
       | Throw e =>
           if bool_decide (e = HostError "ENOENT") then (Ok false, s)
           else (Throw e, s)
       end.

Definition useFileProtocol (v : string) : M St string :=
  (let* isLocal := isLocalOverride v in
   if isLocal : bool then
     λ s, (Ok ("file:" +:+ path_resolve host (world s) [v]), s)
   else ret v).

(** [entries.filter(string-valued).map(useFileProtocol)]. *)
Fixpoint sanitize_entries (entries : list (string * OValue))
    : M St (list (string * string)) :=
  match entries with
  | [] => ret []
  | (key, VStr value) :: rest =>
      let* value' := useFileProtocol value in
      let* rest' := sanitize_entries rest in
      ret ((key, value') :: rest')
  | (_, VBool _) :: rest => sanitize_entries rest
  end.

(** [Object.fromEntries(Object.entries(overrides).filter(..).map(..))]. *)
Definition sanitize (overrides : Overrides) : M St (gmap string string) :=
  (let* entries := sanitize_entries (map_to_list overrides) in
   ret (list_to_map entries)).

(** [if (block?.[name]) block[name] = version]. *)
Definition patch_present (name version : string)
    (block : option (gmap string string)) : option (gmap string string) :=
  match block with
  | Some b =>
      match b !! name with
      | Some old => if JS.truthy old then Some (<[name := version]> b) else block
      | None => block
      end
  | None => None
  end.

Definition overridePackageManagerVersion (pkg : Pkg) (pm : string)
    : M St (Pkg * bool) :=
  (let* versionInUse :=
     match pkg_packageManager pkg with
     | Some p =>
         if JS.startsWith (pm +:+ "@") p
         then ret (JS.drop (String.length pm + 1) p)
         else sh (pm +:+ " --version")
     | None => sh (pm +:+ " --version")
     end in
   let* overrideWithVersion :=
     if bool_decide (pm = "pnpm") then
       let* same := lift_res (semver_eq host versionInUse "7.18.0") in
       ret (if same : bool then Some "7.18.1" else None)
     else ret None in
   match overrideWithVersion with
   | Some v =>
       log ("detected " +:+ pm +:+ "@" +:+ versionInUse +:+ " used in "
            +:+ pkg_name pkg +:+ ", changing pkg.packageManager and pkg.engines."
            +:+ pm +:+ " to enforce use of " +:+ pm +:+ "@" +:+ v);;
       let pkg := set_packageManager (Some (pm +:+ "@" +:+ v)) pkg in
       let pkg := set_engines (Some (<[pm := v]> (default ∅ (pkg_engines pkg)))) pkg in
       let pkg := set_devDependencies (patch_present pm v (pkg_devDependencies pkg)) pkg in
       ret (pkg, true)
   | None => ret (pkg, false)
   end).

(** The npm loop over [Object.entries(overrides)]. *)
Definition npm_force_direct (overrides : gmap string string) (pkg : Pkg) : Pkg :=
  map_fold
    (λ name version pkg,
       let pkg := set_dependencies (patch_present name version (pkg_dependencies pkg)) pkg in
       set_devDependencies (patch_present name version (pkg_devDependencies pkg)) pkg)
    pkg overrides.

(** The manager-specific merge of the sanitized overrides into the
    manifest. *)
Definition merge_overrides (pm : string) (pkg : Pkg)
    (overrides : gmap string string) : Res Pkg :=
  if bool_decide (pm = "pnpm") then
    let pkg := set_devDependencies
                 (Some (overrides ∪ default ∅ (pkg_devDependencies pkg))) pkg in
    let old := default ∅ (default None (pkg_pnpm_overrides pkg)) in
    Ok (set_pnpm_overrides (Some (Some (overrides ∪ old))) pkg)
  else if bool_decide (pm = "yarn") then
    Ok (set_resolutions (Some (overrides ∪ default ∅ (pkg_resolutions pkg))) pkg)
  else if bool_decide (pm = "npm") then
    let pkg := set_pkg_overrides
                 (Some (overrides ∪ default ∅ (pkg_overrides pkg))) pkg in
    Ok (npm_force_direct overrides pkg)
  else Throw (JsError ("unsupported package manager detected: " +:+ pm)).

Definition detect_agent (dir : string) : M St (option string) :=
  λ s, (Ok (detect host dir (world s)), s).

(** [applyPackageOverrides]; the manifest object is mutated in place,
    the function hands it back. *)
Definition applyPackageOverrides (dir : string) (pkg : Pkg)
    (overrides : Overrides) : M St Pkg :=
  (let* overrides := sanitize overrides in
   sh_ "git clean -fdxq";;
   let* agent := detect_agent dir in
   JS.cond agent
     (λ agent,
        let pm := JS.split_head "@" agent in
        let* (pkg, _) := overridePackageManagerVersion pkg pm in
        let* pkg := lift_res (merge_overrides pm pkg overrides) in
        let pkgFile := path_join host [dir; "package.json"] in
        fs_write pkgFile (JSON_stringify host pkg);;
        (if bool_decide (pm = "pnpm") then
           sh_ "pnpm install --prefer-frozen-lockfile --strict-peer-dependencies false"
         else if bool_decide (pm = "yarn") then sh_ "yarn install"
         else if bool_decide (pm = "npm") then sh_ "npm install"
         else ret tt);;
        ret pkg)
     (throw (JsError ("failed to detect packageManager in " +:+ dir)))).

(** *** The suite runner *)

(** Truthiness of a hook slot: absent and the empty string are falsy;
    functions, objects and arrays are truthy. *)
Definition slot_truthy (t : Slot W) : bool :=
  match t with
  | SNone => false
  | SOne (TStr s) => JS.truthy s
  | _ => true
  end.

Definition ovalue_to_string (v : OValue) : string :=
  match v with
  | VStr s => s
  | VBool true => "true"
  | VBool false => "false"
  end.

(** [overrides[key] ||= value]. *)
Definition or_assign (key value : string) (overrides : Overrides) : Overrides :=
  match overrides !! key with
  | Some v => if ovalue_truthy v then overrides else <[key := VStr value]> overrides
  | None => <[key := VStr value]> overrides
  end.

(** The release-or-default block of [runInRepo] on the overrides
    object: what the object holds afterwards, or the conflict. *)
Definition resolve_overrides (release : option string) (qwikPath : string)
    (overrides : Overrides) : Res Overrides :=
  JS.cond release
    (λ release,
       match overrides !! "vite" with
       | Some v =>
           if ovalue_truthy v && negb (bool_decide (v = VStr release)) then
             Throw (JsError ("conflicting overrides.vite=" +:+ ovalue_to_string v
                             +:+ " and --release=" +:+ release
                             +:+ " config. Use either one or the other"))
           else Ok (<["vite" := VStr release]> overrides)
       | None => Ok (<["vite" := VStr release]> overrides)
       end)
    (Ok (or_assign "eslint-plugin-qwik" (qwikPath +:+ "/packages/eslint-plugin-qwik")
           (or_assign "@builder.io/qwik-city" (qwikPath +:+ "/packages/qwik-city")
              (or_assign "@builder.io/qwik" (qwikPath +:+ "/packages/qwik")
                 overrides)))).

Definition get_world : M St W := λ s, (Ok (world s), s).

Definition fs_read (file : string) : M St string :=
  λ s, (readFile host file (world s), s).

Definition runInRepo : M (Options W * St) string :=
  (let* options := get_options in
   when (bool_decide (o_verify options = None)) (update_options (set_verify (Some true)));;
   let* options := get_options in
   when (bool_decide (o_skipGit options = None)) (update_options (set_skipGit (Some false)));;
   let* options := get_options in
   when (bool_decide (o_branch options = None)) (update_options (set_branch (Some "main")));;
   let* options := get_options in
   let build := o_build options in
   let test := o_test options in
   let repo := o_repo options in
   let branch := o_branch options in
   let tag := o_tag options in
   let commit := o_commit options in
   let skipGit := default false (o_skipGit options) in
   let verify := default false (o_verify options) in
   let beforeInstall := o_beforeInstall options in
   let beforeBuild := o_beforeBuild options in
   let beforeTest := o_beforeTest options in
   let* w := lift get_world in
   let dir := path_resolve host w
                [o_workspace options; JS.or_str (o_dir options) (JS.after_last "/" repo)] in
   (if negb skipGit then
      lift (call_with {| r_repo := repo; r_dir := Some dir; r_branch := branch;
                         r_tag := tag; r_commit := commit;
                         r_shallow := None; r_overrides := None |} setupRepo)
    else lift (cd dir));;
   (if bool_decide (o_agent options = None) then
      let* detectedAgent := lift (detect_agent dir) in
      match detectedAgent with
      | None => throw (JsError ("Failed to detect packagemanager in " +:+ dir))
      | Some a => update_options (set_agent (Some a))
      end
    else ret tt);;
   let* options := get_options in
   let agent := default EmptyString (o_agent options) in
   (* [!AGENTS[options.agent]]: the table of agents is a plain object *)
   if negb (bool_decide (agent ∈ AGENTS host ∨ agent ∈ object_prototype_keys)) then
     throw (JsError ("Invalid agent " +:+ agent +:+ ". Allowed values: "
                     +:+ String.concat ", " (AGENTS host)))
   else
     let beforeInstallCommand := toCommand beforeInstall agent in
     let beforeBuildCommand := toCommand beforeBuild agent in
     let beforeTestCommand := toCommand beforeTest agent in
     let buildCommand := toCommand build agent in
     let testCommand := toCommand test agent in
     let pkgFile := path_join host [dir; "package.json"] in
     let* text := lift (fs_read pkgFile) in
     let* pkg := lift_res (JSON_parse host text) in
     lift (beforeInstallCommand (pkg_scripts pkg));;
     (if verify && slot_truthy test then
        lift (let* frozenInstall := lift_res (getCommand host agent "frozen" []) in
              sh_ frozenInstall;;
              beforeBuildCommand (pkg_scripts pkg);;
              buildCommand (pkg_scripts pkg);;
              beforeTestCommand (pkg_scripts pkg);;
              testCommand (pkg_scripts pkg))
      else ret tt);;
     (* [overrides] is [options.overrides] itself when the caller gave
        one, a fresh object otherwise: the writes of the block below
        land in the caller's object. *)
     let* overrides :=
       lift_res (resolve_overrides (o_release options) (o_qwikPath options)
                   (default ∅ (o_overrides options))) in
     update_options (λ o, match o_overrides o with
                          | Some _ => set_overrides (Some overrides) o
                          | None => o
                          end);;
     let* pkg := lift (applyPackageOverrides dir pkg overrides) in
     lift (beforeBuildCommand (pkg_scripts pkg));;
     lift (buildCommand (pkg_scripts pkg));;
     (if slot_truthy test then
        lift (beforeTestCommand (pkg_scripts pkg);;
              testCommand (pkg_scripts pkg))
      else ret tt);;
     ret dir).

(** *** The bisection controller *)

(** [/^(?:release|docs)[:(]/] matches the commit subject. *)
Definition is_non_code_commit (commitMsg : string) : bool :=
  existsb
    (λ word,
       JS.startsWith word commitMsg
       && match JS.drop (String.length word) commitMsg with
          | String c _ => Ascii.eqb c ":" || Ascii.eqb c "("
          | EmptyString => false
          end)
    ["release"; "docs"].

Definition resetChanges : M St unit := sh_ "git reset --hard HEAD".

Definition get_qwikPath : M St string := λ s, (Ok (qwikPath s), s).

(** One turn of the [while (bisecting)] loop; the result is the new
    value of [bisecting]. *)
Definition bisect_turn (runSuite : Callback W (option Exn)) : M St bool :=
  (let* commitMsg := sh "git log -1 --format=%s" in
   if is_non_code_commit commitMsg then
     sh_ "git bisect skip";;
     ret true
   else
     let* error := call runSuite in
     let* qp := get_qwikPath in
     cd qp;;
     resetChanges;;
     let* bisectOut :=
       sh ("git bisect " +:+ match error with Some _ => "bad" | None => "good" end) in
     ret (bool_decide (JS.toLowerCase (JS.take 10 bisectOut) = "bisecting:"))).

(** The loop, run for at most [fuel] turns: [None] when it is still
    bisecting after that many. *)
Fixpoint bisect_loop (fuel : nat) (runSuite : Callback W (option Exn))
    (s : St) : option (Res unit) * St :=
  match fuel with
  | 0 => (None, s)
  | S fuel' =>
      match bisect_turn runSuite s with
      | (Ok true, s') => bisect_loop fuel' runSuite s'
      | (Ok false, s') => (Some (Ok tt), s')
      | (Throw e, s') => (Some (Throw e), s')
      end
  end.

(** The body of the [try] block. *)
Definition bisect_try (fuel : nat) (good : string)
    (runSuite : Callback W (option Exn)) (s : St) : option (Res unit) * St :=
  match (let* qp := get_qwikPath in
         cd qp;;
         resetChanges;;
         sh_ "git bisect start";;
         sh_ "git bisect bad";;
         sh_ ("git bisect good " +:+ good)) s with
  | (Ok _, s') => bisect_loop fuel runSuite s'
  | (Throw e, s') => (Some (Throw e), s')
  end.

(** The [finally] block. *)
Definition bisect_cleanup : M St unit :=
  try_catch (let* qp := get_qwikPath in
             cd qp;;
             sh_ "git bisect reset")
            (λ _, log "Error while resetting bisect").

(** [bisectQwik]: [try { .. } catch { log } finally { cleanup }]
    around the loop; nothing follows a loop that has not ended. *)
Definition bisectQwik (fuel : nat) (good : string)
    (runSuite : Callback W (option Exn)) (s : St) : option (Res unit) * St :=
  match bisect_try fuel good runSuite s with
  | (None, s') => (None, s')
  | (Some r, s') =>
      let '(r', s'') :=
        try_finally
          (try_catch (lift_res r) (λ _, log "error while bisecting"))
          bisect_cleanup s' in
      (Some r', s'')
  end.

End Program.

(** ** The rest of [utils.ts], and the suite selection of the command line *)

(** [Partial<RepoOptions>]: every field may be absent; a field that is
    there holds a value. *)
Record PartialRepo := {
  p_repo : option string;
  p_dir : option string;
  p_branch : option string;
  p_tag : option string;
  p_commit : option string;
  p_shallow : option bool;
  p_overrides : option Overrides;
}.

(** What a function that may end the process hands back. *)
Inductive Exit (A : Type) :=
| Returned (a : A)
| ProcessExit (code : nat).
Arguments Returned {A} a.
Arguments ProcessExit {A} code.

(** [s.endsWith(p)]. *)
Definition endsWith (p s : string) : bool :=
  (String.length p <=? String.length s)
  && String.eqb (JS.drop (String.length s - String.length p) s) p.

(** [f.slice(0, -3)]. *)
Definition slice_off3 (f : string) : string := JS.take (String.length f - 3) f.

(** The catalogue of suites in a listing of the [tests] directory: the
    [.ts] files that do not start with an underscore, without their
    extension, sorted. *)
Definition availableSuites (files : list string) : list string :=
  merge_sort String.le
    (map slice_off3
       (List.filter (λ f, negb (JS.startsWith "_" f) && endsWith ".ts" f) files)).

Section Program2.
Context {W : Type} (host : Host W).
(** How an exception reads inside a template literal. *)
Context (exn_text : Exn → string).
(** [fs.readdirSync]. *)
Context (readdirSync : string → W → Res (list string)).

Local Abbreviation St := (State W).

(** The object literal [{ repo, dir, branch: 'main', shallow: true,
    ...options }]. *)
Definition spread_repo (repo dir : string) (options : PartialRepo) : RepoOptions :=
  {| r_repo := default repo (p_repo options);
     r_dir := Some (default dir (p_dir options));
     r_branch := Some (default "main" (p_branch options));
     r_tag := p_tag options;
     r_commit := p_commit options;
     r_shallow := Some (default true (p_shallow options));
     r_overrides := p_overrides options |}.

(** [setupQwikRepo]; the [cause] of the wrapping error is not
    represented. *)
Definition setupQwikRepo (options : PartialRepo) : M St unit :=
  (let repo := JS.or_str (p_repo options) "QwikDev/qwik" in
   let* qp := get_qwikPath in
   call_with (spread_repo repo qp options) (setupRepo host);;
   try_catch
     (let* qp := get_qwikPath in
      let rootPackageJsonFile := path_join host [qp; "package.json"] in
      let* text := fs_read host rootPackageJsonFile in
      let* rootPackageJson := lift_res (JSON_parse host text) in
      let* (rootPackageJson, needsWrite) :=
        overridePackageManagerVersion host rootPackageJson "pnpm" in
      if needsWrite : bool then
        fs_write host rootPackageJsonFile (JSON_stringify host rootPackageJson);;
        if JS.truthy_opt (pkg_devDependencies rootPackageJson ≫= (.!! "pnpm")) then
          sh_ host "pnpm install -Dw pnpm --lockfile-only"
        else ret tt
      else ret tt)
     (λ _, throw (JsError "Failed to setup Qwik repo"))).


(** [buildQwik({ verify = false })]. *)
Definition buildQwik (verify : option bool) : M St unit :=
  (let verify := default false verify in
   let* qp := get_qwikPath in
   cd host qp;;
   let* frozenInstall := lift_res (getCommand host "pnpm" "frozen" []) in
   let* runBuild := lift_res (getCommand host "pnpm" "run" ["build.full"]) in
   let* runTest := lift_res (getCommand host "pnpm" "run" ["test"]) in
   sh_ host frozenInstall;;
   sh_ host runBuild;;
   when verify (sh_ host runTest)).

(** [getSuitesToRun] of [ecosystem-ci.ts]. *)
Definition getSuitesToRun (suites : list string) (root : string)
    : M St (Exit (list string)) :=
  (let* files := (λ s, (readdirSync (path_join host [root; "tests"]) (world s), s)) in
   let availableSuites := availableSuites files in
   match suites with
   | [] => ret (Returned availableSuites)
   | _ =>
       let invalidSuites :=
         List.filter (λ x, negb (JS.startsWith "_" x)
                           && negb (bool_decide (x ∈ availableSuites))) suites in
       match invalidSuites with
       | [] => ret (Returned suites)
       | _ =>
           log ("invalid suite(s): " +:+ String.concat ", " invalidSuites);;
           log ("available suites: " +:+ String.concat ", " availableSuites);;
           ret (ProcessExit 1)
       end
   end).

End Program2.

(** ** Reading traces *)

(** The commands handed to [execSync], in order. *)
Fixpoint commands (evs : list Event) : list string :=
  match evs with
  | [] => []
  | EvExec cmd _ _ _ :: evs' => cmd :: commands evs'
  | _ :: evs' => commands evs'
  end.

(** The directories removed by [fs.rmSync], in order. *)
Fixpoint removed (evs : list Event) : list string :=
  match evs with
  | [] => []
  | EvRm d :: evs' => d :: removed evs'
  | _ :: evs' => removed evs'
  end.

(** The files written, in order. *)
Fixpoint writes (evs : list Event) : list string :=
  match evs with
  | [] => []
  | EvWrite f _ :: evs' => f :: writes evs'
  | _ :: evs' => writes evs'
  end.

(** The environments the child processes ran in, in order. *)
Fixpoint child_envs (evs : list Event) : list Env :=
  match evs with
  | [] => []
  | EvExec _ _ e _ :: evs' => e :: child_envs evs'
  | _ :: evs' => child_envs evs'
  end.

(** How many times [cmd] was run. *)
Definition times_run (cmd : string) (evs : list Event) : nat :=
  length (filter (λ c, c = cmd) (commands evs)).

(** ** A concrete host for examples *)

Module Toy.

Record World := {
  calls : nat;               (* commands run so far *)
  dirs : list string;        (* directories on disk *)
}.

Record Scenario := {
  sc_exec : nat → string → string → Res string;
    (* what the n-th command prints, given the directory it runs in *)
  sc_env : Env;
  sc_agent : option string;
  sc_pkg : Pkg;
}.

Definition resolve2 (a b : string) : string :=
  if JS.startsWith "/" b then b else a +:+ "/" +:+ b.

Definition host (sc : Scenario) : Host World := {|
  process_env _ := sc_env sc;
  process_cwd _ := "/ci";
  module_dir _ := "/ci";
  execSync cmd o w :=
    (sc_exec sc (calls w) (opt_cwd o) cmd, {| calls := S (calls w); dirs := dirs w |});
  existsSync p w := bool_decide (p ∈ dirs w);
  rmSync p w := (Ok tt, {| calls := calls w; dirs := filter (λ d, d ≠ p) (dirs w) |});
  mkdirSync p w := (Ok tt, {| calls := calls w; dirs := p :: dirs w |});
  writeFile _ _ w := (Ok tt, w);
  readFile _ _ := Ok "{}";
  lstat_isDirectory p w :=
    if bool_decide (p ∈ dirs w) then Ok true else Throw (HostError "ENOENT");
  path_resolve _ l := foldl resolve2 "/ci" l;
  path_join := String.concat "/";
  JSON_parse _ := Ok (sc_pkg sc);
  JSON_stringify _ := "{}";
  detect _ _ := sc_agent sc;
  AGENTS := ["npm"; "yarn"; "yarn@berry"; "pnpm"; "pnpm@6"; "bun"];
  getCommand agent verb args := Ok (String.concat " " (agent :: verb :: args));
  semver_eq a b := Ok (String.eqb (JS.trim a) b);
|}.

Definition start (ds : list string) : State World := {|
  world := {| calls := 0; dirs := ds |};
  isGitHubActions := false;
  qwikPath := "/ci/workspace/qwik";
  cwd := "/ci";
  env := ∅;
  trace := [];
|}.

Definition empty_pkg : Pkg := {|
  pkg_name := "downstream";
  pkg_scripts := Some ∅;
  pkg_packageManager := None;
  pkg_engines := None;
  pkg_dependencies := None;
  pkg_devDependencies := None;
  pkg_pnpm_overrides := None;
  pkg_resolutions := None;
  pkg_overrides := None;
|}.

(** A machine on which every command succeeds and [git] answers as
    it does: [git ls-remote --get-url] prints the remote URL on a line
    of its own. *)
Definition git_remote (url : string) : Scenario := {|
  sc_exec _ _ cmd :=
    if String.eqb cmd "git ls-remote --get-url" then Ok (url +:+ JS.newline)
    else Ok EmptyString;
  sc_env := ∅;
  sc_agent := Some "pnpm";
  sc_pkg := empty_pkg;
|}.

(** A bisection over a short history: a documentation commit, a
    code commit, a release commit, a code commit.  The bisect command
    announces more candidates once, then names the culprit. *)
Definition bisecting : Scenario := {|
  sc_exec n _ cmd :=
    if String.eqb cmd "git log -1 --format=%s" then
      Ok (if n <? 5 then "docs: readme"
          else if n <? 9 then "fix: hydration"
          else if n <? 10 then "release: 1.0.1"
          else "feat: signals")
    else if JS.startsWith "git bisect " cmd then
      Ok (if n <? 9 then "Bisecting: 1 revision left to test after this"
          else "0123abc is the first bad commit")
    else Ok EmptyString;
  sc_env := ∅;
  sc_agent := Some "pnpm";
  sc_pkg := empty_pkg;
|}.

(** A probe that reports a failure. *)
Definition failing_probe : Callback World (option Exn) :=
  λ w c, (Ok (Some (JsError "suite failed")), w, c).

Definition qwik_url : string := "https://github.com/QwikDev/qwik.git".
Definition qwik_dir : string := "/ci/workspace/qwik".

(** The core repository, shallow, on its default branch. *)
Definition qwik_ref : RepoOptions := {|
  r_repo := "QwikDev/qwik";
  r_dir := Some qwik_dir;
  r_branch := None;
  r_tag := None;
  r_commit := None;
  r_shallow := None;
  r_overrides := None;
|}.

(** A full clone pinned to a tag, as the bisect command asks for. *)
Definition tagged_full_ref : RepoOptions := {|
  r_repo := "QwikDev/qwik";
  r_dir := Some qwik_dir;
  r_branch := Some "main";
  r_tag := Some "v1.0.0";
  r_commit := None;
  r_shallow := Some false;
  r_overrides := None;
|}.

(** The suite of [tests/qwik-image.ts], as the command line hands it
    over. *)
Definition image_suite : Options World := {|
  o_repo := "qwikdev/qwik-image";
  o_dir := None;
  o_branch := Some "main";
  o_tag := None;
  o_commit := None;
  o_shallow := None;
  o_overrides := None;
  o_workspace := "/ci/workspace/qwik-image";
  o_root := "/ci";
  o_qwikPath := "/ci/workspace/qwik";
  o_qwikMajor := 1;
  o_verify := Some false;
  o_skipGit := Some false;
  o_release := None;
  o_agent := None;
  o_build := SOne (TStr "build --skip-nx-cache");
  o_test := SOne (TStr "test");
  o_beforeInstall := SNone;
  o_beforeBuild := SNone;
  o_beforeTest := SNone;
|}.

(** The same suite run against a published release, with an explicit
    override of the package the release is written to. *)
Definition pinned_overrides : Overrides := {[ "vite" := VStr "2.0.0" ]}.

Definition release_suite : Options World :=
  set_overrides (Some pinned_overrides)
    {| o_repo := "qwikdev/qwik-image"; o_dir := None; o_branch := Some "main";
       o_tag := None; o_commit := None; o_shallow := None; o_overrides := None;
       o_workspace := "/ci/workspace/qwik-image"; o_root := "/ci";
       o_qwikPath := "/ci/workspace/qwik"; o_qwikMajor := 1;
       o_verify := Some false; o_skipGit := Some false;
       o_release := Some "1.0.0"; o_agent := None;
       o_build := SOne (TStr "build --skip-nx-cache"); o_test := SOne (TStr "test");
       o_beforeInstall := SNone; o_beforeBuild := SNone; o_beforeTest := SNone |}.

(** The override set of the specification's example. *)
Definition example_overrides : Overrides :=
  <["a" := VStr "1.2.3"]> (<["b" := VBool true]> (<["c" := VStr "./local-dir"]> ∅)).

End Toy.

(** The image suite run against a published release of the core
    library, with an explicit override of the core package to another
    version. *)
Definition core_override : Overrides := {[ "@builder.io/qwik" := VStr "2.0.0" ]}.

Definition core_release_suite : Options Toy.World :=
  set_overrides (Some core_override)
    {| o_repo := "qwikdev/qwik-image"; o_dir := None; o_branch := Some "main";
       o_tag := None; o_commit := None; o_shallow := None; o_overrides := None;
       o_workspace := "/ci/workspace/qwik-image"; o_root := "/ci";
       o_qwikPath := "/ci/workspace/qwik"; o_qwikMajor := 1;
       o_verify := Some false; o_skipGit := Some false;
       o_release := Some "1.0.0"; o_agent := None;
       o_build := SOne (TStr "build --skip-nx-cache"); o_test := SOne (TStr "test");
       o_beforeInstall := SNone; o_beforeBuild := SNone; o_beforeTest := SNone |}.

(** The machine of the examples: the core repository is cloned under
    the workspace, every command succeeds. *)
Definition ci_host : Host Toy.World := Toy.host (Toy.git_remote Toy.qwik_url).
Definition ci_start : State Toy.World := Toy.start [Toy.qwik_dir].

(** The same machine with the local directory of the override example. *)
Definition local_start : State Toy.World := Toy.start ["./local-dir"].

(** ** Reasoning principles *)

(** The outcome and final state of a computation satisfy [Q]. *)
Definition wp {S A} (m : M S A) (Q : Res A → S → Prop) (s : S) : Prop :=
  Q (m s).1 (m s).2.

(** Whatever the outcome, the final state is [R]-related to the
    initial one. *)
Definition stable {S A} (R : S → S → Prop) (m : M S A) : Prop :=
  ∀ s, R s (m s).2.

(** The module variables a command cannot touch. *)
Definition same_module {W} (s s' : State W) : Prop :=
  isGitHubActions s' = isGitHubActions s ∧ qwikPath s' = qwikPath s ∧ env s' = env s.

(** The observation [obs] of the trace is the same in both states. *)
Definition keeps {W X} (obs : list Event → X) (s s' : State W) : Prop :=
  obs (trace s') = obs (trace s).

(** An observation that does not see announcements, logging, or calls
    of caller-supplied functions. *)
Definition quiet {X} (obs : list Event → X) : Prop :=
  ∀ tr e,
    match e with
    | EvGroup _ | EvEndGroup | EvLog _ | EvCall => obs (tr ++ [e]) = obs tr
    | _ => True
    end.

(** An observation that does not see the command [cmd]. *)
Definition blind_to {X} (obs : list Event → X) (cmd : string) : Prop :=
  ∀ tr o e r, obs (tr ++ [EvExec cmd o e r]) = obs tr.

(** The trace of [s'] extends the trace of [s]. *)
Definition grows {W} (s s' : State W) : Prop :=
  ∃ evs, trace s' = trace s ++ evs.

(** ** Checkout targets, in the words of the specification *)

Inductive Target :=
| TTag (t : string)
| TCommit (c : string)
| TBranch (b : string).

(** Explicit tag, else explicit commit, else branch; a tag or commit
    counts as given when it is a non-empty string. *)
Definition resolve_target (tag commit : option string) (branch : string) : Target :=
  match tag with
  | Some t =>
      if JS.truthy t then TTag t
      else match commit with
           | Some c => if JS.truthy c then TCommit c else TBranch branch
           | None => TBranch branch
           end
  | None =>
      match commit with
      | Some c => if JS.truthy c then TCommit c else TBranch branch
      | None => TBranch branch
      end
  end.

(** How a target is named to [git fetch origin]. *)
Definition fetch_ref (t : Target) : string :=
  match t with TTag t => "tag " +:+ t | TCommit c => c | TBranch b => b end.

(** How a target is named to a detached [git checkout]. *)
Definition checkout_ref (t : Target) : string :=
  match t with TTag t => "tags/" +:+ t | TCommit c => c | TBranch b => b end.

(** The hard reset that follows the merge in a full clone. *)
Definition reset_cmds (t : Target) : list string :=
  match t with
  | TTag t => ["git reset --hard " +:+ t]
  | TCommit c => ["git reset --hard " +:+ c]
  | TBranch _ => []
  end.

(** ** Override values, in the words of the specification *)

(** Path-like: holds a path separator and does not start with the
    scoped-package marker. *)
Definition path_like (v : string) : bool :=
  JS.includes "/" v && negb (JS.startsWith "@" v).

(** The path exists as a directory on disk. *)
Definition existing_directory {W} (host : Host W) (w : W) (v : string) : bool :=
  match lstat_isDirectory host v w with Ok b => b | Throw _ => false end.

(** What an override value becomes: dropped unless a string; a local
    directory becomes a [file:] reference to its absolute path; any
    other string stays. *)
Definition sanitized_value {W} (host : Host W) (w : W) (v : OValue) : option string :=
  match v with
  | VStr v =>
      Some (if path_like v && existing_directory host w v
            then "file:" +:+ path_resolve host w [v] else v)
  | VBool _ => None
  end.

(** The entry [name] of an optional manifest block. *)
Definition entry (block : option (gmap string string)) (name : string) : option string :=
  block ≫= (.!! name).

(** ** Watching a bisection *)

(** The run added events satisfying [P] to the trace. *)
Definition adds {W} (P : list Event → Prop) (s s' : State W) : Prop :=
  ∃ evs, trace s' = trace s ++ evs ∧ P evs.

(** A subject line that starts with [release:] or [docs:]. *)
Definition named_non_functional (subject : string) : bool :=
  JS.startsWith "release:" subject || JS.startsWith "docs:" subject.

(** A monitor that reads the trace of a bisection.  It remembers the
    subject line most recently read; it is violated when a
    caller-supplied function (the probe) runs although no subject was
    just read or the subject read starts with [release:] or [docs:],
    and when a command other than [git bisect skip] follows such a
    subject. *)
Inductive Watch :=
| Idle
| Read (subject : string)
| Violated.

Definition read_or_idle (cmd : string) (out : Res string) : Watch :=
  if String.eqb cmd "git log -1 --format=%s" then
    match out with Ok subject => Read subject | Throw _ => Idle end
  else Idle.

Definition watch_step (st : Watch) (e : Event) : Watch :=
  match st with
  | Violated => Violated
  | Idle =>
      match e with
      | EvExec cmd _ _ out => read_or_idle cmd out
      | EvCall => Violated
      | _ => Idle
      end
  | Read subject =>
      match e with
      | EvExec cmd _ _ out =>
          if named_non_functional subject then
            if String.eqb cmd "git bisect skip" then Idle else Violated
          else read_or_idle cmd out
      | EvCall => if named_non_functional subject then Violated else Idle
      | _ => Read subject
      end
  end.

Definition watch (evs : list Event) : Watch := fold_left watch_step evs Idle.

Definition probes_guarded (evs : list Event) : bool :=
  match watch evs with Violated => false | _ => true end.

(** No bisect reset among the commands. *)
Definition no_reset (evs : list Event) : bool :=
  forallb (λ c, negb (String.eqb c "git bisect reset")) (commands evs).

Definition watch_idle (evs : list Event) : Prop := watch evs = Idle.

Definition reset_free (evs : list Event) : Prop := no_reset evs = true.

(** A property of event lists that holds of nothing and of
    concatenations. *)
Class AppClosed (P : list Event → Prop) : Prop := {
  app_closed_nil : P [];
  app_closed_app a b : P a → P b → P (a ++ b);
}.

(** The options object is the same in both states. *)
Definition same_options {O W} (st st' : O * State W) : Prop := st'.1 = st.1.

(** ** What a run of the suite may have done to its options *)

(** The run either stopped with an exception before it settled the
    overrides, having written no file and assigned nothing but the
    defaults and the detected agent; or it settled them, and a supplied
    overrides object holds the settled set. *)
Definition run_post {W} (o : Options W) (s : State W) (r : Res string)
    (st : Options W * State W) : Prop :=
  ∃ agent',
    (agent' = o_agent o ∨ o_agent o = None ∧ is_Some agent')
    ∧ let o4 := set_agent agent' (with_defaults o) in
      (is_ok r = false ∧ st.1 = o4 ∧ keeps writes s st.2)
      ∨ (∃ ov', resolve_overrides (o_release o) (o_qwikPath o)
                  (default ∅ (o_overrides o)) = Ok ov'
                ∧ st.1 = match o_overrides o with
                         | Some _ => set_overrides (Some ov') o4
                         | None => o4
                         end).

(** ** Command scripts *)

Global Instance Res_eq_dec {A} `{EqDecision A} : EqDecision (Res A).
Proof. solve_decision. Defined.

(** The commands a run added to the trace are the first few of
    [script], and all of them when the run returned. *)
Definition ran {W A} (script : list string) (s : State W) (r : Res A)
    (s' : State W) : Prop :=
  ∃ done, commands (trace s') = commands (trace s) ++ done
          ∧ done `prefix_of` script
          ∧ (is_ok r = true → done = script).

(** What a synchronization runs inside the clone. *)
Definition sync_script (shallow : bool) (tag commit : option string)
    (branch : string) : list string :=
  ["git clean -fdxq"; fetch_cmd shallow tag commit branch]
  ++ (if shallow then [shallow_checkout_cmd tag commit branch]
      else ["git checkout " +:+ branch; "git merge FETCH_HEAD"]
           ++ JS.cond (JS.or_opt tag commit) (λ ref, ["git reset --hard " +:+ ref]) []).

(** The text matched by [/^(\w+)(?:\s+(--.+))?$/], with its groups. *)
Definition command_shape (text : string) (pc : ParsedCmd) : Prop :=
  pc_cmd pc ≠ EmptyString
  ∧ JS.all JS.is_word (pc_cmd pc) = true
  ∧ match pc_flags pc with
    | None => text = pc_cmd pc
    | Some flags =>
        ∃ sp, sp ≠ EmptyString
              ∧ JS.all JS.is_space sp = true
              ∧ text = pc_cmd pc +:+ sp +:+ flags
              ∧ JS.startsWith "--" flags = true
              ∧ 3 ≤ String.length flags
              ∧ JS.all (λ c, negb (JS.is_line_terminator c)) flags = true
    end.

(** ** Overrides, in the words of the specification *)

(** The install command of a package manager. *)
Definition install_cmd (pm : string) : string :=
  if bool_decide (pm = "pnpm")
  then "pnpm install --prefer-frozen-lockfile --strict-peer-dependencies false"
  else pm +:+ " install".

(** The package of the core repository that an override key stands
    for, when it stands for one. *)
Definition qwik_local (qwikPath key : string) : option string :=
  if bool_decide (key = "@builder.io/qwik") then Some (qwikPath +:+ "/packages/qwik")
  else if bool_decide (key = "@builder.io/qwik-city")
       then Some (qwikPath +:+ "/packages/qwik-city")
  else if bool_decide (key = "eslint-plugin-qwik")
       then Some (qwikPath +:+ "/packages/eslint-plugin-qwik")
  else None.

(** The files written, with what was written to them, in order. *)
Fixpoint written (evs : list Event) : list (string * string) :=
  match evs with
  | [] => []
  | EvWrite f c :: evs' => (f, c) :: written evs'
  | _ :: evs' => written evs'
  end.

(** The version the pin fix is decided on: the one the manifest pins
    for the manager, or else what [pm --version] prints when run in
    [cwd]. *)
Definition version_in_use {W} (host : Host W) (pkg : Pkg) (pm cwd : string) (w : W)
    : Res string :=
  let asked :=
    (execSync host (pm +:+ " --version") {| opt_cwd := cwd; opt_env := None |} w).1 in
  match pkg_packageManager pkg with
  | Some p =>
      if JS.startsWith (pm +:+ "@") p then Ok (JS.drop (String.length pm + 1) p)
      else asked
  | None => asked
  end.

(** The manifest after the pin fix. *)
Definition pinned_to_fix (pkg : Pkg) : Pkg :=
  set_devDependencies (patch_present "pnpm" "7.18.1" (pkg_devDependencies pkg))
    (set_engines (Some (<["pnpm" := "7.18.1"]> (default ∅ (pkg_engines pkg))))
       (set_packageManager (Some "pnpm@7.18.1") pkg)).

(** The manifest and the answer of the pin fix, for the manager [pm]
    run in [cwd]. *)
Definition pin_outcome {W} (host : Host W) (pkg : Pkg) (pm cwd : string) (w : W)
    : Res (Pkg * bool) :=
  match version_in_use host pkg pm cwd w with
  | Ok v =>
      if bool_decide (pm = "pnpm") then
        match semver_eq host v "7.18.0" with
        | Ok true => Ok (pinned_to_fix pkg, true)
        | Ok false => Ok (pkg, false)
        | Throw e => Throw e
        end
      else Ok (pkg, false)
  | Throw e => Throw e
  end.

(** The pnpm in use for a manifest is the version the fix is for. *)
Definition needs_pin {W} (host : Host W) (pkg : Pkg) (cwd : string) (w : W) : bool :=
  match version_in_use host pkg "pnpm" cwd w with
  | Ok v => match semver_eq host v "7.18.0" with Ok true => true | _ => false end
  | Throw _ => false
  end.


(** A relation on module states, read on the states that carry an
    options object. *)
Definition on_state {O W} (R : State W → State W → Prop)
    (st st' : O * State W) : Prop := R st.2 st'.2.

(** ** More inputs for examples *)

(** A manifest with a build script. *)
Definition build_scripts : gmap string string := {[ "build" := "vite build" ]}.


(** A machine whose process environment has a search path. *)
Definition with_path : Toy.Scenario := {|
  Toy.sc_exec _ _ _ := Ok EmptyString;
  Toy.sc_env := {[ "PATH" := "/usr/bin" ]};
  Toy.sc_agent := Some "pnpm";
  Toy.sc_pkg := Toy.empty_pkg;
|}.

(** A machine with nothing on disk. *)
Definition fresh_start : State Toy.World := Toy.start [].

(** A workspace prepared by an earlier run. *)
Definition prepared_start : State Toy.World :=
  Toy.start ["/ci/workspace"; "/ci/workspace/.eslintrc.json";
             "/ci/workspace/.editorconfig"; "/ci/workspace/tsconfig.json"].

(** A manifest that pins the pnpm version the override is for. *)
Definition pinned_pkg : Pkg := set_packageManager (Some "pnpm@7.18.0") Toy.empty_pkg.

(** The [tests] directory. *)
Definition tests_listing : string → Toy.World → Res (list string) :=
  λ _ _, Ok ["qwik-ui-headless.ts"; "_selftest.ts"; "qwik-image.ts"; "README.md"].

(** The image suite on a working copy that is already there. *)
Definition skip_suite : Options Toy.World := set_skipGit (Some true) Toy.image_suite.

(** The bisection of [Toy.bisecting], arrived at its first code
    commit. *)
Definition bisect_midway : State Toy.World := {|
  world := {| Toy.calls := 5; Toy.dirs := [] |};
  isGitHubActions := false;
  qwikPath := "/ci/workspace/qwik";
  cwd := "/ci";
  env := ∅;
  trace := [];
|}.

(** The same suite, asked to run with a package manager that is not
    supported. *)
Definition deno_suite : Options Toy.World := set_agent (Some "deno") skip_suite.

(** * Properties *)

Section Properties.
Context {W : Type} (host : Host W).
Implicit Types (s : State W) (cmd : string).

(** *** Traces are read piecewise *)

Lemma commands_app a b : commands (a ++ b) = commands a ++ commands b.
Proof. induction a as [|[] a IH]; simpl; by rewrite ?IH. Qed.

Lemma removed_app a b : removed (a ++ b) = removed a ++ removed b.
Proof. induction a as [|[] a IH]; simpl; by rewrite ?IH. Qed.

Lemma writes_app a b : writes (a ++ b) = writes a ++ writes b.
Proof. induction a as [|[] a IH]; simpl; by rewrite ?IH. Qed.

Lemma child_envs_app a b : child_envs (a ++ b) = child_envs a ++ child_envs b.
Proof. induction a as [|[] a IH]; simpl; by rewrite ?IH. Qed.

(** *** The monad *)

Lemma stable_ret {S A} (R : S → S → Prop) `{!Reflexive R} (a : A) : stable R (ret a).
Proof. intros s. simpl. reflexivity. Qed.

Lemma stable_throw {S A} (R : S → S → Prop) `{!Reflexive R} e :
  stable R (throw (A := A) e).
Proof. intros s. simpl. reflexivity. Qed.

Lemma stable_lift_res {S A} (R : S → S → Prop) `{!Reflexive R} (r : Res A) :
  stable R (lift_res r).
Proof. intros s. simpl. reflexivity. Qed.

Lemma stable_bind {S A B} (R : S → S → Prop) `{!Transitive R}
    (m : M S A) (f : A → M S B) :
  stable R m → (∀ a, stable R (f a)) → stable R (bind m f).
Proof.
  intros Hm Hf s. unfold bind. specialize (Hm s).
  destruct (m s) as [[a|e] s1]; simpl in *; [|done].
  etrans; [exact Hm|apply Hf].
Qed.

Lemma stable_try_catch {S A} (R : S → S → Prop) `{!Transitive R}
    (m : M S A) (h : Exn → M S A) :
  stable R m → (∀ e, stable R (h e)) → stable R (try_catch m h).
Proof.
  intros Hm Hh s. unfold try_catch. specialize (Hm s).
  destruct (m s) as [[a|e] s1]; simpl in *; [done|].
  etrans; [exact Hm|apply Hh].
Qed.

Lemma stable_when {S} (R : S → S → Prop) `{!Reflexive R} (b : bool) (m : M S unit) :
  stable R m → stable R (when b m).
Proof. intros Hm. destruct b; [done|]. by apply stable_ret. Qed.

(** *** The shell primitive *)

(** Everything [sh] does, spelled out. *)
Lemma sh_spec cmd s :
  ∃ r w',
    execSync host cmd {| opt_cwd := cwd s; opt_env := None |} (world s) = (r, w')
    ∧ (sh host cmd s).1 = r
    ∧ world (sh host cmd s).2 = w'
    ∧ cwd (sh host cmd s).2 = cwd s
    ∧ same_module s (sh host cmd s).2
    ∧ trace (sh host cmd s).2 =
        trace s ++ [announce s cmd;
                    EvExec cmd {| opt_cwd := cwd s; opt_env := None |}
                           (process_env host (world s)) r]
                ++ (if is_ok r && isGitHubActions s then [EvEndGroup] else []).
Proof.
  unfold sh, announce.
  destruct (execSync host cmd _ (world s)) as [r w'] eqn:He.
  exists r, w'. split; [done|].
  destruct r as [out|e]; simpl; destruct (isGitHubActions s); simpl;
    rewrite <- ?app_assoc; done.
Qed.

Global Instance same_module_refl : Reflexive (@same_module W).
Proof. by intros s. Qed.

Global Instance same_module_trans : Transitive (@same_module W).
Proof. intros s1 s2 s3 (?&?&?) (?&?&?). unfold same_module. split_and!; congruence. Qed.

Global Instance keeps_refl {X} (obs : list Event → X) : Reflexive (@keeps W X obs).
Proof. by intros s. Qed.

Global Instance keeps_trans {X} (obs : list Event → X) : Transitive (@keeps W X obs).
Proof. intros s1 s2 s3 H1 H2. unfold keeps in *. congruence. Qed.

Lemma quiet_removed : quiet removed.
Proof. intros tr []; try done; rewrite removed_app; simpl; by rewrite app_nil_r. Qed.

Lemma quiet_writes : quiet writes.
Proof. intros tr []; try done; rewrite writes_app; simpl; by rewrite app_nil_r. Qed.

Lemma blind_removed cmd : blind_to removed cmd.
Proof. intros tr o e r. rewrite removed_app. simpl. by rewrite app_nil_r. Qed.

Lemma blind_writes cmd : blind_to writes cmd.
Proof. intros tr o e r. rewrite writes_app. simpl. by rewrite app_nil_r. Qed.

Lemma keeps_sh {X} (obs : list Event → X) cmd :
  quiet obs → blind_to obs cmd → stable (keeps obs) (sh host cmd).
Proof.
  intros Hq Hb s. unfold keeps.
  destruct (sh_spec cmd s) as (r & w' & _ & _ & _ & _ & _ & ->).
  assert (Hend : obs (trace s ++ [announce s cmd;
              EvExec cmd {| opt_cwd := cwd s; opt_env := None |}
                (process_env host (world s)) r]) = obs (trace s)).
  { change [announce s cmd; ?e] with ([announce s cmd] ++ [e]).
    rewrite app_assoc, Hb. unfold announce.
    destruct (isGitHubActions s).
    - apply (Hq _ (EvGroup _)).
    - apply (Hq _ (EvLog _)). }
  destruct (is_ok r && isGitHubActions s).
  - rewrite app_assoc. rewrite (Hq _ EvEndGroup). exact Hend.
  - rewrite app_nil_r. exact Hend.
Qed.

Lemma keeps_sh_ {X} (obs : list Event → X) cmd :
  quiet obs → blind_to obs cmd → stable (keeps obs) (sh_ host cmd).
Proof.
  intros Hq Hb. unfold sh_. apply stable_bind; [apply _|by apply keeps_sh|].
  intros _. apply stable_ret, _.
Qed.

Lemma keeps_cd {X} (obs : list Event → X) d : stable (keeps obs) (cd host d).
Proof. by intros s. Qed.

Lemma keeps_log {X} (obs : list Event → X) msg :
  quiet obs → stable (keeps obs) (log msg : M (State W) unit).
Proof. intros Hq s. apply (Hq _ (EvLog msg)). Qed.

Lemma keeps_call {X A} (obs : list Event → X) (f : Callback W A) :
  quiet obs → stable (keeps obs) (call f).
Proof.
  intros Hq s. unfold call, keeps.
  destruct (f (world s) (cwd s)) as [[r w'] c]. simpl. apply (Hq _ EvCall).
Qed.

Lemma same_module_sh cmd : stable same_module (sh host cmd).
Proof. intros s. by destruct (sh_spec cmd s) as (r & w' & _ & _ & _ & _ & ? & _). Qed.

Lemma same_module_fs_exists p : stable same_module (fs_exists host p).
Proof. by intros s. Qed.

Lemma same_module_fs_mkdir p : stable same_module (fs_mkdir host p).
Proof. intros s. unfold fs_mkdir. by destruct (mkdirSync host p (world s)). Qed.

Lemma same_module_fs_write p c : stable same_module (fs_write host p c).
Proof. intros s. unfold fs_write. by destruct (writeFile host p c (world s)). Qed.

Lemma same_module_initWorkspace ws : stable same_module (initWorkspace host ws).
Proof.
  unfold initWorkspace.
  repeat first
    [ apply stable_bind; [apply _| |intros ?]
    | apply stable_when; [apply _|]
    | apply same_module_fs_exists
    | apply same_module_fs_mkdir
    | apply same_module_fs_write ].
Qed.

(** *** The environment of shell commands *)

Lemma ci_env_flags (penv : Env) :
  ci_env penv !! "CI" = Some "true"
  ∧ ci_env penv !! "YARN_ENABLE_IMMUTABLE_INSTALLS" = Some "false"
  ∧ ci_env penv !! "NODE_OPTIONS" = Some "--max-old-space-size=6144"
  ∧ ci_env penv !! "ECOSYSTEM_CI" = Some "true".
Proof. unfold ci_env. split_and!; by simplify_map_eq. Qed.

Lemma setupEnvironment_env s :
  env (setupEnvironment host s).2 = ci_env (process_env host (world s)).
Proof.
  unfold setupEnvironment.
  match goal with |- env (bind ?m ?f ?s1).2 = _ =>
    assert (Hst : same_module s1 (bind m f s1).2)
  end.
  { apply (stable_bind same_module); [apply same_module_initWorkspace|].
    intros ?. apply stable_ret, _. }
  destruct Hst as (_ & _ & ->). done.
Qed.

(** C3 (the code departs from it): [setupEnvironment] prepares an
    environment holding the forced CI flag, the relaxed
    lockfile-immutability flag, the heap-size hint and the
    ecosystem-test marker, but a command issued afterwards through [$]
    is started without an [env] option: the child runs in the process
    environment, whatever the prepared environment holds. *)
Theorem sh_runs_in_process_env cmd s :
  let s1 := (setupEnvironment host s).2 in
  env s1 !! "CI" = Some "true"
  ∧ env s1 !! "YARN_ENABLE_IMMUTABLE_INSTALLS" = Some "false"
  ∧ env s1 !! "NODE_OPTIONS" = Some "--max-old-space-size=6144"
  ∧ env s1 !! "ECOSYSTEM_CI" = Some "true"
  ∧ child_envs (trace (sh host cmd s1).2)
    = child_envs (trace s1) ++ [process_env host (world s1)].
Proof.
  intros s1. unfold s1 at 1 2 3 4. rewrite setupEnvironment_env.
  destruct (ci_env_flags (process_env host (world s))) as (?&?&?&?).
  split_and!; try done.
  destruct (sh_spec cmd s1) as (r & w' & _ & _ & _ & _ & _ & ->).
  rewrite !child_envs_app. simpl.
  unfold announce. destruct (isGitHubActions s1), (is_ok r); simpl;
    by rewrite ?app_nil_r.
Qed.


(** *** Weakest preconditions *)

Lemma wp_bind {S A B} (m : M S A) (f : A → M S B) Q (st : S) :
  wp m (λ r st', match r with
                 | Ok a => wp (f a) Q st'
                 | Throw e => Q (Throw e) st'
                 end) st →
  wp (bind m f) Q st.
Proof. unfold wp, bind. by destruct (m st) as [[a|e] st']. Qed.

Lemma wp_try_catch {S A} (m : M S A) (h : Exn → M S A) Q (st : S) :
  wp m (λ r st', match r with
                 | Ok a => Q (Ok a) st'
                 | Throw e => wp (h e) Q st'
                 end) st →
  wp (try_catch m h) Q st.
Proof. unfold wp, try_catch. by destruct (m st) as [[a|e] st']. Qed.

Lemma wp_stable {S A} (R : S → S → Prop) (m : M S A) (Q : Res A → S → Prop) (st : S) :
  stable R m → (∀ r st', R st st' → Q r st') → wp m Q st.
Proof. intros Hm HQ. apply HQ, Hm. Qed.

Lemma wp_mono {S A} (m : M S A) (Q Q' : Res A → S → Prop) (st : S) :
  wp m Q st → (∀ r st', Q r st' → Q' r st') → wp m Q' st.
Proof. intros H HQ. by apply HQ. Qed.

Lemma wp_ret {S A} (a : A) (Q : Res A → S → Prop) (st : S) :
  Q (Ok a) st → wp (ret a) Q st.
Proof. done. Qed.

Lemma wp_throw {S A} e (Q : Res A → S → Prop) (st : S) :
  Q (Throw e) st → wp (throw e) Q st.
Proof. done. Qed.

Lemma wp_lift_res {S A} (r : Res A) (Q : Res A → S → Prop) (st : S) :
  Q r st → wp (lift_res r) Q st.
Proof. done. Qed.

Lemma wp_fs_exists p (Q : Res bool → State W → Prop) s :
  Q (Ok (existsSync host p (world s))) s → wp (fs_exists host p) Q s.
Proof. done. Qed.

Lemma wp_get_cwd (Q : Res string → State W → Prop) s :
  Q (Ok (cwd s)) s → wp get_cwd Q s.
Proof. done. Qed.

Lemma wp_get_qwikPath (Q : Res string → State W → Prop) s :
  Q (Ok (qwikPath s)) s → wp get_qwikPath Q s.
Proof. done. Qed.

Lemma wp_cd d (Q : Res unit → State W → Prop) s :
  Q (Ok tt) (set_cwd (path_resolve host (world s) [cwd s; d]) s) →
  wp (cd host d) Q s.
Proof. done. Qed.

Lemma wp_log msg (Q : Res unit → State W → Prop) s :
  Q (Ok tt) (emit (EvLog msg) s) → wp (log msg) Q s.
Proof. done. Qed.

Lemma wp_sh cmd (Q : Res string → State W → Prop) s :
  (∀ r w' s1,
     execSync host cmd {| opt_cwd := cwd s; opt_env := None |} (world s) = (r, w') →
     world s1 = w' → cwd s1 = cwd s → same_module s s1 →
     trace s1 = trace s ++ [announce s cmd;
                            EvExec cmd {| opt_cwd := cwd s; opt_env := None |}
                                   (process_env host (world s)) r]
                        ++ (if is_ok r && isGitHubActions s then [EvEndGroup] else []) →
     Q r s1) →
  wp (sh host cmd) Q s.
Proof.
  intros HQ. destruct (sh_spec cmd s) as (r & w' & He & <- & Hw & Hc & Hm & Ht).
  by eapply HQ.
Qed.

Lemma wp_call {A} (f : Callback W A) (Q : Res A → State W → Prop) s :
  (∀ r w' c, f (world s) (cwd s) = (r, w', c) →
             Q r (emit EvCall (set_cwd c (set_world w' s)))) →
  wp (call f) Q s.
Proof.
  intros HQ. unfold wp, call.
  destruct (f (world s) (cwd s)) as [[r w'] c]. by apply HQ.
Qed.

Lemma wp_fs_rm p (Q : Res unit → State W → Prop) s :
  (∀ r w' s1,
     rmSync host p (world s) = (r, w') →
     world s1 = w' → cwd s1 = cwd s → same_module s s1 →
     trace s1 = trace s ++ [EvRm p] → Q r s1) →
  wp (fs_rm host p) Q s.
Proof.
  intros HQ. unfold wp, fs_rm.
  destruct (rmSync host p (world s)) as [r w'] eqn:He. by eapply HQ.
Qed.

(** *** C1: re-synchronizing an existing clone *)

Lemma string_length_app (a b : string) :
  String.length (a +:+ b) = String.length a + String.length b.
Proof.
  induction a as [|c a IH]; [done|].
  change (S (String.length (a +:+ b)) = S (String.length a + String.length b)).
  by rewrite IH.
Qed.

Lemma append_newline_neq (u : string) : u +:+ JS.newline ≠ u.
Proof.
  intros H. apply (f_equal String.length) in H.
  rewrite string_length_app in H. simpl in H. lia.
Qed.

Lemma probe_existing_stale repo dir s w' out :
  existsSync host dir (world s) = true →
  execSync host "git ls-remote --get-url"
    {| opt_cwd := path_resolve host (world s) [cwd s; dir]; opt_env := None |}
    (world s) = (Ok out, w') →
  out ≠ repo →
  wp (probe_existing host repo dir)
     (λ r s', removed (trace s') = removed (trace s) ++ [dir]
              ∧ match r with Ok b => b = true | Throw _ => True end) s.
Proof.
  intros Hex Hls Hne. unfold probe_existing.
  apply wp_bind, wp_fs_exists. rewrite Hex.
  apply wp_bind, wp_get_cwd. apply wp_bind, wp_cd.
  apply wp_bind, wp_try_catch, wp_bind, wp_sh.
  intros r w1 s1 He Hw Hc Hm Ht. cbn [cwd world set_cwd] in He.
  rewrite Hls in He. injection He as <- <-.
  apply wp_ret. apply wp_bind, wp_cd.
  rewrite bool_decide_eq_false_2 by congruence.
  apply wp_bind, wp_fs_rm. intros r w2 s2 _ _ _ _ Ht2.
  cbn [trace set_cwd] in Ht2, Ht.
  assert (Hr : removed (trace s2) = removed (trace s) ++ [dir]).
  { rewrite Ht2, Ht, !removed_app. unfold announce.
    destruct (isGitHubActions _), (is_ok _ && _); simpl;
      by rewrite ?app_nil_r. }
  destruct r; [|done]. by apply wp_ret.
Qed.

(** What the test is meant for: a directory whose reported remote is
    exactly the normalized URL is kept. *)
Lemma probe_existing_reuse repo dir s w' :
  existsSync host dir (world s) = true →
  execSync host "git ls-remote --get-url"
    {| opt_cwd := path_resolve host (world s) [cwd s; dir]; opt_env := None |}
    (world s) = (Ok repo, w') →
  (probe_existing host repo dir s).1 = Ok false
  ∧ removed (trace (probe_existing host repo dir s).2) = removed (trace s).
Proof.
  intros Hex Hls.
  change (wp (probe_existing host repo dir)
            (λ r s', r = Ok false ∧ removed (trace s') = removed (trace s)) s).
  unfold probe_existing.
  apply wp_bind, wp_fs_exists. rewrite Hex.
  apply wp_bind, wp_get_cwd. apply wp_bind, wp_cd.
  apply wp_bind, wp_try_catch, wp_bind, wp_sh.
  intros r w1 s1 He Hw Hc Hm Ht. cbn [cwd world set_cwd] in He.
  rewrite Hls in He. injection He as <- <-.
  apply wp_ret. apply wp_bind, wp_cd.
  rewrite bool_decide_eq_true_2 by done. apply wp_ret. split; [done|].
  cbn [trace set_cwd] in *. rewrite Ht, !removed_app. unfold announce.
  destruct (isGitHubActions _), (is_ok _ && _); simpl; by rewrite ?app_nil_r.
Qed.

Lemma wp_lift {O A} (m : M (State W) A) (Q : Res A → O * State W → Prop) o s :
  wp m (λ r s', Q r (o, s')) s → wp (lift m) Q (o, s).
Proof. unfold wp, lift. by destruct (m s) as [r s']. Qed.

Lemma wp_get_options {O} (Q : Res O → O * State W → Prop) o s :
  Q (Ok o) (o, s) → wp get_options Q (o, s).
Proof. done. Qed.

Lemma wp_update_options {O} (f : O → O) (Q : Res unit → O * State W → Prop) o s :
  Q (Ok tt) (f o, s) → wp (update_options f) Q (o, s).
Proof. done. Qed.

(** The rest of [setupRepo] removes nothing. *)
Lemma setupRepo_tail_keeps_removed shallow tag commit branch dir b repo :
  stable (keeps removed)
    (when b (sh_ host (clone_cmd shallow tag branch repo dir));;
     cd host dir;;
     sh_ host "git clean -fdxq";;
     sh_ host (fetch_cmd shallow tag commit branch);;
     if shallow then sh_ host (shallow_checkout_cmd tag commit branch)
     else (sh_ host ("git checkout " +:+ branch);;
           sh_ host "git merge FETCH_HEAD";;
           JS.cond (JS.or_opt tag commit)
             (λ ref, sh_ host ("git reset --hard " +:+ ref))
             (ret tt))).
Proof.
  pose proof quiet_removed. pose proof blind_removed.
  repeat first
    [ apply keeps_sh_; [done|done]
    | apply keeps_cd
    | apply stable_when; [apply _|]
    | apply stable_bind; [apply _| |intros ?] ].
  destruct shallow.
  - by apply keeps_sh_.
  - repeat first
      [ apply keeps_sh_; [done|done]
      | apply stable_bind; [apply _| |intros ?] ].
    unfold JS.cond. destruct (JS.or_opt tag commit) as [ref|]; [destruct (JS.truthy ref)|];
      first [by apply keeps_sh_ | apply stable_ret, _].
Qed.

(** C1 (the code departs from it): a directory that holds a clone of
    exactly the requested repository is not recognized.  [git
    ls-remote --get-url] prints the remote URL on a line of its own,
    [$] returns the captured output untrimmed, and the comparison with
    the normalized URL fails: the directory is removed recursively
    (and cloned again). *)
Theorem setupRepo_deletes_synchronized_clone (o : RepoOptions) s dir w' :
  r_dir o = Some dir →
  JS.truthy dir = true →
  existsSync host dir (world s) = true →
  execSync host "git ls-remote --get-url"
    {| opt_cwd := path_resolve host (world s) [cwd s; dir]; opt_env := None |}
    (world s) = (Ok (normalize_repo (r_repo o) +:+ JS.newline), w') →
  removed (trace (setupRepo host (o, s)).2.2) = removed (trace s) ++ [dir].
Proof.
  intros Hdir Htr Hex Hls.
  change (wp (setupRepo host)
            (λ _ st, removed (trace st.2) = removed (trace s) ++ [dir]) (o, s)).
  unfold setupRepo.
  apply wp_bind, wp_get_options. apply wp_bind.
  assert (Hwhen : ∀ (b : bool) f (o1 : RepoOptions) Q,
             (∀ o2, r_dir o2 = r_dir o1 ∧ r_repo o2 = r_repo o1 → Q (Ok tt) (o2, s)) →
             r_dir (f o1) = r_dir o1 ∧ r_repo (f o1) = r_repo o1 →
             wp (when b (update_options f)) Q (o1, s)).
  { intros [] f o1 Q HQ Hf; [apply wp_update_options|apply wp_ret]; by apply HQ. }
  apply Hwhen; [|done]. intros o1 [Hd1 Hr1].
  apply wp_bind, wp_get_options. apply wp_bind.
  apply Hwhen; [|done]. intros o2 [Hd2 Hr2].
  apply wp_bind, wp_get_options.
  rewrite Hd2, Hd1, Hdir, Hr2, Hr1. cbn [JS.truthy_opt default negb]. rewrite Htr.
  cbn [negb]. apply wp_lift, wp_bind.
  eapply wp_mono.
  { eapply (probe_existing_stale _ _ _ _ _ Hex Hls), append_newline_neq. }
  intros r s1 [Hrm Hr]. destruct r as [needClone|e]; [|done].
  eapply wp_stable; [apply setupRepo_tail_keeps_removed|].
  intros _ s2 Hk. cbn [snd]. by rewrite Hk.
Qed.

(** *** C9: which ref is fetched and checked out *)

Global Instance grows_refl : Reflexive (@grows W).
Proof. intros s. exists []. by rewrite app_nil_r. Qed.

Global Instance grows_trans : Transitive (@grows W).
Proof. intros s1 s2 s3 [a Ha] [b Hb]. exists (a ++ b). by rewrite Hb, Ha, app_assoc. Qed.

Lemma grows_sh cmd : stable grows (sh host cmd).
Proof.
  intros s. destruct (sh_spec cmd s) as (r & w' & _ & _ & _ & _ & _ & Ht).
  by eexists.
Qed.

Lemma grows_sh_ cmd : stable grows (sh_ host cmd).
Proof.
  unfold sh_. apply stable_bind; [apply _|apply grows_sh|].
  intros _. apply stable_ret, _.
Qed.

Lemma grows_cd d : stable grows (cd host d).
Proof. intros s. by exists []; rewrite app_nil_r. Qed.

Lemma grows_fs_rm p : stable grows (fs_rm host p).
Proof. intros s. unfold fs_rm. destruct (rmSync host p (world s)). by eexists. Qed.

Lemma grows_probe_existing repo dir : stable grows (probe_existing host repo dir).
Proof.
  unfold probe_existing.
  apply stable_bind; [apply _|by intros s; exists []; rewrite app_nil_r|].
  intros [].
  - apply stable_bind; [apply _|by intros s; exists []; rewrite app_nil_r|]. intros c.
    apply stable_bind; [apply _|apply grows_cd|]. intros _.
    apply stable_bind; [apply _| |].
    + apply stable_try_catch; [apply _| |intros; apply stable_ret, _].
      apply stable_bind; [apply _|apply grows_sh|]. intros; apply stable_ret, _.
    + intros cur. apply stable_bind; [apply _|apply grows_cd|]. intros _.
      case_bool_decide; [apply stable_ret, _|].
      apply stable_bind; [apply _|apply grows_fs_rm|]. intros; apply stable_ret, _.
  - apply stable_ret, _.
Qed.

Lemma commands_sh_events s cmd o e r (b : bool) :
  commands ([announce s cmd; EvExec cmd o e r] ++ (if b then [EvEndGroup] else []))
  = [cmd].
Proof. unfold announce. by destruct (isGitHubActions s), b. Qed.

(** A successful command adds itself to the list of commands; a
    failed one ends the function. *)
Lemma wp_sh_commands cmd (Q : Res unit → State W → Prop) s :
  (∀ s1, commands (trace s1) = commands (trace s) ++ [cmd] → Q (Ok tt) s1) →
  (∀ e s1, Q (Throw e) s1) →
  wp (sh_ host cmd) Q s.
Proof.
  intros Hok Hthrow. unfold sh_. apply wp_bind, wp_sh.
  intros r w' s1 _ _ _ _ Ht. destruct r as [out|e]; [|done].
  apply wp_ret, Hok. by rewrite Ht, commands_app, commands_sh_events.
Qed.

Lemma fetch_cmd_target shallow tag commit branch :
  fetch_cmd shallow tag commit branch
  = "git fetch " +:+ (if shallow then "--depth=1 --no-tags" else "--tags")
      +:+ " origin " +:+ fetch_ref (resolve_target tag commit branch).
Proof.
  unfold fetch_cmd, resolve_target, JS.or_str, JS.cond.
  destruct tag as [t|], commit as [c|];
    repeat match goal with |- context [JS.truthy ?x] => destruct (JS.truthy x) end;
    done.
Qed.

Lemma shallow_checkout_target tag commit branch :
  shallow_checkout_cmd tag commit branch
  = "git -c advice.detachedHead=false checkout "
      +:+ checkout_ref (resolve_target tag commit branch).
Proof.
  unfold shallow_checkout_cmd, resolve_target, JS.or_str, JS.cond.
  destruct tag as [t|], commit as [c|];
    repeat match goal with |- context [JS.truthy ?x] => destruct (JS.truthy x) end;
    done.
Qed.

Lemma reset_target {A} tag commit branch (f : string → A) (d : A) :
  JS.cond (JS.or_opt tag commit) f d
  = match resolve_target tag commit branch with
    | TTag t => f t
    | TCommit c => f c
    | TBranch _ => d
    end.
Proof.
  unfold resolve_target, JS.or_opt, JS.cond.
  destruct tag as [t|], commit as [c|];
    repeat match goal with
           | |- context [JS.truthy ?x] => destruct (JS.truthy x) eqn:?
           end; simplify_eq; done.
Qed.

(** C9: the checkout target is the tag when one is given, else the
    commit when one is given, else the branch (["main"] by default).
    The fetch step names it, in shallow and in full mode alike.  The
    checkout step selects it in both modes: in shallow mode by a
    detached checkout of it; in full mode by checking out the branch,
    merging the fetched head and, when a tag or a commit is given, a
    hard reset to the tag, else to the commit. *)
Theorem setupRepo_target_selection (o : RepoOptions) s :
  (setupRepo host (o, s)).1 = Ok tt →
  let branch := default "main" (r_branch o) in
  let shallow := default true (r_shallow o) in
  let target := resolve_target (r_tag o) (r_commit o) branch in
  ∃ pre,
    commands (trace (setupRepo host (o, s)).2.2)
    = commands (trace s) ++ pre
      ++ "git clean -fdxq"
      :: ("git fetch " +:+ (if shallow then "--depth=1 --no-tags" else "--tags")
            +:+ " origin " +:+ fetch_ref target)
      :: (if shallow
          then ["git -c advice.detachedHead=false checkout " +:+ checkout_ref target]
          else ["git checkout " +:+ branch; "git merge FETCH_HEAD"]
                 ++ reset_cmds target).
Proof.
  intros Hok branch shallow target. revert Hok.
  change (wp (setupRepo host)
            (λ r st, r = Ok tt → ∃ pre, commands (trace st.2)
               = commands (trace s) ++ pre
                 ++ "git clean -fdxq"
                 :: ("git fetch " +:+ (if shallow then "--depth=1 --no-tags" else "--tags")
                       +:+ " origin " +:+ fetch_ref target)
                 :: (if shallow
                     then ["git -c advice.detachedHead=false checkout "
                             +:+ checkout_ref target]
                     else ["git checkout " +:+ branch; "git merge FETCH_HEAD"]
                            ++ reset_cmds target)) (o, s)).
  unfold setupRepo.
  apply wp_bind, wp_get_options. apply wp_bind.
  set (o1 := if bool_decide (r_branch o = None) then r_set_branch (Some "main") o else o).
  apply (wp_mono _ (λ r st, r = Ok tt ∧ st = (o1, s))).
  { unfold o1, wp, when. by destruct (bool_decide (r_branch o = None)). }
  intros _ _ [-> ->]. apply wp_bind, wp_get_options. apply wp_bind.
  set (o2 := if bool_decide (r_shallow o1 = None) then r_set_shallow (Some true) o1 else o1).
  apply (wp_mono _ (λ r st, r = Ok tt ∧ st = (o2, s))).
  { unfold o2, wp, when. by destruct (bool_decide (r_shallow o1 = None)). }
  intros _ _ [-> ->]. apply wp_bind, wp_get_options.
  assert (r_commit o2 = r_commit o ∧ r_tag o2 = r_tag o
          ∧ default EmptyString (r_branch o2) = branch
          ∧ default true (r_shallow o2) = shallow
          ∧ r_dir o2 = r_dir o) as (-> & -> & -> & -> & ->).
  { unfold o2, o1, shallow, branch. destruct o as [? ? [] ? ? [] ?]; done. }
  destruct (negb (JS.truthy_opt (r_dir o))); [by apply wp_throw|].
  apply wp_lift, wp_bind.
  eapply wp_stable; [apply grows_probe_existing|].
  intros [needClone|e] s1 [ev1 Hev1]; [|done].
  apply wp_bind.
  apply (wp_mono _ (λ r s2, grows s1 s2)).
  { destruct needClone; [apply grows_sh_|apply grows_refl]. }
  intros [[]|e] s2 [ev2 Hev2]; [|done].
  apply wp_bind, wp_cd. apply wp_bind, wp_sh_commands; [|done].
  intros s3 H3. cbn [trace set_cwd] in H3.
  rewrite fetch_cmd_target. apply wp_bind, wp_sh_commands; [|done].
  intros s4 H4. fold target.
  assert (Hpre : commands (trace s4)
                 = commands (trace s) ++ (commands ev1 ++ commands ev2)
                   ++ ["git clean -fdxq";
                       "git fetch " +:+ (if shallow then "--depth=1 --no-tags" else "--tags")
                         +:+ " origin " +:+ fetch_ref target]).
  { rewrite H4, H3, Hev2, Hev1, !commands_app, <- !app_assoc. done. }
  clear H3 H4 Hev1 Hev2.
  destruct shallow.
  - rewrite shallow_checkout_target. fold target.
    apply wp_sh_commands; [|done]. intros s5 H5 _. cbn [snd].
    exists (commands ev1 ++ commands ev2).
    rewrite H5, Hpre, <- !app_assoc. done.
  - apply wp_bind, wp_sh_commands; [|done]. intros s5 H5.
    apply wp_bind, wp_sh_commands; [|done]. intros s6 H6.
    rewrite (reset_target _ _ branch). fold target.
    destruct target as [t|c|b]; cbn [reset_cmds].
    + apply wp_sh_commands; [|done]. intros s7 H7 _. cbn [snd].
      exists (commands ev1 ++ commands ev2).
      rewrite H7, H6, H5, Hpre, <- !app_assoc. done.
    + apply wp_sh_commands; [|done]. intros s7 H7 _. cbn [snd].
      exists (commands ev1 ++ commands ev2).
      rewrite H7, H6, H5, Hpre, <- !app_assoc. done.
    + apply wp_ret. intros _. cbn [snd].
      exists (commands ev1 ++ commands ev2).
      rewrite H6, H5, Hpre, <- !app_assoc. done.
Qed.


Lemma sh_commands cmd s :
  commands (trace (sh host cmd s).2) = commands (trace s) ++ [cmd].
Proof.
  destruct (sh_spec cmd s) as (r & w' & _ & _ & _ & _ & _ & ->).
  by rewrite commands_app, commands_sh_events.
Qed.

Lemma sh__commands cmd s :
  commands (trace (sh_ host cmd s).2) = commands (trace s) ++ [cmd].
Proof.
  rewrite <- sh_commands. unfold sh_, bind.
  by destruct (sh host cmd s) as [[] ?].
Qed.

(** *** C4: how a string task is dispatched *)

(** A string task that parses as a word with optional flags runs as a
    manifest script through the package manager when the manifest has
    that script, and as a raw shell command otherwise (for a word that
    is not a name every object inherits). *)
Lemma run_task_parsed agent sc task pc s :
  task ≠ EmptyString →
  parseCommand task = Some pc →
  pc_cmd pc ∉ object_prototype_keys →
  let args := pc_cmd pc :: match pc_flags pc with Some f => [f] | None => [] end in
  commands (trace (run_task host agent (Some sc) (TStr task) s).2)
  = commands (trace s)
    ++ match sc !! pc_cmd pc with
       | Some _ =>
           match getCommand host agent "run" args with
           | Ok runTaskWithAgent => [runTaskWithAgent]
           | Throw _ => []
           end
       | None => [task]
       end.
Proof.
  intros Hne Hp Hown args. unfold run_task. rewrite Hp.
  rewrite bool_decide_eq_false_2 by done.
  unfold has_script, bind, ret.
  destruct (sc !! pc_cmd pc) as [x|] eqn:Hsc.
  - rewrite bool_decide_eq_true_2 by eauto. unfold lift_res. fold args.
    destruct (getCommand host agent "run" args) as [c|e].
    + apply sh__commands.
    + simpl. by rewrite app_nil_r.
  - rewrite bool_decide_eq_false_2 by (by intros [[? ?]|?]).
    apply sh__commands.
Qed.

(** C4 (the code departs from it): a string task that does not parse
    as a word with optional flags, such as a multi-word string without
    flags, is not run as a raw shell command.  The loop falls through to
    its last branch and throws the invalid-task error; no command is
    issued. *)
Theorem run_task_unparsed_throws agent scripts task s :
  task ≠ EmptyString →
  parseCommand task = None →
  toCommand host (SOne (TStr task)) agent scripts s
  = (Throw (JsError ("invalid task, expected string or function but got string: "
                     +:+ task)), s).
Proof.
  intros Hne Hp. unfold toCommand, run_tasks, bind, run_task. rewrite Hp.
  by rewrite bool_decide_eq_false_2 by done.
Qed.

(** *** C5: sanitizing the override set *)

Lemma isLocalOverride_spec v s :
  (∀ e, path_like v = true →
        lstat_isDirectory host v (world s) = Throw e → e = HostError "ENOENT") →
  isLocalOverride host v s
  = (Ok (path_like v && existing_directory host (world s) v), s).
Proof.
  intros Hl. unfold isLocalOverride, path_like, existing_directory in *.
  destruct (JS.includes "/" v); simpl; [|done].
  destruct (JS.startsWith "@" v); simpl; [done|].
  destruct (lstat_isDirectory host v (world s)) as [b|e]; [done|].
  rewrite (Hl e) by done. by rewrite bool_decide_eq_true_2.
Qed.

Lemma useFileProtocol_spec v s :
  (∀ e, path_like v = true →
        lstat_isDirectory host v (world s) = Throw e → e = HostError "ENOENT") →
  ∃ v', sanitized_value host (world s) (VStr v) = Some v'
        ∧ useFileProtocol host v s = (Ok v', s).
Proof.
  intros Hl. unfold useFileProtocol, bind. rewrite isLocalOverride_spec by done.
  unfold sanitized_value.
  destruct (path_like v && existing_directory host (world s) v); by eexists.
Qed.

Lemma sanitize_entries_spec (l : list (string * OValue)) s :
  (∀ k v e, (k, VStr v) ∈ l → path_like v = true →
            lstat_isDirectory host v (world s) = Throw e → e = HostError "ENOENT") →
  sanitize_entries host l s
  = (Ok (omap (λ kv, (kv.1,.) <$> sanitized_value host (world s) kv.2) l), s).
Proof.
  induction l as [|[k [v|b]] l IH]; intros Hl; [done| |].
  - cbn [sanitize_entries]. unfold bind.
    destruct (useFileProtocol_spec v s) as (v' & Hv' & ->).
    { intros e. apply (Hl k). left. }
    rewrite IH by (intros k' v0 e Hin; apply (Hl k'); by right).
    cbn [omap list_omap fst snd]. by rewrite Hv'.
  - cbn [sanitize_entries]. rewrite IH; [done|].
    intros k' v0 e Hin. apply (Hl k'). by right.
Qed.

(** C5: the sanitized override set.  Non-string values are dropped; a
    string value that is path-like (it holds a path separator and does
    not start with [@]) and names an existing directory becomes
    [file:] followed by its absolute path; every other string value
    stays as it is.  (An [lstat] failure other than a missing path is
    rethrown by design; the statement is for the runs where none
    occurs.) *)
Theorem sanitize_spec (overrides : Overrides) s :
  (∀ k v e, overrides !! k = Some (VStr v) → path_like v = true →
            lstat_isDirectory host v (world s) = Throw e → e = HostError "ENOENT") →
  ∃ sanitized,
    sanitize host overrides s = (Ok sanitized, s)
    ∧ ∀ k, sanitized !! k = overrides !! k ≫= sanitized_value host (world s).
Proof.
  intros Hl. unfold sanitize, bind.
  rewrite sanitize_entries_spec; last first.
  { intros k v e Hin. apply (Hl k). by apply elem_of_map_to_list. }
  eexists. split; [done|]. intros k.
  set (f := λ kv : string * OValue, (kv.1,.) <$> sanitized_value host (world s) kv.2).
  assert (Hnd : NoDup (omap f (map_to_list overrides)).*1).
  { pose proof (NoDup_fst_map_to_list overrides) as Hnd.
    induction (map_to_list overrides) as [|[k' v'] l IH]; [constructor|].
    cbn in Hnd. apply NoDup_cons in Hnd as [Hk' Hnd].
    cbn [omap list_omap]. unfold f at 1. cbn [fst snd].
    destruct (sanitized_value host (world s) v') as [x|]; cbn; [|by apply IH].
    apply NoDup_cons. split; [|by apply IH].
    intros Hin. apply Hk'. apply list_elem_of_fmap in Hin as [[k2 x2] [-> Hin]].
    apply list_elem_of_omap in Hin as [[k3 v3] [Hin Hf]].
    unfold f in Hf. cbn in Hf.
    destruct (sanitized_value host (world s) v3); simplify_eq/=.
    apply list_elem_of_fmap. by exists (k2, v3). }
  apply option_eq. intros x.
  rewrite <- elem_of_list_to_map by done.
  rewrite list_elem_of_omap, bind_Some. split.
  - intros [[k' v] [Hin Hf]]. unfold f in Hf. cbn in Hf.
    destruct (sanitized_value host (world s) v) as [y|] eqn:Hy; simplify_eq/=.
    exists v. split; [by apply elem_of_map_to_list|done].
  - intros [v [Hk Hv]]. exists (k, v). split; [by apply elem_of_map_to_list|].
    unfold f. cbn. by rewrite Hv.
Qed.


(** *** C6: the manager-specific merge *)


Lemma entry_patch_present name version block k :
  entry (patch_present name version block) k
  = if decide (k = name)
    then match entry block k with
         | Some old => if JS.truthy old then Some version else Some old
         | None => None
         end
    else entry block k.
Proof.
  unfold patch_present, entry. destruct block as [b|]; cbn; [|by case_decide].
  case_decide as Hk.
  - subst k. destruct (b !! name) as [old|] eqn:Hb; cbn; [|by rewrite Hb].
    destruct (JS.truthy old); cbn; [by rewrite lookup_insert_eq|by rewrite Hb].
  - destruct (b !! name) as [old|] eqn:Hb; cbn; [|done].
    destruct (JS.truthy old); cbn; [by rewrite lookup_insert_ne|done].
Qed.




(** *** Bisection: what is added to the trace *)

Global Instance adds_refl P `{!AppClosed P} : Reflexive (@adds W P).
Proof. intros s. exists []. split; [by rewrite app_nil_r|apply app_closed_nil]. Qed.

Global Instance adds_trans P `{!AppClosed P} : Transitive (@adds W P).
Proof.
  intros s1 s2 s3 (a & Ha & HPa) (b & Hb & HPb). exists (a ++ b).
  split; [by rewrite Hb, Ha, app_assoc|by apply app_closed_app].
Qed.

Global Instance watch_idle_closed : AppClosed watch_idle.
Proof.
  split; [done|]. unfold watch_idle, watch. intros a b Ha Hb.
  by rewrite fold_left_app, Ha.
Qed.

Global Instance reset_free_closed : AppClosed reset_free.
Proof.
  split; [done|]. unfold reset_free, no_reset. intros a b Ha Hb.
  by rewrite commands_app, forallb_app, Ha, Hb.
Qed.

Lemma adds_sh P `{!AppClosed P} cmd :
  (∀ s o e r (b : bool),
     P ([announce s cmd; EvExec cmd o e r] ++ (if b then [EvEndGroup] else []))) →
  stable (adds P) (sh host cmd).
Proof.
  intros HP s. destruct (sh_spec cmd s) as (r & w' & _ & _ & _ & _ & _ & Ht).
  eexists. split; [exact Ht|apply HP].
Qed.

Lemma adds_sh_ P `{!AppClosed P} cmd :
  (∀ s o e r (b : bool),
     P ([announce s cmd; EvExec cmd o e r] ++ (if b then [EvEndGroup] else []))) →
  stable (adds P) (sh_ host cmd).
Proof.
  intros HP. unfold sh_. apply stable_bind; [apply _|by apply adds_sh|].
  intros _. apply stable_ret, _.
Qed.

Lemma adds_cd P `{!AppClosed P} d : stable (adds P) (cd host d).
Proof. intros s. exists []. split; [by rewrite app_nil_r|apply app_closed_nil]. Qed.

Lemma adds_get_qwikPath P `{!AppClosed P} : stable (adds P) (@get_qwikPath W).
Proof. intros s. exists []. split; [by rewrite app_nil_r|apply app_closed_nil]. Qed.

Lemma adds_log P `{!AppClosed P} msg :
  P [EvLog msg] → stable (adds P) (log msg : M (State W) unit).
Proof. intros HP s. by exists [EvLog msg]. Qed.

Lemma adds_call {A} P `{!AppClosed P} (f : Callback W A) :
  P [EvCall] → stable (adds P) (call f).
Proof.
  intros HP s. unfold call. destruct (f (world s) (cwd s)) as [[r w'] c].
  by exists [EvCall].
Qed.

Lemma watch_sh_events st s cmd o e r (b : bool) :
  fold_left watch_step
    ([announce s cmd; EvExec cmd o e r] ++ (if b then [EvEndGroup] else [])) st
  = watch_step st (EvExec cmd o e r).
Proof.
  rewrite fold_left_app.
  assert (Hann : watch_step st (announce s cmd) = st).
  { unfold announce. by destruct st, (isGitHubActions s). }
  cbn [fold_left]. rewrite Hann.
  destruct b; [|done]. cbn [fold_left].
  by destruct (watch_step st (EvExec cmd o e r)).
Qed.

Lemma reset_free_sh cmd :
  String.eqb cmd "git bisect reset" = false →
  ∀ s o e r (b : bool),
    reset_free ([announce s cmd; EvExec cmd o e r] ++ (if b then [EvEndGroup] else [])).
Proof.
  intros Hc s o e r b. unfold reset_free, no_reset.
  rewrite commands_sh_events. cbn. by rewrite Hc.
Qed.

Lemma watch_idle_sh cmd :
  String.eqb cmd "git log -1 --format=%s" = false →
  ∀ s o e r (b : bool),
    watch_idle ([announce s cmd; EvExec cmd o e r] ++ (if b then [EvEndGroup] else [])).
Proof.
  intros Hc s o e r b. unfold watch_idle, watch.
  rewrite watch_sh_events. cbn. unfold read_or_idle. by rewrite Hc.
Qed.

Lemma startsWith_app p t :
  JS.startsWith p t = true → ∃ r, t = p +:+ r.
Proof.
  unfold JS.startsWith. revert t. induction p as [|a p IH]; intros t H.
  - by exists t.
  - destruct t as [|b t]; [done|]. cbn in H.
    destruct (ascii_dec a b) as [->|]; [|done].
    destruct (IH t H) as [r ->]. by exists r.
Qed.

(** The subjects with a [release:] or [docs:] prefix are among those the
    loop skips. *)
Lemma named_is_non_code subject :
  named_non_functional subject = true → is_non_code_commit subject = true.
Proof.
  unfold named_non_functional. intros [H|H]%orb_true_iff;
    apply startsWith_app in H as [r ->]; reflexivity.
Qed.

Lemma fold_watch_app a b st :
  fold_left watch_step (a ++ b) st = fold_left watch_step b (fold_left watch_step a st).
Proof. apply fold_left_app. Qed.

Lemma bisect_turn_watch runSuite : stable (adds watch_idle) (bisect_turn host runSuite).
Proof.
  intros s.
  change (wp (bisect_turn host runSuite) (λ _ s', adds watch_idle s s') s).
  unfold bisect_turn. apply wp_bind, wp_sh. intros r w1 s1 _ _ _ _ Ht1.
  destruct r as [msg|e].
  2: { eexists. split; [exact Ht1|]. unfold watch_idle, watch.
       by rewrite watch_sh_events. }
  destruct (is_non_code_commit msg) eqn:Hnc.
  - apply wp_bind. unfold sh_. apply wp_bind, wp_sh. intros r2 w2 s2 _ _ _ _ Ht2.
    assert (adds watch_idle s s2).
    { eexists. split; [rewrite Ht2, Ht1, <- app_assoc; reflexivity|].
      unfold watch_idle, watch. rewrite fold_watch_app, !watch_sh_events.
      cbn. by destruct (named_non_functional msg). }
    destruct r2; [by apply wp_ret, wp_ret|done].
  - assert (Hnamed : named_non_functional msg = false).
    { destruct (named_non_functional msg) eqn:Hn; [|done].
      apply named_is_non_code in Hn. congruence. }
    apply wp_bind, wp_call. intros rp wp0 cp _.
    set (s2 := emit EvCall (set_cwd cp (set_world wp0 s1))).
    assert (H2 : adds watch_idle s s2).
    { eexists. split; [unfold s2; cbn [trace emit set_cwd set_world];
                       rewrite Ht1, <- app_assoc; reflexivity|].
      unfold watch_idle, watch. rewrite fold_watch_app, watch_sh_events.
      cbn. by rewrite Hnamed. }
    destruct rp as [error|e]; [|exact H2].
    eapply wp_stable; [|intros r s3 H3; etrans; [exact H2|exact H3]].
    unfold resetChanges.
    apply stable_bind; [apply _|apply adds_get_qwikPath, _|]. intros qp.
    apply stable_bind; [apply _|apply adds_cd, _|]. intros _.
    apply stable_bind; [apply _|apply adds_sh_; [apply _|by apply watch_idle_sh]|]. intros _.
    apply stable_bind; [apply _| |intros; apply stable_ret, _].
    apply adds_sh; [apply _|]. apply watch_idle_sh. by destruct error.
Qed.

Lemma bisect_turn_reset_free runSuite :
  stable (adds reset_free) (bisect_turn host runSuite).
Proof.
  unfold bisect_turn, resetChanges.
  apply stable_bind; [apply _|apply adds_sh; [apply _|by apply reset_free_sh]|]. intros msg.
  destruct (is_non_code_commit msg).
  - apply stable_bind; [apply _|apply adds_sh_; [apply _|by apply reset_free_sh]|].
    intros; apply stable_ret, _.
  - apply stable_bind; [apply _|apply adds_call; [apply _|done]|]. intros error.
    apply stable_bind; [apply _|apply adds_get_qwikPath, _|]. intros qp.
    apply stable_bind; [apply _|apply adds_cd, _|]. intros _.
    apply stable_bind; [apply _|apply adds_sh_; [apply _|by apply reset_free_sh]|]. intros _.
    apply stable_bind; [apply _| |intros; apply stable_ret, _].
    apply adds_sh; [apply _|]. apply reset_free_sh. by destruct error.
Qed.

Lemma bisect_loop_adds P `{!AppClosed P} runSuite :
  stable (adds P) (bisect_turn host runSuite) →
  ∀ fuel s, adds P s (bisect_loop host fuel runSuite s).2.
Proof.
  intros Hturn fuel. induction fuel as [|fuel IH]; intros s; [reflexivity|].
  cbn [bisect_loop]. specialize (Hturn s).
  destruct (bisect_turn host runSuite s) as [[[]|e] s1]; cbn [snd] in *; try done.
  etrans; [exact Hturn|apply IH].
Qed.

Lemma bisect_try_adds P `{!AppClosed P} runSuite good :
  (∀ cmd, cmd ∈ ["git reset --hard HEAD"; "git bisect start"; "git bisect bad";
                  "git bisect good " +:+ good] →
          ∀ s o e r (b : bool),
            P ([announce s cmd; EvExec cmd o e r] ++ (if b then [EvEndGroup] else []))) →
  stable (adds P) (bisect_turn host runSuite) →
  ∀ fuel s, adds P s (bisect_try host fuel good runSuite s).2.
Proof.
  intros Hcmd Hturn fuel s. unfold bisect_try, resetChanges.
  match goal with |- context [match ?m s with _ => _ end] =>
    assert (Hpre : stable (adds P) m) end.
  { apply stable_bind; [apply _|apply adds_get_qwikPath, _|]. intros qp.
    apply stable_bind; [apply _|apply adds_cd, _|]. intros _.
    apply stable_bind; [apply _|apply adds_sh_; [apply _|apply Hcmd; set_solver]|].
    intros _.
    apply stable_bind; [apply _|apply adds_sh_; [apply _|apply Hcmd; set_solver]|].
    intros _.
    apply stable_bind; [apply _|apply adds_sh_; [apply _|apply Hcmd; set_solver]|].
    intros _. apply adds_sh_; [apply _|apply Hcmd; set_solver]. }
  specialize (Hpre s).
  match goal with |- context [match ?m s with _ => _ end] =>
    destruct (m s) as [[[]|e] s1] end; cbn [snd] in *; [|done].
  etrans; [exact Hpre|by apply bisect_loop_adds].
Qed.

Lemma bisect_cleanup_watch : stable (adds watch_idle) (bisect_cleanup host).
Proof.
  unfold bisect_cleanup. apply stable_try_catch; [apply _| |].
  - apply stable_bind; [apply _|apply adds_get_qwikPath, _|]. intros qp.
    apply stable_bind; [apply _|apply adds_cd, _|]. intros _.
    apply adds_sh_; [apply _|by apply watch_idle_sh].
  - intros _. apply adds_log; [apply _|done].
Qed.

(** C7: a commit whose subject starts with [release:] or [docs:] is
    never handed to the probe.  On every run of the bisection, however
    long, the events added to the trace satisfy the monitor: the probe
    runs only right after a subject line was read that has neither
    prefix, and after a subject with one of them the next command is
    [git bisect skip].  On such a subject a turn of the loop is the two
    commands, log and skip, and the loop goes on. *)
Theorem bisect_skips_non_functional fuel good runSuite s :
  (∃ evs, trace (bisectQwik host fuel good runSuite s).2 = trace s ++ evs
          ∧ probes_guarded evs = true)
  ∧ ∀ subject w',
      execSync host "git log -1 --format=%s"
        {| opt_cwd := cwd s; opt_env := None |} (world s) = (Ok subject, w') →
      named_non_functional subject = true →
      bisect_turn host runSuite s
      = (sh host "git log -1 --format=%s";; sh_ host "git bisect skip";; ret true) s.
Proof.
  split.
  - assert (H : adds watch_idle s (bisectQwik host fuel good runSuite s).2).
    { unfold bisectQwik.
      pose proof (bisect_try_adds watch_idle runSuite good) as Htry.
      specialize (Htry ltac:(intros cmd Hc; apply watch_idle_sh;
        repeat (apply elem_of_cons in Hc as [->|Hc]; [reflexivity|]);
        by apply elem_of_nil in Hc) (bisect_turn_watch runSuite) fuel s).
      destruct (bisect_try host fuel good runSuite s) as [[r|] s1]; cbn [snd] in *;
        [|done].
      match goal with |- adds _ _ (let '(_, _) := ?m s1 in _).2 =>
        assert (Hfin : adds watch_idle s1 (m s1).2); [|destruct (m s1) as [r' s2]] end.
      { unfold try_finally, try_catch, lift_res.
        destruct r as [[]|e].
        - pose proof (bisect_cleanup_watch s1) as Hc.
          by destruct (bisect_cleanup host s1) as [[[]|?] ?].
        - cbn [log modify fst snd].
          pose proof (bisect_cleanup_watch (emit (EvLog "error while bisecting") s1)) as Hc.
          destruct (bisect_cleanup host _) as [[[]|?] s2]; cbn [snd] in *;
            (etrans; [|exact Hc]); by exists [EvLog "error while bisecting"]. }
      cbn [snd] in *. by etrans. }
    destruct H as (evs & Ht & Hw). exists evs. split; [done|].
    unfold probes_guarded. by rewrite Hw.
  - intros subject w' He Hn. apply named_is_non_code in Hn.
    unfold bisect_turn, bind.
    destruct (sh_spec "git log -1 --format=%s" s) as (r & w1 & He' & Hr & _).
    rewrite He in He'. injection He' as <- <-.
    destruct (sh host "git log -1 --format=%s" s) as [r s1]. cbn in Hr. subst r.
    by rewrite Hn.
Qed.


(** *** C8: the cleanup of a bisection *)

Lemma times_run_app cmd a b :
  times_run cmd (a ++ b) = times_run cmd a + times_run cmd b.
Proof. unfold times_run. by rewrite commands_app, filter_app, length_app. Qed.

Lemma times_run_reset_free evs :
  no_reset evs = true → times_run "git bisect reset" evs = 0.
Proof.
  unfold no_reset, times_run. induction (commands evs) as [|c l IH]; [done|].
  cbn [forallb]. intros [Hc Hl]%andb_true_iff. rewrite filter_cons.
  case_decide as Heq; [|by apply IH].
  subst c. by vm_compute in Hc.
Qed.

(** What the [finally] block adds: one reset command after an
    announcement, then the end of the group or, when the reset failed,
    the log line; it never throws. *)
Lemma bisect_cleanup_spec s :
  (bisect_cleanup host s).1 = Ok tt
  ∧ ∃ a o e out post,
      trace (bisect_cleanup host s).2
      = trace s ++ [a; EvExec "git bisect reset" o e out] ++ post
      ∧ commands [a] = []
      ∧ match out with
        | Ok _ => post = [] ∨ post = [EvEndGroup]
        | Throw _ => post = [EvLog "Error while resetting bisect"]
        end.
Proof.
  change (wp (bisect_cleanup host)
            (λ r s', r = Ok tt ∧ ∃ a o e out post,
               trace s' = trace s ++ [a; EvExec "git bisect reset" o e out] ++ post
               ∧ commands [a] = []
               ∧ match out with
                 | Ok _ => post = [] ∨ post = [EvEndGroup]
                 | Throw _ => post = [EvLog "Error while resetting bisect"]
                 end) s).
  unfold bisect_cleanup. apply wp_try_catch.
  apply wp_bind, wp_get_qwikPath. apply wp_bind, wp_cd.
  unfold sh_. apply wp_bind, wp_sh. intros r w1 s1 _ _ _ _ Ht.
  cbn [trace set_cwd] in Ht.
  assert (Ha : ∀ s0 c, commands [announce s0 c] = []).
  { intros s0 c. unfold announce. by destruct (isGitHubActions s0). }
  destruct r as [out|err].
  - apply wp_ret. split; [done|]. do 5 eexists. split; [exact Ht|].
    split; [apply Ha|]. cbn [is_ok andb]. destruct (isGitHubActions _); eauto.
  - apply wp_log. split; [done|].
    eexists _, _, _, (Throw err), [EvLog "Error while resetting bisect"].
    split; [|split; [apply Ha|reflexivity]].
    cbn [trace emit]. rewrite Ht. cbn [is_ok andb]. by rewrite <- !app_assoc.
Qed.

(** Once the [try] block is left, [bisectQwik] returns normally after
    one reset. *)
Lemma bisectQwik_ends fuel good runSuite s r s' :
  bisectQwik host fuel good runSuite s = (Some r, s') →
  r = Ok tt
  ∧ times_run "git bisect reset" (trace s')
    = S (times_run "git bisect reset" (trace s))
  ∧ ∃ pre a o e out post,
      trace s' = trace s ++ pre ++ [a; EvExec "git bisect reset" o e out] ++ post
      ∧ no_reset pre = true
      ∧ commands [a] = []
      ∧ match out with
        | Ok _ => post = [] ∨ post = [EvEndGroup]
        | Throw _ => post = [EvLog "Error while resetting bisect"]
        end.
Proof.
  unfold bisectQwik. intros Hrun.
  pose proof (bisect_try_adds reset_free runSuite good) as Htry.
  specialize (Htry ltac:(intros cmd Hc; apply reset_free_sh;
    repeat (apply elem_of_cons in Hc as [->|Hc]; [reflexivity|]);
    by apply elem_of_nil in Hc) (bisect_turn_reset_free runSuite) fuel s).
  destruct (bisect_try host fuel good runSuite s) as [[r0|] s1]; cbn [snd] in *;
    [|done].
  assert (Hmid : ∃ s2, adds reset_free s s2
                       ∧ (r, s') = bisect_cleanup host s2).
  { unfold try_finally, try_catch, lift_res in Hrun. destruct r0 as [[]|err].
    - exists s1. split; [done|].
      pose proof (bisect_cleanup_spec s1) as [Hok _].
      destruct (bisect_cleanup host s1) as [[[]|?] ?]; cbn in *; congruence.
    - exists (emit (EvLog "error while bisecting") s1). split.
      + etrans; [exact Htry|]. by exists [EvLog "error while bisecting"].
      + cbn [log modify] in Hrun.
        pose proof (bisect_cleanup_spec (emit (EvLog "error while bisecting") s1))
          as [Hok _].
        destruct (bisect_cleanup host _) as [[[]|?] ?]; cbn in *; congruence. }
  destruct Hmid as (s2 & (pre & Hpre & Hfree) & Hfin).
  destruct (bisect_cleanup_spec s2) as (Hok & a & o & e & out & post & Ht & Ha & Hpost).
  rewrite <- Hfin in Hok, Ht. cbn [fst snd] in Hok, Ht.
  assert (Hdec : trace s' = trace s ++ pre
                            ++ [a; EvExec "git bisect reset" o e out] ++ post).
  { by rewrite Ht, Hpre, <- app_assoc. }
  split; [done|]. split.
  - rewrite Hdec, times_run_app, times_run_app, (times_run_reset_free pre Hfree).
    assert (Hone : times_run "git bisect reset"
                     ([a; EvExec "git bisect reset" o e out] ++ post) = 1).
    { unfold times_run. rewrite commands_app.
      change [a; ?x] with ([a] ++ [x]). rewrite commands_app, Ha.
      destruct out; [destruct Hpost as [-> | ->]|subst post]; reflexivity. }
    rewrite Hone. lia.
  - by exists pre, a, o, e, out, post.
Qed.


(** More fuel does not change a bisection that has ended. *)
Lemma bisect_loop_more_fuel fuel k runSuite s r s' :
  bisect_loop host fuel runSuite s = (Some r, s') →
  bisect_loop host (fuel + k) runSuite s = (Some r, s').
Proof.
  revert s. induction fuel as [|fuel IH]; intros s; [done|].
  cbn [bisect_loop Nat.add].
  destruct (bisect_turn host runSuite s) as [[[]|e] s1]; [apply IH|done..].
Qed.

Lemma bisectQwik_more_fuel fuel k good runSuite s r s' :
  bisectQwik host fuel good runSuite s = (Some r, s') →
  bisectQwik host (fuel + k) good runSuite s = (Some r, s').
Proof.
  unfold bisectQwik, bisect_try.
  match goal with |- context [match ?m s with _ => _ end] =>
    destruct (m s) as [[[]|e] s1] end; [|done].
  destruct (bisect_loop host fuel runSuite s1) as [[r0|] s2] eqn:Hloop; [|done].
  by rewrite (bisect_loop_more_fuel _ k _ _ _ _ Hloop).
Qed.

(** C8: on every execution of [bisectQwik], as soon as the [try] block
    is left, by the loop completing or by an exception raised inside
    it, the session reset runs exactly once and is the last command of
    the run; a failure of the reset is followed by its log line and is
    not propagated: the function returns normally.  (While the loop is
    still bisecting, after [fuel] turns, nothing has been reset.) *)
Theorem bisectQwik_resets_once fuel good runSuite s :
  match (bisect_try host fuel good runSuite s).1 with
  | None => (bisectQwik host fuel good runSuite s).1 = None
  | Some _ =>
      let s' := (bisectQwik host fuel good runSuite s).2 in
      (bisectQwik host fuel good runSuite s).1 = Some (Ok tt)
      ∧ times_run "git bisect reset" (trace s')
        = S (times_run "git bisect reset" (trace s))
      ∧ ∃ pre a o e out post,
          trace s' = trace s ++ pre ++ [a; EvExec "git bisect reset" o e out] ++ post
          ∧ no_reset pre = true
          ∧ commands [a] = []
          ∧ match out with
            | Ok _ => post = [] ∨ post = [EvEndGroup]
            | Throw _ => post = [EvLog "Error while resetting bisect"]
            end
  end.
Proof.
  destruct (bisect_try host fuel good runSuite s) as [[r0|] s1] eqn:Htry; cbn [fst].
  - assert (∃ r s', bisectQwik host fuel good runSuite s = (Some r, s'))
      as (r & s' & Hrun).
    { unfold bisectQwik. rewrite Htry.
      destruct (try_finally _ _ s1) as [r s']. eauto. }
    destruct (bisectQwik_ends _ _ _ _ _ _ Hrun) as (-> & Htimes & Hdec).
    rewrite Hrun. cbn [fst snd]. done.
  - unfold bisectQwik. by rewrite Htry.
Qed.

(** *** The suite runner: what it writes, what it assigns *)

Ltac keeps_writes :=
  repeat first
    [ apply keeps_sh_; [apply quiet_writes|apply blind_writes]
    | apply keeps_sh; [apply quiet_writes|apply blind_writes]
    | apply keeps_cd
    | apply keeps_call, quiet_writes
    | apply stable_ret, _
    | apply stable_throw, _
    | apply stable_lift_res, _
    | apply stable_when; [apply _|]
    | apply stable_try_catch; [apply _| |intros ?]
    | apply stable_bind; [apply _| |intros ?]
    | match goal with
      | |- stable _ (if ?b then _ else _) => destruct b
      | |- stable _ (match ?x with _ => _ end) => destruct x
      | |- stable _ (JS.cond ?x _ _) => unfold JS.cond
      end ].

Lemma keeps_writes_run_task agent scripts (t : Task W) :
  stable (keeps writes) (run_task host agent scripts t).
Proof. unfold run_task, has_script. keeps_writes. Qed.

Lemma keeps_writes_toCommand (t : Slot W) agent scripts :
  stable (keeps writes) (toCommand host t agent scripts).
Proof.
  assert (Hl : ∀ ts, stable (keeps writes) (run_tasks host agent scripts ts)).
  { induction ts as [|t' ts IH]; [apply stable_ret, _|].
    cbn [run_tasks]. apply stable_bind; [apply _|apply keeps_writes_run_task|].
    intros _. apply IH. }
  destruct t; cbn [toCommand]; [apply stable_ret, _|apply Hl..].
Qed.

Lemma keeps_writes_probe_existing repo dir :
  stable (keeps writes) (probe_existing host repo dir).
Proof.
  unfold probe_existing.
  apply stable_bind; [apply _|by intros s|]. intros [].
  - apply stable_bind; [apply _|by intros s|]. intros c.
    apply stable_bind; [apply _|apply keeps_cd|]. intros _.
    apply stable_bind; [apply _| |].
    + keeps_writes.
    + intros cur. apply stable_bind; [apply _|apply keeps_cd|]. intros _.
      case_bool_decide; [apply stable_ret, _|].
      apply stable_bind; [apply _| |intros; apply stable_ret, _].
      intros s. unfold fs_rm, keeps. destruct (rmSync host dir (world s)).
      cbn. rewrite writes_app. cbn. by rewrite app_nil_r.
  - apply stable_ret, _.
Qed.

Lemma keeps_writes_setupRepo (ro : RepoOptions) :
  stable (keeps writes) (call_with ro (setupRepo host)).
Proof.
  intros s. unfold call_with.
  assert (H : wp (setupRepo host) (λ _ st, keeps writes s st.2) (ro, s)).
  { unfold setupRepo.
    apply wp_bind, wp_get_options. apply wp_bind.
    apply (wp_mono _ (λ r st, st.2 = s)).
    { unfold wp, when. by destruct (bool_decide _). }
    intros [[]|e] [o1 ?] [= ->]; [|done].
    apply wp_bind, wp_get_options. apply wp_bind.
    apply (wp_mono _ (λ r st, st.2 = s)).
    { unfold wp, when. by destruct (bool_decide _). }
    intros [[]|e] [o2 ?] [= ->]; [|done].
    apply wp_bind, wp_get_options.
    destruct (negb _); [by apply wp_throw|].
    apply wp_lift. eapply wp_stable; [|intros r s1 Hk; exact Hk].
    apply stable_bind; [apply _|apply keeps_writes_probe_existing|]. intros b.
    keeps_writes. }
  unfold wp in H. by destruct (setupRepo host (ro, s)) as [r [o' s']].
Qed.


Lemma set_verify_eta (o : Options W) : set_verify (o_verify o) o = o.
Proof. by destruct o. Qed.

Lemma set_skipGit_eta (o : Options W) : set_skipGit (o_skipGit o) o = o.
Proof. by destruct o. Qed.

Lemma set_branch_eta (o : Options W) : set_branch (o_branch o) o = o.
Proof. by destruct o. Qed.

Lemma set_agent_eta (o : Options W) : set_agent (o_agent o) o = o.
Proof. by destruct o. Qed.

Lemma set_agent_with_defaults (o : Options W) :
  set_agent (o_agent o) (with_defaults o) = with_defaults o.
Proof. by destruct o. Qed.

Lemma wp_default_verify (o : Options W) s (Q : Res unit → Options W * State W → Prop) :
  Q (Ok tt) (set_verify (Some (default true (o_verify o))) o, s) →
  wp (when (bool_decide (o_verify o = None)) (update_options (set_verify (Some true))))
     Q (o, s).
Proof.
  intros HQ. destruct (o_verify o) as [v|] eqn:Hv; cbn in HQ.
  - rewrite <- Hv, set_verify_eta in HQ. by rewrite bool_decide_eq_false_2.
  - by rewrite bool_decide_eq_true_2.
Qed.

Lemma wp_default_skipGit (o : Options W) s (Q : Res unit → Options W * State W → Prop) :
  Q (Ok tt) (set_skipGit (Some (default false (o_skipGit o))) o, s) →
  wp (when (bool_decide (o_skipGit o = None)) (update_options (set_skipGit (Some false))))
     Q (o, s).
Proof.
  intros HQ. destruct (o_skipGit o) as [v|] eqn:Hv; cbn in HQ.
  - rewrite <- Hv, set_skipGit_eta in HQ. by rewrite bool_decide_eq_false_2.
  - by rewrite bool_decide_eq_true_2.
Qed.

Lemma wp_default_branch (o : Options W) s (Q : Res unit → Options W * State W → Prop) :
  Q (Ok tt) (set_branch (Some (default "main" (o_branch o))) o, s) →
  wp (when (bool_decide (o_branch o = None)) (update_options (set_branch (Some "main"))))
     Q (o, s).
Proof.
  intros HQ. destruct (o_branch o) as [v|] eqn:Hv; cbn in HQ.
  - rewrite <- Hv, set_branch_eta in HQ. by rewrite bool_decide_eq_false_2.
  - by rewrite bool_decide_eq_true_2.
Qed.

Lemma wp_get_options_eq {O} (Q : Res O → O * State W → Prop) (o : O) s :
  (∀ options, options = o → Q (Ok options) (o, s)) → wp get_options Q (o, s).
Proof. intros HQ. by apply HQ. Qed.

Global Instance same_options_refl {O} : Reflexive (@same_options O W).
Proof. by intros st. Qed.

Global Instance same_options_trans {O} : Transitive (@same_options O W).
Proof. intros a b c H1 H2. unfold same_options in *. congruence. Qed.

Lemma same_options_lift {O A} (m : M (State W) A) :
  stable (@same_options O W) (lift m).
Proof. intros [o s]. unfold same_options, lift. by destruct (m s). Qed.

Lemma wp_detect_agent d (Q : Res (option string) → State W → Prop) s :
  Q (Ok (detect host d (world s))) s → wp (detect_agent host d) Q s.
Proof. done. Qed.

Lemma wp_fs_read f (Q : Res string → State W → Prop) s :
  Q (readFile host f (world s)) s → wp (fs_read host f) Q s.
Proof. done. Qed.

Lemma wp_get_world (Q : Res W → State W → Prop) s :
  Q (Ok (world s)) s → wp get_world Q s.
Proof. done. Qed.

Lemma runInRepo_outcome (o : Options W) s : wp (runInRepo host) (run_post o s) (o, s).
Proof.
  unfold runInRepo.
  apply wp_bind, wp_get_options. apply wp_bind, wp_default_verify.
  apply wp_bind, wp_get_options. apply wp_bind, wp_default_skipGit.
  apply wp_bind, wp_get_options. apply wp_bind, wp_default_branch.
  change (set_branch _ _) with (with_defaults o).
  apply wp_bind, wp_get_options_eq. intros options Hopt.
  assert (Hag : o_agent options = o_agent o) by by subst options.
  assert (Hrel : o_release options = o_release o) by by subst options.
  assert (Hqp : o_qwikPath options = o_qwikPath o) by by subst options.
  assert (Hov : o_overrides options = o_overrides o) by by subst options.
  assert (Hstop : ∀ r s', is_ok r = false → keeps writes s s' →
            run_post o s r (with_defaults o, s')).
  { intros r s' Hr Hk. exists (o_agent o). split; [by left|]. left.
    split; [done|]. split; [|done]. cbn [fst].
    rewrite <- (set_agent_eta (with_defaults o)) at 1. done. }
  apply wp_bind, wp_lift, wp_get_world.
  set (dir := path_resolve host (world s) _).
  apply wp_bind.
  apply (wp_mono _ (λ r st, st.1 = with_defaults o ∧ keeps writes s st.2)).
  { destruct (negb _); apply wp_lift.
    - eapply wp_stable; [apply keeps_writes_setupRepo|]. by intros.
    - by apply wp_cd. }
  intros [[]|e] [o' s1] [Ho' Hk1]; cbn [fst snd] in *; subst o'; [|by apply Hstop].
  apply wp_bind.
  apply (wp_mono _ (λ r st, ∃ ag, (ag = o_agent o ∨ o_agent o = None ∧ is_Some ag)
                            ∧ st.1 = set_agent ag (with_defaults o)
                            ∧ keeps writes s st.2)).
  { rewrite Hag. destruct (o_agent o) as [a|] eqn:Ha.
    - rewrite bool_decide_eq_false_2 by done. apply wp_ret.
      exists (Some a). split; [by left|]. split; [|done]. cbn [fst].
      by rewrite <- Ha, set_agent_with_defaults.
    - rewrite bool_decide_eq_true_2 by done.
      apply wp_bind, wp_lift, wp_detect_agent.
      destruct (detect host dir (world s1)) as [a|].
      + apply wp_update_options. exists (Some a). split; [right; eauto|done].
      + apply wp_throw. exists None. split; [by left|]. split; [|done]. cbn [fst].
        by rewrite <- Ha, set_agent_with_defaults. }
  intros r [o4 s2] (ag & Hagent & Ho4 & Hk2). cbn [fst snd] in *.
  assert (Hstop4 : ∀ (r : Res string) s', is_ok r = false → keeps writes s s' →
            run_post o s r (o4, s')).
  { intros r' s' Hr Hk. exists ag. split; [done|]. left. by subst o4. }
  destruct r as [[]|e]; [|by apply Hstop4].
  clear Hstop. apply wp_bind, wp_get_options_eq. intros options0 Hopt0.
  assert (Hrel0 : o_release options0 = o_release o) by by subst options0 o4.
  assert (Hqp0 : o_qwikPath options0 = o_qwikPath o) by by subst options0 o4.
  assert (Hov0 : o_overrides options0 = o_overrides o) by by subst options0 o4.
  set (agent := default EmptyString (o_agent options0)).
  destruct (negb _); [by apply wp_throw, Hstop4|].
  apply wp_bind, wp_lift, wp_fs_read.
  destruct (readFile host _ (world s2)) as [text|e]; [|by apply Hstop4].
  apply wp_bind, wp_lift_res.
  destruct (JSON_parse host text) as [pkg|e]; [|by apply Hstop4].
  apply wp_bind, wp_lift.
  eapply wp_stable; [apply keeps_writes_toCommand|]. intros r s3 Hk3.
  assert (Hk3' : keeps writes s s3) by (by etrans).
  destruct r as [[]|e]; [|by apply Hstop4].
  apply wp_bind.
  apply (wp_mono _ (λ r st, st.1 = o4 ∧ keeps writes s st.2)).
  { destruct (_ && _).
    - apply wp_lift. eapply wp_stable; [|intros r s4 Hk4; split; [done|by etrans]].
      apply stable_bind; [apply _|apply stable_lift_res, _|]. intros c.
      repeat first
        [ apply keeps_writes_toCommand
        | apply keeps_sh_; [apply quiet_writes|apply blind_writes]
        | apply stable_bind; [apply _| |intros ?] ].
    - by apply wp_ret. }
  intros r [o4' s4] [Ho4' Hk4]. cbn [fst snd] in *. subst o4'.
  destruct r as [[]|e]; [|by apply Hstop4].
  apply wp_bind, wp_lift_res. rewrite Hrel0, Hqp0, Hov0.
  destruct (resolve_overrides _ _ _) as [ov'|e] eqn:Hres; [|by apply Hstop4].
  apply wp_bind, wp_update_options.
  set (o5 := match o_overrides o4 with Some _ => _ | None => _ end).
  eapply (wp_stable same_options).
  - repeat first
      [ apply same_options_lift
      | apply stable_ret, _
      | apply stable_bind; [apply _| |intros ?]
      | match goal with |- stable _ (if ?b then _ else _) => destruct b end ].
  - intros r [o6 s6] Ho6. unfold same_options in Ho6. cbn [fst] in Ho6. subst o6.
    exists ag. split; [done|]. right. exists ov'. split; [done|]. cbn [fst].
    unfold o5. subst o4. reflexivity.
Qed.


(** *** C2: an explicit release against an explicit override *)

Lemma resolve_overrides_release release qwikPath (ov : Overrides) v :
  JS.truthy release = true →
  ov !! "vite" = Some v →
  ovalue_truthy v = true →
  resolve_overrides (Some release) qwikPath ov
  = if bool_decide (v = VStr release) then Ok ov
    else Throw (JsError ("conflicting overrides.vite=" +:+ ovalue_to_string v
                         +:+ " and --release=" +:+ release
                         +:+ " config. Use either one or the other")).
Proof.
  intros Hr Hv Ht. unfold resolve_overrides, JS.cond. rewrite Hr, Hv, Ht.
  case_bool_decide as Heq; cbn [negb andb]; [|done].
  subst v. by rewrite insert_id.
Qed.

(** The test the block makes is between the release and the key
    [vite] of the overrides.  With an explicit (truthy) value under
    that key, the run fails with the conflict error exactly when the two
    differ; with equal values the overrides are accepted as they are;
    and on a conflict the run ends with an exception before any
    override is applied: no manifest is written and the caller's
    overrides object is untouched. *)
Lemma release_override_conflict (o : Options W) s release v (ov : Overrides) :
  o_release o = Some release →
  JS.truthy release = true →
  o_overrides o = Some ov →
  ov !! "vite" = Some v →
  ovalue_truthy v = true →
  (is_ok (resolve_overrides (o_release o) (o_qwikPath o) ov) = false ↔ v ≠ VStr release)
  ∧ (v = VStr release →
     resolve_overrides (o_release o) (o_qwikPath o) ov = Ok ov)
  ∧ (v ≠ VStr release →
     resolve_overrides (o_release o) (o_qwikPath o) ov
     = Throw (JsError ("conflicting overrides.vite=" +:+ ovalue_to_string v
                       +:+ " and --release=" +:+ release
                       +:+ " config. Use either one or the other"))
     ∧ is_ok (runInRepo host (o, s)).1 = false
     ∧ writes (trace (runInRepo host (o, s)).2.2) = writes (trace s)
     ∧ o_overrides (runInRepo host (o, s)).2.1 = Some ov).
Proof.
  intros Hrel Hr Hov Hv Ht.
  rewrite Hrel, (resolve_overrides_release _ _ _ _ Hr Hv Ht).
  split_and!.
  - case_bool_decide; cbn; split; congruence.
  - intros ->. by rewrite bool_decide_eq_true_2.
  - intros Hne. rewrite bool_decide_eq_false_2 by done. split; [done|].
    pose proof (runInRepo_outcome o s) as (ag & _ & [(Hfail & Ho' & Hk)|(ov' & Hres & _)]).
    + split; [done|]. split; [exact Hk|]. rewrite Ho'. exact Hov.
    + rewrite Hov, Hrel in Hres. cbn [default] in Hres.
      rewrite (resolve_overrides_release _ _ _ _ Hr Hv Ht) in Hres.
      by rewrite bool_decide_eq_false_2 in Hres.
Qed.

(** C2 (the code departs from it): the release is a release of the
    core library, but the conflict test of the block reads the key
    [vite] of the overrides, and it is that key the release is written
    to.  An explicit override of the core package [@builder.io/qwik]
    that differs from the release raises no configuration error: the
    block accepts the overrides, the differing override stays in
    place beside the release, and a run that returns, or that gets as
    far as writing a manifest, has applied exactly these. *)
Theorem release_ignores_core_override (o : Options W) s release v (ov : Overrides) :
  o_release o = Some release →
  JS.truthy release = true →
  o_overrides o = Some ov →
  ov !! "@builder.io/qwik" = Some v →
  ovalue_truthy v = true →
  v ≠ VStr release →
  ov !! "vite" = None →
  let ov' : Overrides := <["vite" := VStr release]> ov in
  resolve_overrides (o_release o) (o_qwikPath o) ov = Ok ov'
  ∧ ov' !! "@builder.io/qwik" = Some v
  ∧ (is_ok (runInRepo host (o, s)).1 = true
     ∨ writes (trace (runInRepo host (o, s)).2.2) ≠ writes (trace s) →
     o_overrides (runInRepo host (o, s)).2.1 = Some ov').
Proof.
  intros Hrel Hr Hov Hq Ht Hne Hvite ov'.
  assert (Hres : resolve_overrides (o_release o) (o_qwikPath o) ov = Ok ov').
  { rewrite Hrel. unfold resolve_overrides, JS.cond. by rewrite Hr, Hvite. }
  split; [exact Hres|]. split.
  { unfold ov'. by rewrite lookup_insert_ne. }
  intros Hrun.
  pose proof (runInRepo_outcome o s) as (ag & _ & [(Hfail & _ & Hk)|(ov1 & Hres1 & Ho)]).
  - destruct Hrun as [Hok|Hw]; [congruence|]. by destruct Hw.
  - rewrite Hov in Hres1, Ho. cbn [default from_option id] in Hres1.
    rewrite Hres in Hres1. injection Hres1 as <-. by rewrite Ho.
Qed.

(** *** C10: what the callee assigns to the options object *)





End Properties.


(** * More of the program *)

Section Coverage.
Context {W : Type} (host : Host W).
Context (exn_text : Exn → string).
Context (readdirSync : string → W → Res (list string)).
Implicit Types (s : State W) (cmd : string).

(** *** Strings *)

Lemma append_cons c (a b : string) : String c a +:+ b = String c (a +:+ b).
Proof. reflexivity. Qed.

Lemma append_nil_l (b : string) : EmptyString +:+ b = b.
Proof. reflexivity. Qed.

Lemma append_nil_r (a : string) : a +:+ EmptyString = a.
Proof. induction a as [|c a IH]; [done|]. by rewrite append_cons, IH. Qed.

Lemma span_spec p (t a b : string) :
  JS.span p t = (a, b) →
  t = a +:+ b ∧ JS.all p a = true
  ∧ match b with String c _ => p c = false | EmptyString => True end.
Proof.
  revert a b. induction t as [|c t IH]; intros a b; cbn [JS.span].
  - by intros [= <- <-].
  - destruct (p c) eqn:Hc.
    + destruct (JS.span p t) as [a' b'] eqn:Hs. intros [= <- <-].
      destruct (IH _ _ eq_refl) as (-> & Ha & Hb).
      rewrite append_cons. cbn [JS.all]. by rewrite Hc, Ha.
    + intros [= <- <-]. by rewrite append_nil_l.
Qed.

Lemma span_app p (a b : string) :
  JS.all p a = true →
  match b with String c _ => p c = false | EmptyString => True end →
  JS.span p (a +:+ b) = (a, b).
Proof.
  intros Ha Hb. induction a as [|c a IH].
  - rewrite append_nil_l. destruct b as [|c b]; [done|]. cbn [JS.span]. by rewrite Hb.
  - cbn [JS.all] in Ha. apply andb_prop in Ha as [Hc Ha].
    rewrite append_cons. cbn [JS.span]. by rewrite Hc, IH.
Qed.

Lemma word_not_space c : JS.is_word c = true → JS.is_space c = false.
Proof. destruct c as [[] [] [] [] [] [] [] []]; by vm_compute. Qed.

(** *** The task parser *)

(** X1: [parseCommand] accepts exactly the trimmed commands that are
    one word, or one word, white space, and a flags part that starts
    with two dashes, has at least three characters and no line break;
    it returns the word and the flags part. *)
Theorem parseCommand_spec command pc :
  parseCommand command = Some pc ↔ command_shape (JS.trim command) pc.
Proof.
  unfold parseCommand, command_shape. split.
  - destruct (JS.span JS.is_word (JS.trim command)) as [w rest] eqn:Hw.
    apply span_spec in Hw as (Ht & Hall & Hrest).
    assert (Hne : ∀ x, JS.truthy x = true → x ≠ EmptyString).
    { by intros [|] ?. }
    destruct rest as [|c rest].
    + destruct (JS.truthy w) eqn:Htw; [|done]. intros [= <-]. cbn.
      split_and!; [by apply Hne|done|]. by rewrite Ht, append_nil_r.
    + destruct (JS.span JS.is_space (String c rest)) as [sp flags] eqn:Hsp.
      apply span_spec in Hsp as (Hr & Hsall & _).
      destruct (_ && _) eqn:Hc; [|done]. intros [= <-]. cbn.
      repeat (apply andb_prop in Hc as [Hc ?]).
      split_and!; [by apply Hne|done|].
      exists sp. split_and!; try done.
      * by apply Hne.
      * by rewrite Ht, Hr.
      * by apply Nat.leb_le.
  - destruct pc as [w [flags|]]; cbn.
    + intros (Hne & Hall & sp & Hsp & Hsall & -> & Hst & Hlen & Hnl).
      assert (Htw : ∀ x, x ≠ EmptyString → JS.truthy x = true).
      { by intros [|]. }
      rewrite (span_app _ w (sp +:+ flags)); [|done|].
      2:{ destruct sp as [|c sp]; [done|]. rewrite append_cons.
          cbn [JS.all] in Hsall. apply andb_prop in Hsall as [Hc _].
          destruct (JS.is_word c) eqn:Hwc; [|done].
          apply word_not_space in Hwc. congruence. }
      destruct (sp +:+ flags) as [|c rest] eqn:Hrest.
      { destruct sp; [done|discriminate Hrest]. }
      rewrite <- Hrest. rewrite (span_app _ sp flags); [|done|].
      2:{ destruct flags as [|c1 flags]; [done|].
          unfold JS.startsWith in Hst. cbn [String.prefix] in Hst.
          destruct (Ascii.ascii_dec _ c1) as [<-|]; [done|discriminate Hst]. }
      rewrite (Htw sp), (Htw w), Hst, Hnl by done.
      by destruct (String.length flags) as [|[|[|n]]]; [lia..|].
    + intros (Hne & Hall & ->).
      rewrite <- (append_nil_r w) at 1.
      assert (H := span_app JS.is_word w EmptyString Hall I).
      destruct (JS.span _ _) as [a b]. injection H as -> ->.
      by destruct w.
Qed.

(** *** Command scripts *)

Lemma quiet_commands : quiet commands.
Proof. intros tr []; try done; rewrite commands_app; simpl; by rewrite app_nil_r. Qed.

Lemma ran_throw {A} script s e s' :
  commands (trace s') = commands (trace s) → ran script s (Throw e : Res A) s'.
Proof.
  intros H. exists []. rewrite app_nil_r. split_and!; [done|apply prefix_nil|done].
Qed.

Lemma ran_nil {A} s (r : Res A) s' :
  commands (trace s') = commands (trace s) → ran [] s r s'.
Proof. intros H. exists []. by rewrite app_nil_r. Qed.

Lemma ran_seq {A B} l1 l2 s (a : A) s1 (r : Res B) s2 :
  ran l1 s (Ok a) s1 → ran l2 s1 r s2 → ran (l1 ++ l2) s r s2.
Proof.
  intros (d1 & H1 & P1 & E1) (d2 & H2 & P2 & E2). rewrite (E1 eq_refl) in H1.
  exists (l1 ++ d2). rewrite H2, H1, app_assoc.
  split_and!; [done|by apply prefix_app|]. intros Hr. by rewrite E2.
Qed.

Lemma ran_stop {A B} l1 l2 s e s1 :
  ran l1 s (Throw e : Res A) s1 → ran (l1 ++ l2) s (Throw e : Res B) s1.
Proof.
  intros (d & H & P & _). exists d. split_and!; [done|by apply prefix_app_r|done].
Qed.

Lemma ran_from {A} l s s0 (r : Res A) s' :
  commands (trace s0) = commands (trace s) → ran l s0 r s' → ran l s r s'.
Proof. intros H (d & Hd & P & E). exists d. by rewrite <- H. Qed.

Lemma wp_ran_bind {A B} (m : M (State W) A) (f : A → M (State W) B) l1 l2 s :
  wp m (ran l1 s) s →
  (∀ a s1, wp (f a) (ran l2 s1) s1) →
  wp (bind m f) (ran (l1 ++ l2) s) s.
Proof.
  intros Hm Hf. apply wp_bind. eapply wp_mono; [exact Hm|].
  intros [a|e] s1 H; [|by apply (ran_stop (A := A))].
  eapply wp_mono; [apply Hf|]. intros r s2 H2. by eapply ran_seq.
Qed.

Lemma wp_ran_sh cmd s : wp (sh host cmd) (ran [cmd] s) s.
Proof.
  apply wp_sh. intros r w' s1 _ _ _ _ Ht. exists [cmd].
  by rewrite Ht, commands_app, commands_sh_events.
Qed.

Lemma wp_ran_sh_ cmd s : wp (sh_ host cmd) (ran [cmd] s) s.
Proof.
  unfold sh_. apply wp_bind. eapply wp_mono; [apply wp_ran_sh|].
  intros [out|e] s1 H; [|done]. apply wp_ret.
  destruct H as (d & ? & ? & E). exists d. split_and!; [done..|]. intros _. by apply E.
Qed.

(** *** Dispatching tasks *)

(** X2: a string task that parses as a script name with optional flags
    runs once: through the package manager's [run] when the manifest
    has a script of that name (the name and the flags are the
    arguments), and as the raw, untrimmed string otherwise.  Nothing
    runs when the package manager has no such command.  (The names
    that every object inherits are left out: the manifest's scripts
    are read with [scripts[name]].) *)
Theorem toCommand_string_task agent sc task pc s :
  parseCommand task = Some pc →
  pc_cmd pc ∉ object_prototype_keys →
  let args := pc_cmd pc :: match pc_flags pc with Some f => [f] | None => [] end in
  wp (toCommand host (SOne (TStr task)) agent (Some sc))
     (ran match sc !! pc_cmd pc with
          | Some _ =>
              match getCommand host agent "run" args with
              | Ok runTaskWithAgent => [runTaskWithAgent]
              | Throw _ => []
              end
          | None => [task]
          end s) s.
Proof.
  intros Hp Hown args. cbn [toCommand run_tasks].
  rewrite <- (app_nil_r (match sc !! _ with Some _ => _ | None => _ end)).
  apply wp_ran_bind; [|intros; by apply wp_ret, ran_nil].
  unfold run_task. rewrite Hp.
  assert (task ≠ EmptyString) by (intros ->; discriminate Hp).
  rewrite bool_decide_eq_false_2 by done.
  unfold has_script. apply wp_bind, wp_ret.
  destruct (sc !! pc_cmd pc) as [x|] eqn:Hsc.
  - rewrite bool_decide_eq_true_2 by eauto. fold args.
    apply wp_bind, wp_lift_res.
    destruct (getCommand host agent "run" args) as [c|e].
    + apply wp_ran_sh_.
    + by apply ran_throw.
  - rewrite bool_decide_eq_false_2 by (by intros [[? ?]|?]). apply wp_ran_sh_.
Qed.

(** X3: an object task [{ script, args }] runs its script through the
    package manager's [run] with the arguments appended; when the
    manifest has no such script it throws and nothing runs.  (The
    names that every object inherits are left out, as above.) *)
Theorem toCommand_script_reference agent sc script args s :
  JS.truthy script = true →
  script ∉ object_prototype_keys →
  match sc !! script with
  | Some _ =>
      wp (toCommand host (SOne (TScript script args)) agent (Some sc))
         (ran match getCommand host agent "run" (script :: default [] args) with
              | Ok runTaskWithAgent => [runTaskWithAgent]
              | Throw _ => []
              end s) s
  | None =>
      toCommand host (SOne (TScript script args)) agent (Some sc) s
      = (Throw (JsError ("invalid task, script " +:+ JS.dquote +:+ script
                         +:+ JS.dquote +:+ " does not exist in package.json")), s)
  end.
Proof.
  intros Ht Hown. cbn [toCommand run_tasks]. unfold run_task. rewrite Ht.
  unfold has_script.
  destruct (sc !! script) as [x|] eqn:Hsc.
  - rewrite <- (app_nil_r (match getCommand _ _ _ _ with Ok _ => _ | Throw _ => _ end)).
    apply wp_ran_bind; [|intros; by apply wp_ret, ran_nil].
    apply wp_bind, wp_ret. rewrite bool_decide_eq_true_2 by eauto.
    apply wp_bind, wp_lift_res.
    destruct (getCommand host agent "run" _) as [c|e].
    + apply wp_ran_sh_.
    + by apply ran_throw.
  - unfold bind, ret, throw.
    by rewrite bool_decide_eq_false_2 by (by intros [[? ?]|?]).
Qed.

Lemma bind_assoc {S A B C} (m : M S A) (f : A → M S B) (g : B → M S C) (st : S) :
  bind (bind m f) g st = bind m (λ a, bind (f a) g) st.
Proof. unfold bind. by destruct (m st) as [[a|e] st']. Qed.

Lemma bind_ext {S A B} (m : M S A) (f g : A → M S B) (st : S) :
  (∀ a st', f a st' = g a st') → bind m f st = bind m g st.
Proof. intros H. unfold bind. destruct (m st) as [[a|e] st']; [apply H|done]. Qed.

(** X4: a list of tasks runs in order and stops at the first task
    that throws: running [a ++ b] is running [a] and, when that
    returned, running [b] in the state it left. *)
Theorem toCommand_sequence agent scripts (a b : list (Task W)) s :
  toCommand host (SMany (a ++ b)) agent scripts s
  = (toCommand host (SMany a) agent scripts;;
     toCommand host (SMany b) agent scripts) s.
Proof.
  cbn [toCommand]. revert s. induction a as [|t a IH]; intros s.
  - done.
  - cbn [run_tasks app]. rewrite bind_assoc. apply bind_ext. intros _ s1. apply IH.
Qed.

(** *** Synchronizing a repository *)


Lemma ran_all {A} l s (r : Res A) s1 :
  commands (trace s1) = commands (trace s) ++ l → ran l s r s1.
Proof. intros H. by exists l. Qed.

Lemma wp_conj {S A} (m : M S A) (Q1 Q2 : Res A → S → Prop) (st : S) :
  wp m Q1 st → wp m Q2 st → wp m (λ r st', Q1 r st' ∧ Q2 r st') st.
Proof. by split. Qed.

Lemma wp_ran_cd {A} d l (m : M (State W) A) s :
  (∀ s1, wp m (ran l s1) s1) → wp (cd host d;; m) (ran l s) s.
Proof.
  intros Hm. apply wp_bind, wp_cd. eapply wp_mono; [apply Hm|].
  intros r s' H. by eapply ran_from; [|exact H].
Qed.

(** The existing-directory test: what it runs, what it removes, what
    it answers. *)
Lemma probe_existing_spec repo dir s :
  let there := existsSync host dir (world s) in
  let remote :=
    (execSync host "git ls-remote --get-url"
       {| opt_cwd := path_resolve host (world s) [cwd s; dir]; opt_env := None |}
       (world s)).1 in
  let needClone := negb there || negb (bool_decide (remote = Ok repo)) in
  wp (probe_existing host repo dir)
     (λ r s',
        commands (trace s')
        = commands (trace s) ++ (if there then ["git ls-remote --get-url"] else [])
        ∧ removed (trace s')
          = removed (trace s) ++ (if there && needClone then [dir] else [])
        ∧ match r with Ok b => b = needClone | Throw _ => needClone = true end) s.
Proof.
  intros there remote needClone. unfold probe_existing.
  apply wp_bind, wp_fs_exists. fold there.
  destruct there eqn:Hth; cbn [negb orb andb] in *.
  - apply wp_bind, wp_get_cwd. apply wp_bind, wp_cd.
    apply wp_bind, wp_try_catch, wp_bind, wp_sh.
    intros r w1 s1 He Hw Hc Hm Ht. cbn [cwd world set_cwd trace] in He, Ht.
    assert (Hrem : remote = r) by (unfold remote; by rewrite He).
    assert (Hc1 : commands (trace s1) = commands (trace s) ++ ["git ls-remote --get-url"]).
    { by rewrite Ht, commands_app, commands_sh_events. }
    assert (Hr1 : removed (trace s1) = removed (trace s)).
    { rewrite Ht, !removed_app. unfold announce.
      destruct (isGitHubActions _), (is_ok _ && _); simpl; by rewrite ?app_nil_r. }
    assert (Hk : ∀ cur : option string,
               bool_decide (Some repo = cur) = bool_decide (remote = Ok repo) →
               wp (cd host (cwd s);;
                   if bool_decide (Some repo = cur) then ret false
                   else (fs_rm host dir;; ret true))
                  (λ r s',
                     commands (trace s')
                     = commands (trace s) ++ ["git ls-remote --get-url"]
                     ∧ removed (trace s')
                       = removed (trace s) ++ (if needClone then [dir] else [])
                     ∧ match r with Ok b => b = needClone | Throw _ => needClone = true end)
                  s1).
    { intros cur Hcur. apply wp_bind, wp_cd. rewrite Hcur. unfold needClone.
      destruct (bool_decide (remote = Ok repo)); cbn [negb].
      - apply wp_ret. cbn [trace set_cwd]. by rewrite Hr1, app_nil_r.
      - apply wp_bind, wp_fs_rm. intros r2 w2 s2 _ _ _ _ Ht2.
        cbn [trace set_cwd] in Ht2.
        assert (commands (trace s2) = commands (trace s) ++ ["git ls-remote --get-url"]).
        { rewrite Ht2, commands_app. cbn. by rewrite app_nil_r. }
        assert (removed (trace s2) = removed (trace s) ++ [dir]).
        { rewrite Ht2, removed_app, Hr1. done. }
        destruct r2; [by apply wp_ret|done]. }
    destruct r as [out|e].
    + apply wp_ret, Hk. rewrite Hrem.
      apply bool_decide_ext. split; intros [= ->]; done.
    + apply wp_ret, Hk. rewrite Hrem.
      rewrite !bool_decide_eq_false_2; done.
  - apply wp_ret. by rewrite !app_nil_r.
Qed.

Lemma wp_ran_sync shallow tag commit branch dir s :
  wp (cd host dir;;
      sh_ host "git clean -fdxq";;
      sh_ host (fetch_cmd shallow tag commit branch);;
      if shallow then sh_ host (shallow_checkout_cmd tag commit branch)
      else (sh_ host ("git checkout " +:+ branch);;
            sh_ host "git merge FETCH_HEAD";;
            JS.cond (JS.or_opt tag commit)
              (λ ref, sh_ host ("git reset --hard " +:+ ref))
              (ret tt)))
     (ran (sync_script shallow tag commit branch) s) s.
Proof.
  apply wp_ran_cd. intros s1. unfold sync_script.
  apply (wp_ran_bind _ _ ["git clean -fdxq"] (_ :: _)); [apply wp_ran_sh_|].
  intros _ s2.
  apply (wp_ran_bind _ _ [_]); [apply wp_ran_sh_|]. intros _ s3.
  destruct shallow; [apply wp_ran_sh_|].
  apply (wp_ran_bind _ _ [_] (_ :: _)); [apply wp_ran_sh_|]. intros _ s4.
  apply (wp_ran_bind _ _ [_]); [apply wp_ran_sh_|]. intros _ s5.
  unfold JS.cond. destruct (JS.or_opt tag commit) as [ref|].
  - destruct (JS.truthy ref); [apply wp_ran_sh_|by apply wp_ret, ran_nil].
  - by apply wp_ret, ran_nil.
Qed.

(** X6: the script of a synchronization.  The remote of an existing
    directory is asked for first; the directory is removed and the
    repository cloned unless the answer is exactly the normalized URL;
    a directory that does not exist is cloned without asking or
    removing.  Then come the clean, the fetch and the checkout.  The
    commands run are the first few of that script, and all of it when
    [setupRepo] returns. *)
Theorem setupRepo_script (o : RepoOptions) s dir :
  r_dir o = Some dir →
  JS.truthy dir = true →
  let repo := normalize_repo (r_repo o) in
  let branch := default "main" (r_branch o) in
  let shallow := default true (r_shallow o) in
  let there := existsSync host dir (world s) in
  let remote :=
    (execSync host "git ls-remote --get-url"
       {| opt_cwd := path_resolve host (world s) [cwd s; dir]; opt_env := None |}
       (world s)).1 in
  let needClone := negb there || negb (bool_decide (remote = Ok repo)) in
  wp (setupRepo host)
     (λ r st,
        ran ((if there then ["git ls-remote --get-url"] else [])
             ++ (if needClone then [clone_cmd shallow (r_tag o) branch repo dir] else [])
             ++ sync_script shallow (r_tag o) (r_commit o) branch) s r st.2
        ∧ removed (trace st.2)
          = removed (trace s) ++ (if there && needClone then [dir] else [])) (o, s).
Proof.
  intros Hdir Htr repo branch shallow there remote needClone.
  unfold setupRepo.
  apply wp_bind, wp_get_options. apply wp_bind.
  set (o1 := if bool_decide (r_branch o = None) then r_set_branch (Some "main") o else o).
  apply (wp_mono _ (λ r st, r = Ok tt ∧ st = (o1, s))).
  { unfold o1, wp, when. by destruct (bool_decide (r_branch o = None)). }
  intros _ _ [-> ->]. apply wp_bind, wp_get_options. apply wp_bind.
  set (o2 := if bool_decide (r_shallow o1 = None) then r_set_shallow (Some true) o1 else o1).
  apply (wp_mono _ (λ r st, r = Ok tt ∧ st = (o2, s))).
  { unfold o2, wp, when. by destruct (bool_decide (r_shallow o1 = None)). }
  intros _ _ [-> ->]. apply wp_bind, wp_get_options.
  assert (r_commit o2 = r_commit o ∧ r_tag o2 = r_tag o
          ∧ default EmptyString (r_branch o2) = branch
          ∧ default true (r_shallow o2) = shallow
          ∧ r_dir o2 = r_dir o ∧ r_repo o2 = r_repo o) as (-> & -> & -> & -> & -> & ->).
  { unfold o2, o1, shallow, branch. destruct o as [? ? [] ? ? [] ?]; done. }
  rewrite Hdir. change (default EmptyString (Some dir)) with dir.
  change (JS.truthy_opt (Some dir)) with (JS.truthy dir). rewrite Htr. cbn [negb].
  fold repo. apply wp_lift, wp_bind.
  apply (wp_mono _
           (λ r s1,
              commands (trace s1)
              = commands (trace s) ++ (if there then ["git ls-remote --get-url"] else [])
              ∧ removed (trace s1)
                = removed (trace s) ++ (if there && needClone then [dir] else [])
              ∧ match r with Ok b => b = needClone | Throw _ => needClone = true end)
           _ _ (probe_existing_spec repo dir s)).
  intros [b|e] s1 (Hc & Hr & Hb); cbn [snd].
  - subst b. apply wp_conj.
    + eapply wp_mono.
      { apply (wp_ran_bind _ _
                 (if needClone then [clone_cmd shallow (r_tag o) branch repo dir] else [])
                 (sync_script shallow (r_tag o) (r_commit o) branch)).
        - destruct needClone; [apply wp_ran_sh_|by apply wp_ret, ran_nil].
        - intros _ s2. apply wp_ran_sync. }
      intros r s2 H. eapply ran_seq; [|exact H]. by apply (ran_all _ _ (Ok tt)).
    + eapply wp_stable; [apply setupRepo_tail_keeps_removed|].
      intros _ s2 Hk. cbn [snd]. by rewrite Hk.
  - split; [|by rewrite Hb in *]. apply (ran_stop (A := unit)). by apply ran_all.
Qed.

Lemma startsWith_append (p r : string) : JS.startsWith p (p +:+ r) = true.
Proof.
  unfold JS.startsWith. induction p as [|c p IH]; [by destruct r|].
  rewrite append_cons. cbn [String.prefix].
  by destruct (ascii_dec c c).
Qed.


(** *** Preparing the environment *)

(** X8: the prepared environment inherits every variable of the
    process environment other than the four it forces. *)
Theorem setupEnvironment_inherits s (k : string) :
  k ∉ ["CI"; "YARN_ENABLE_IMMUTABLE_INSTALLS"; "NODE_OPTIONS"; "ECOSYSTEM_CI"] →
  env (setupEnvironment host s).2 !! k = process_env host (world s) !! k.
Proof.
  intros Hk. rewrite setupEnvironment_env. unfold ci_env.
  rewrite !lookup_insert_ne; [done|intros <-; apply Hk; set_solver..].
Qed.

(** X9: a workspace that is already there, with its three
    configuration files, is left as it is: nothing is created and
    nothing is overwritten. *)
Theorem initWorkspace_keeps_existing workspace s :
  existsSync host workspace (world s) = true →
  existsSync host (path_join host [workspace; ".eslintrc.json"]) (world s) = true →
  existsSync host (path_join host [workspace; ".editorconfig"]) (world s) = true →
  existsSync host (path_join host [workspace; "tsconfig.json"]) (world s) = true →
  initWorkspace host workspace s = (Ok tt, s).
Proof.
  intros H1 H2 H3 H4.
  assert (H : wp (initWorkspace host workspace) (λ r s', r = Ok tt ∧ s' = s) s).
  { unfold initWorkspace.
    apply wp_bind, wp_fs_exists. rewrite H1. apply wp_bind, wp_ret.
    apply wp_bind, wp_fs_exists. rewrite H2. apply wp_bind, wp_ret.
    apply wp_bind, wp_fs_exists. rewrite H3. apply wp_bind, wp_ret.
    apply wp_bind, wp_fs_exists. rewrite H4. by apply wp_ret. }
  unfold wp in H. destruct (initWorkspace host workspace s) as [r s'].
  cbn in H. by destruct H as [-> ->].
Qed.

(** *** The override engine *)

Ltac keeps_obs :=
  repeat first
    [ apply keeps_sh_; [done|done]
    | apply keeps_sh; [done|done]
    | apply keeps_cd
    | apply keeps_log; done
    | apply keeps_call; done
    | apply stable_ret, _
    | apply stable_throw, _
    | apply stable_lift_res, _
    | apply stable_when; [apply _|]
    | apply stable_try_catch; [apply _| |intros ?]
    | apply stable_bind; [apply _| |intros ?]
    | match goal with
      | |- stable _ (if ?b then _ else _) => destruct b
      | |- stable _ (match ?x with _ => _ end) => destruct x
      | |- stable _ (JS.cond ?x _ _) => unfold JS.cond
      end ].

Lemma keeps_overridePackageManagerVersion {X} (obs : list Event → X) pkg pm :
  quiet obs → (∀ cmd, blind_to obs cmd) →
  stable (keeps obs) (overridePackageManagerVersion host pkg pm).
Proof. intros Hq Hb. unfold overridePackageManagerVersion. keeps_obs. Qed.

Lemma string_app_assoc (a b c : string) : (a +:+ b) +:+ c = a +:+ b +:+ c.
Proof. induction a as [|x a IH]; [done|]. by rewrite !append_cons, IH. Qed.

Lemma drop_append (p r : string) : JS.drop (String.length p) (p +:+ r) = r.
Proof. induction p as [|c p IH]; [by destruct r|]. by rewrite append_cons. Qed.

Lemma overridePackageManagerVersion_run {X} (obs : list Event → X) pkg pm s :
  quiet obs → (∀ cmd, blind_to obs cmd) →
  wp (overridePackageManagerVersion host pkg pm)
     (λ r s', obs (trace s') = obs (trace s)
              ∧ r = pin_outcome host pkg pm (cwd s) (world s)) s.
Proof.
  intros Hq Hb. apply wp_conj.
  { eapply (wp_stable (keeps obs)); [by apply keeps_overridePackageManagerVersion|].
    by intros. }
  unfold overridePackageManagerVersion, pin_outcome. apply wp_bind.
  apply (wp_mono _ (λ r _, r = version_in_use host pkg pm (cwd s) (world s))).
  { unfold version_in_use.
    assert (Hask : wp (sh host (pm +:+ " --version"))
                     (λ r _, r = (execSync host (pm +:+ " --version")
                                    {| opt_cwd := cwd s; opt_env := None |}
                                    (world s)).1) s).
    { apply wp_sh. intros r w' s1 He _ _ _ _. by rewrite He. }
    destruct (pkg_packageManager pkg) as [p|]; [|exact Hask].
    destruct (JS.startsWith _ p); [by apply wp_ret|exact Hask]. }
  intros r s1 ->.
  destruct (version_in_use host pkg pm (cwd s) (world s)) as [v|e]; [|done].
  apply wp_bind. case_bool_decide as Hpm.
  - apply wp_bind, wp_lift_res.
    destruct (semver_eq host v "7.18.0") as [[]|e]; [| |done].
    + apply wp_ret, wp_bind, wp_log, wp_ret. by subst pm.
    + by apply wp_ret, wp_ret.
  - by apply wp_ret, wp_ret.
Qed.

(** X10: what [overridePackageManagerVersion] does to the manifest.
    The version in use is the one the manifest pins for the manager,
    or else what [pm --version] prints; when it cannot be found the
    function throws.  The answer is [true] exactly for pnpm with a
    version in use that compares equal to 7.18.0: the manifest then
    pins [pnpm@7.18.1], requires 7.18.1 in [engines.pnpm], and has a
    [pnpm] development dependency moved to 7.18.1 when it had one;
    nothing else changes.  Otherwise the answer is [false] and the
    manifest is the one it was given.  It writes no file. *)
Theorem overridePackageManagerVersion_spec pkg pm s :
  let run := overridePackageManagerVersion host pkg pm s in
  writes (trace run.2) = writes (trace s)
  ∧ match version_in_use host pkg pm (cwd s) (world s) with
    | Throw e => run.1 = Throw e
    | Ok versionInUse =>
        if bool_decide (pm = "pnpm") then
          match semver_eq host versionInUse "7.18.0" with
          | Ok true =>
              ∃ pkg',
                run.1 = Ok (pkg', true)
                ∧ pkg_packageManager pkg' = Some "pnpm@7.18.1"
                ∧ (∀ k, entry (pkg_engines pkg') k
                        = if decide (k = "pnpm") then Some "7.18.1"
                          else entry (pkg_engines pkg) k)
                ∧ (∀ k, entry (pkg_devDependencies pkg') k
                        = if decide (k = "pnpm")
                          then match entry (pkg_devDependencies pkg) k with
                               | Some old =>
                                   if JS.truthy old then Some "7.18.1" else Some old
                               | None => None
                               end
                          else entry (pkg_devDependencies pkg) k)
                ∧ pkg_name pkg' = pkg_name pkg
                ∧ pkg_scripts pkg' = pkg_scripts pkg
                ∧ pkg_dependencies pkg' = pkg_dependencies pkg
                ∧ pkg_pnpm_overrides pkg' = pkg_pnpm_overrides pkg
                ∧ pkg_resolutions pkg' = pkg_resolutions pkg
                ∧ pkg_overrides pkg' = pkg_overrides pkg
          | Ok false => run.1 = Ok (pkg, false)
          | Throw e => run.1 = Throw e
          end
        else run.1 = Ok (pkg, false)
    end.
Proof.
  intros run.
  destruct (overridePackageManagerVersion_run writes pkg pm s quiet_writes blind_writes)
    as [Hw Hr].
  fold run in Hw, Hr. split; [exact Hw|]. rewrite Hr. unfold pin_outcome.
  destruct (version_in_use host pkg pm (cwd s) (world s)) as [v|e]; [|done].
  case_bool_decide; [|done].
  destruct (semver_eq host v "7.18.0") as [[]|e]; [|done..].
  exists (pinned_to_fix pkg). split_and!; try done.
  - intros k. unfold entry. cbn. destruct (decide (k = "pnpm")) as [->|].
    + by rewrite lookup_insert_eq.
    + rewrite lookup_insert_ne by done. by destruct (pkg_engines pkg).
  - intros k. unfold pinned_to_fix.
    cbn [pkg_devDependencies set_devDependencies set_engines set_packageManager].
    apply entry_patch_present.
Qed.

(** X11: a manifest that pins its package manager is taken at its
    word: the version after [pm@] is the one compared, and no command
    is run to find it.  The answer is [true] exactly for pnpm pinned to
    a version that compares equal to 7.18.0. *)
Theorem pinned_manager_version pkg pm v s :
  pkg_packageManager pkg = Some (pm +:+ "@" +:+ v) →
  let run := overridePackageManagerVersion host pkg pm s in
  commands (trace run.2) = commands (trace s)
  ∧ match run.1 with
    | Ok (_, needsWrite) =>
        needsWrite = true ↔ pm = "pnpm" ∧ semver_eq host v "7.18.0" = Ok true
    | Throw e => pm = "pnpm" ∧ semver_eq host v "7.18.0" = Throw e
    end.
Proof.
  intros Hpin run.
  change (wp (overridePackageManagerVersion host pkg pm)
            (λ r s', commands (trace s') = commands (trace s)
                     ∧ match r with
                       | Ok (_, needsWrite) =>
                           needsWrite = true
                           ↔ pm = "pnpm" ∧ semver_eq host v "7.18.0" = Ok true
                       | Throw e => pm = "pnpm" ∧ semver_eq host v "7.18.0" = Throw e
                       end) s).
  unfold overridePackageManagerVersion. rewrite Hpin.
  rewrite <- string_app_assoc, startsWith_append.
  replace (String.length pm + 1) with (String.length (pm +:+ "@"))
    by (rewrite string_length_app; done).
  rewrite drop_append.
  apply wp_bind, wp_ret, wp_bind. case_bool_decide as Hpm.
  - apply wp_bind, wp_lift_res.
    destruct (semver_eq host v "7.18.0") as [[]|e] eqn:Hsem; [| |done].
    + apply wp_ret, wp_bind, wp_log, wp_ret. split; [|done].
      cbn [trace emit]. rewrite commands_app. cbn. by rewrite app_nil_r.
    + apply wp_ret, wp_ret. split; [done|]. split; [done|]. by intros [_ ?].
  - apply wp_ret, wp_ret. split; [done|]. split; [done|]. by intros [? _].
Qed.

Lemma sanitize_entries_state (l : list (string * OValue)) s :
  (sanitize_entries host l s).2 = s.
Proof.
  induction l as [|[k [v|b]] l IH]; [done| |done].
  cbn [sanitize_entries]. unfold bind.
  assert (Hu : (useFileProtocol host v s).2 = s).
  { unfold useFileProtocol, bind, isLocalOverride.
    destruct (negb _ || _); [done|].
    destruct (lstat_isDirectory host v (world s)) as [[]|e]; [done..|].
    by destruct (bool_decide _). }
  destruct (useFileProtocol host v s) as [[v'|e] s1]; cbn in Hu; subst s1; [|done].
  destruct (sanitize_entries host l s) as [[rest|e] s1]; cbn in IH; by subst s1.
Qed.

Lemma wp_sanitize (ov : Overrides) (Q : Res (gmap string string) → State W → Prop) s :
  (∀ r, Q r s) → wp (sanitize host ov) Q s.
Proof.
  intros HQ. unfold wp, sanitize, bind.
  pose proof (sanitize_entries_state (map_to_list ov) s) as Hs.
  destruct (sanitize_entries host (map_to_list ov) s) as [[l|e] s1];
    cbn in Hs; subst s1; apply HQ.
Qed.

Lemma wp_fs_write p c (Q : Res unit → State W → Prop) s :
  (∀ r s1, trace s1 = trace s ++ [EvWrite p c] → Q r s1) →
  wp (fs_write host p c) Q s.
Proof.
  intros HQ. unfold wp, fs_write.
  destruct (writeFile host p c (world s)) as [r w']. by apply HQ.
Qed.

Lemma wp_sh__obs cmd (Q : Res unit → State W → Prop) s :
  (∀ r s1, commands (trace s1) = commands (trace s) ++ [cmd] →
           writes (trace s1) = writes (trace s) →
           removed (trace s1) = removed (trace s) → Q r s1) →
  wp (sh_ host cmd) Q s.
Proof.
  intros HQ. apply HQ.
  - apply sh__commands.
  - apply (keeps_sh_ host writes); [apply quiet_writes|apply blind_writes].
  - apply (keeps_sh_ host removed); [apply quiet_removed|apply blind_removed].
Qed.

Lemma merge_overrides_supported pm pkg (ov : gmap string string) pkg' :
  merge_overrides pm pkg ov = Ok pkg' → pm ∈ ["pnpm"; "yarn"; "npm"].
Proof.
  unfold merge_overrides. repeat case_bool_decide; subst; try done; set_solver.
Qed.

Lemma written_app a b : written (a ++ b) = written a ++ written b.
Proof. induction a as [|[] a IH]; simpl; by rewrite ?IH. Qed.

Lemma quiet_written : quiet written.
Proof. intros tr []; try done; rewrite written_app; simpl; by rewrite app_nil_r. Qed.

Lemma blind_written cmd : blind_to written cmd.
Proof. intros tr o e r. rewrite written_app. simpl. by rewrite app_nil_r. Qed.

Lemma writes_written evs : writes evs = (written evs).*1.
Proof. induction evs as [|[] evs IH]; simpl; by rewrite ?IH. Qed.

Lemma wp_sanitize_res (ov : Overrides)
    (Q : Res (gmap string string) → State W → Prop) s :
  Q (sanitize host ov s).1 s → wp (sanitize host ov) Q s.
Proof.
  intros HQ. unfold wp.
  assert (Hs : (sanitize host ov s).2 = s).
  { unfold sanitize, bind.
    pose proof (sanitize_entries_state (map_to_list ov) s) as Hs.
    by destruct (sanitize_entries host (map_to_list ov) s) as [[l|e] s1]. }
  by rewrite Hs.
Qed.

Lemma wp_sh__written cmd (Q : Res unit → State W → Prop) s :
  (∀ r s1, commands (trace s1) = commands (trace s) ++ [cmd] →
           written (trace s1) = written (trace s) → Q r s1) →
  wp (sh_ host cmd) Q s.
Proof.
  intros HQ. apply HQ.
  - apply sh__commands.
  - apply (keeps_sh_ host written); [apply quiet_written|apply blind_written].
Qed.

(** Everything [applyPackageOverrides] does, step by step: the
    overrides are sanitized, the directory is cleaned, the manager is
    detected in the cleaned directory, its version is looked at, the
    overrides are merged for that manager, the manifest is written,
    and that manager installs. *)
Lemma applyPackageOverrides_run dir pkg (overrides : Overrides) s :
  let pkgFile := path_join host [dir; "package.json"] in
  let clean :=
    execSync host "git clean -fdxq" {| opt_cwd := cwd s; opt_env := None |} (world s) in
  wp (applyPackageOverrides host dir pkg overrides)
     (λ r s',
        match (sanitize host overrides s).1 with
        | Throw e => r = Throw e ∧ written (trace s') = written (trace s)
        | Ok sanitized =>
            match clean.1 with
            | Throw e => r = Throw e ∧ written (trace s') = written (trace s)
            | Ok _ =>
                match detect host dir clean.2 with
                | None => is_ok r = false ∧ written (trace s') = written (trace s)
                | Some agent =>
                    if JS.truthy agent then
                      let pm := JS.split_head "@" agent in
                      match pin_outcome host pkg pm (cwd s) clean.2 with
                      | Throw e => r = Throw e ∧ written (trace s') = written (trace s)
                      | Ok (pkg1, _) =>
                          match merge_overrides pm pkg1 sanitized with
                          | Throw e =>
                              r = Throw e ∧ written (trace s') = written (trace s)
                          | Ok pkg2 =>
                              written (trace s')
                              = written (trace s) ++ [(pkgFile, JSON_stringify host pkg2)]
                              ∧ match r with
                                | Ok pkg' =>
                                    pkg' = pkg2
                                    ∧ last (commands (trace s')) = Some (install_cmd pm)
                                | Throw _ => True
                                end
                          end
                      end
                    else is_ok r = false ∧ written (trace s') = written (trace s)
                end
            end
        end) s.
Proof.
  intros pkgFile clean. unfold applyPackageOverrides.
  apply wp_bind, wp_sanitize_res.
  destruct (sanitize host overrides s).1 as [sanitized|e]; [|done].
  apply wp_bind. unfold sh_ at 1. apply wp_bind, wp_sh.
  intros r w1 s1 He Hw Hc Hm Ht. fold clean in He. rewrite He. cbn [fst snd].
  assert (Hw1 : written (trace s1) = written (trace s)).
  { rewrite Ht, !written_app. unfold announce.
    destruct (isGitHubActions _), (is_ok _ && _); simpl; by rewrite ?app_nil_r. }
  destruct r as [out|e]; [|done]. apply wp_ret.
  apply wp_bind, wp_detect_agent. rewrite Hw. unfold JS.cond.
  destruct (detect host dir w1) as [agent|]; [|by apply wp_throw].
  destruct (JS.truthy agent); [|by apply wp_throw].
  set (pm := JS.split_head "@" agent). cbn zeta.
  apply wp_bind.
  eapply wp_mono;
    [apply (overridePackageManagerVersion_run written); [apply quiet_written|apply blind_written]|].
  intros r s2 [Hw2 ->]. rewrite Hc, Hw.
  destruct (pin_outcome host pkg pm (cwd s) w1) as [[pkg1 b]|e]; [|split; [done|congruence]].
  apply wp_bind, wp_lift_res.
  destruct (merge_overrides pm pkg1 sanitized) as [pkg2|e] eqn:Hmg;
    [|split; [done|congruence]].
  apply merge_overrides_supported in Hmg.
  apply wp_bind, wp_fs_write. intros r s3 Ht3.
  assert (Hw3 : written (trace s3)
                = written (trace s) ++ [(pkgFile, JSON_stringify host pkg2)]).
  { rewrite Ht3, written_app, Hw2, Hw1. done. }
  destruct r as [[]|e]; [|done].
  assert (Hinst : wp (sh_ host (install_cmd pm))
                    (λ (r : Res unit) s',
                       written (trace s')
                       = written (trace s) ++ [(pkgFile, JSON_stringify host pkg2)]
                       ∧ (is_ok r = true →
                          last (commands (trace s')) = Some (install_cmd pm))) s3).
  { apply wp_sh__written. intros r s4 Hc4 Hw4. rewrite Hw4, Hc4, last_snoc. done. }
  apply wp_bind.
  apply (wp_mono _ (λ (r : Res unit) s',
                       written (trace s')
                       = written (trace s) ++ [(pkgFile, JSON_stringify host pkg2)]
                       ∧ (is_ok r = true →
                          last (commands (trace s')) = Some (install_cmd pm)))).
  { unfold install_cmd in Hinst.
    apply elem_of_cons in Hmg as [Hpm|Hmg]; [rewrite Hpm in *; exact Hinst|].
    apply elem_of_cons in Hmg as [Hpm|Hmg]; [rewrite Hpm in *; exact Hinst|].
    apply list_elem_of_singleton in Hmg. rewrite Hmg in *. exact Hinst. }
  intros [[]|e] s4 [Hw4 Hl4]; [|done]. apply wp_ret. split; [done|]. split; [done|].
  by apply Hl4.
Qed.

(** X12: how [applyPackageOverrides] ends.  When it returns, a
    package manager was detected in the cleaned directory, it was one
    of pnpm, yarn and npm, the manifest of the directory was written
    once, and the last command run was the install of the manager
    detected.  When it throws, either nothing was written (the
    overrides could not be sanitized, the clean failed, no or an
    unsupported package manager was found, the version check failed),
    or the write of the manifest was issued and it or the install
    failed. *)
Theorem applyPackageOverrides_outcome dir pkg (overrides : Overrides) s :
  let pkgFile := path_join host [dir; "package.json"] in
  let clean :=
    execSync host "git clean -fdxq" {| opt_cwd := cwd s; opt_env := None |} (world s) in
  wp (applyPackageOverrides host dir pkg overrides)
     (λ r s',
        match r with
        | Ok _ =>
            ∃ agent,
              detect host dir clean.2 = Some agent
              ∧ JS.split_head "@" agent ∈ ["pnpm"; "yarn"; "npm"]
              ∧ writes (trace s') = writes (trace s) ++ [pkgFile]
              ∧ last (commands (trace s')) = Some (install_cmd (JS.split_head "@" agent))
        | Throw _ =>
            writes (trace s') = writes (trace s)
            ∨ writes (trace s') = writes (trace s) ++ [pkgFile]
        end) s.
Proof.
  intros pkgFile clean.
  eapply wp_mono; [apply applyPackageOverrides_run|]. fold pkgFile clean.
  intros r s' H. rewrite !writes_written.
  assert (Hsame : written (trace s') = written (trace s) →
                  (written (trace s')).*1 = (written (trace s)).*1) by by intros ->.
  assert (Hone : ∀ c, written (trace s') = written (trace s) ++ [(pkgFile, c)] →
                      (written (trace s')).*1 = (written (trace s)).*1 ++ [pkgFile]).
  { intros c ->. by rewrite fmap_app. }
  destruct (sanitize host overrides s).1 as [sanitized|e0];
    [|destruct H as [-> ?]; left; auto].
  destruct clean.1 as [out|e0]; [|destruct H as [-> ?]; left; auto].
  destruct (detect host dir clean.2) as [agent|];
    [|destruct H as [? ?]; destruct r; [done|left; auto]].
  destruct (JS.truthy agent); [|destruct H as [? ?]; destruct r; [done|left; auto]].
  cbn zeta in H.
  destruct (pin_outcome _ _ _ _ _) as [[pkg1 b]|e0]; [|destruct H as [-> ?]; left; auto].
  destruct (merge_overrides _ pkg1 sanitized) as [pkg2|e0] eqn:Hm;
    [|destruct H as [-> ?]; left; auto].
  apply merge_overrides_supported in Hm. destruct H as [Hw Hr].
  destruct r as [pkg'|e]; [|right; eauto].
  destruct Hr as [-> Hl]. exists agent. split_and!; eauto.
Qed.



(** *** Which overrides a run uses *)

Lemma or_assign_lookup key value (ov : Overrides) k :
  or_assign key value ov !! k
  = if decide (k = key)
    then Some match ov !! key with
              | Some v => if ovalue_truthy v then v else VStr value
              | None => VStr value
              end
    else ov !! k.
Proof.
  unfold or_assign. destruct (decide (k = key)) as [->|Hne].
  - destruct (ov !! key) as [v|] eqn:Hv; [destruct (ovalue_truthy v)|];
      by rewrite ?lookup_insert_eq.
  - destruct (ov !! key) as [v|]; [destruct (ovalue_truthy v)|];
      by rewrite ?lookup_insert_ne.
Qed.

(** X13: without a release, the three packages of the core repository
    are taken from its local checkout unless the caller overrides
    them: an explicit truthy override wins, every other key is left as
    the caller gave it. *)
Theorem resolve_overrides_defaults release qwikPath (ov : Overrides) :
  JS.truthy_opt release = false →
  ∃ ov',
    resolve_overrides release qwikPath ov = Ok ov'
    ∧ ∀ k, ov' !! k
           = match qwik_local qwikPath k with
             | Some local =>
                 Some match ov !! k with
                      | Some v => if ovalue_truthy v then v else VStr local
                      | None => VStr local
                      end
             | None => ov !! k
             end.
Proof.
  intros Hr. eexists. split.
  { unfold resolve_overrides, JS.cond.
    destruct release as [rel|]; [cbn in Hr; by rewrite Hr|done]. }
  intros k. unfold qwik_local. rewrite !or_assign_lookup.
  repeat case_bool_decide; subst; repeat (destruct (decide _); try done).
Qed.

(** X14: with a release, the only key a run sets is [vite]; the
    packages of the core repository are not pointed at the local
    checkout.  The run fails only on a truthy [vite] override that
    differs from the release. *)
Theorem resolve_overrides_release_sets_vite release qwikPath (ov : Overrides) :
  JS.truthy release = true →
  match resolve_overrides (Some release) qwikPath ov with
  | Ok ov' =>
      ov' !! "vite" = Some (VStr release)
      ∧ ∀ k, k ≠ "vite" → ov' !! k = ov !! k
  | Throw _ =>
      ∃ v, ov !! "vite" = Some v ∧ ovalue_truthy v = true ∧ v ≠ VStr release
  end.
Proof.
  intros Hr. unfold resolve_overrides, JS.cond. rewrite Hr.
  assert (Hok : (<["vite" := VStr release]> ov : Overrides) !! "vite" = Some (VStr release)
                ∧ ∀ k, k ≠ "vite" →
                       (<["vite" := VStr release]> ov : Overrides) !! k = ov !! k).
  { split; [by rewrite lookup_insert_eq|]. intros k Hk. by rewrite lookup_insert_ne. }
  destruct (ov !! "vite") as [v|] eqn:Hv; [|done].
  destruct (ovalue_truthy v) eqn:Ht; [|done].
  case_bool_decide as Heq; cbn [negb andb]; [done|]. by exists v.
Qed.

(** *** The core repository *)


(** X16: the script of [buildQwik]: the frozen install, then the full
    build, then, only when asked to verify, the tests.  The three
    command lines are made before the first one runs; a step that
    fails ends the build. *)
Theorem buildQwik_script verify install build test s :
  getCommand host "pnpm" "frozen" [] = Ok install →
  getCommand host "pnpm" "run" ["build.full"] = Ok build →
  getCommand host "pnpm" "run" ["test"] = Ok test →
  wp (buildQwik host verify)
     (ran ([install; build] ++ if default false verify then [test] else []) s) s.
Proof.
  intros Hi Hb Ht. unfold buildQwik.
  apply wp_bind, wp_get_qwikPath. apply wp_ran_cd. intros s1.
  rewrite Hi, Hb, Ht.
  apply wp_bind, wp_lift_res. apply wp_bind, wp_lift_res. apply wp_bind, wp_lift_res.
  apply (wp_ran_bind _ _ [install] (build :: _)); [apply wp_ran_sh_|]. intros _ s2.
  apply (wp_ran_bind _ _ [build]); [apply wp_ran_sh_|]. intros _ s3.
  destruct (default false verify); [apply wp_ran_sh_|by apply wp_ret, ran_nil].
Qed.

Lemma same_module_fs_rm p : stable same_module (fs_rm host p).
Proof. intros s. unfold fs_rm. by destruct (rmSync host p (world s)). Qed.

Lemma same_module_cd d : stable same_module (cd host d).
Proof. by intros s. Qed.

Lemma same_module_sh_ cmd : stable same_module (sh_ host cmd).
Proof.
  unfold sh_. apply stable_bind; [apply _|apply same_module_sh|].
  intros _. apply stable_ret, _.
Qed.

Ltac same_module :=
  repeat first
    [ apply same_module_sh_
    | apply same_module_sh
    | apply same_module_cd
    | apply same_module_fs_rm
    | apply same_module_fs_exists
    | apply stable_ret, _
    | apply stable_throw, _
    | apply stable_lift_res, _
    | apply stable_when; [apply _|]
    | apply stable_try_catch; [apply _| |intros ?]
    | apply stable_bind; [apply _| |intros ?]
    | match goal with
      | |- stable _ (if ?b then _ else _) => destruct b
      | |- stable _ (match ?x with _ => _ end) => destruct x
      | |- stable _ (JS.cond ?x _ _) => unfold JS.cond
      end ].

Lemma same_module_setupRepo (ro : RepoOptions) :
  stable same_module (call_with ro (setupRepo host)).
Proof.
  intros s. unfold call_with.
  assert (H : wp (setupRepo host) (λ _ st, same_module s st.2) (ro, s)).
  { unfold setupRepo.
    apply wp_bind, wp_get_options. apply wp_bind.
    apply (wp_mono _ (λ r st, st.2 = s)).
    { unfold wp, when. by destruct (bool_decide _). }
    intros [[]|e] [o1 ?] [= ->]; [|done].
    apply wp_bind, wp_get_options. apply wp_bind.
    apply (wp_mono _ (λ r st, st.2 = s)).
    { unfold wp, when. by destruct (bool_decide _). }
    intros [[]|e] [o2 ?] [= ->]; [|done].
    apply wp_bind, wp_get_options.
    destruct (negb _); [by apply wp_throw|].
    apply wp_lift. eapply wp_stable; [|intros r s1 Hk; exact Hk].
    apply stable_bind; [apply _| |intros ?; same_module].
    unfold probe_existing.
    apply stable_bind; [apply _|apply same_module_fs_exists|]. intros there.
    destruct there; [|apply stable_ret, _].
    apply stable_bind; [apply _|by intros ?|]. intros c. same_module. }
  unfold wp in H. by destruct (setupRepo host (ro, s)) as [r [o' s']].
Qed.

Lemma pin_outcome_pnpm pkg cwd0 (w : W) :
  pin_outcome host pkg "pnpm" cwd0 w
  = match version_in_use host pkg "pnpm" cwd0 w with
    | Ok v =>
        match semver_eq host v "7.18.0" with
        | Ok true => Ok (pinned_to_fix pkg, true)
        | Ok false => Ok (pkg, false)
        | Throw e => Throw e
        end
    | Throw e => Throw e
    end.
Proof. reflexivity. Qed.

(** X17: how [setupQwikRepo] ends.  The core repository is
    synchronized first, from [QwikDev/qwik], branch [main], shallow,
    into the core checkout, unless the caller's options say otherwise;
    a failure of the synchronization is thrown as it is.  What comes
    after it either succeeds or is reported as the one error
    [Failed to setup Qwik repo].  The root manifest is rewritten
    exactly when it could be read and parsed and the pnpm in use for
    it (the version it pins, or else what [pnpm --version] prints in
    the directory the synchronization left) compares equal to 7.18.0;
    nothing else is written. *)
Theorem setupQwikRepo_outcome (options : PartialRepo) s :
  let ref := {| r_repo := default "QwikDev/qwik" (p_repo options);
                r_dir := Some (default (qwikPath s) (p_dir options));
                r_branch := Some (default "main" (p_branch options));
                r_tag := p_tag options;
                r_commit := p_commit options;
                r_shallow := Some (default true (p_shallow options));
                r_overrides := p_overrides options |} in
  let sync := call_with ref (setupRepo host) s in
  let run := setupQwikRepo host options s in
  let file := path_join host [qwikPath s; "package.json"] in
  match sync.1 with
  | Throw e => run = (Throw e, sync.2)
  | Ok _ =>
      (run.1 = Ok tt ∨ run.1 = Throw (JsError "Failed to setup Qwik repo"))
      ∧ writes (trace run.2)
        = writes (trace s)
          ++ match readFile host file (world sync.2) with
             | Ok text =>
                 match JSON_parse host text with
                 | Ok pkg =>
                     if needs_pin host pkg (cwd sync.2) (world sync.2) then [file] else []
                 | Throw _ => []
                 end
             | Throw _ => []
             end
  end.
Proof.
  intros ref sync run file. unfold run, setupQwikRepo.
  set (body := try_catch _ _).
  change (bind get_qwikPath ?f s) with (f (qwikPath s) s). cbn beta.
  assert (Href : spread_repo (JS.or_str (p_repo options) "QwikDev/qwik") (qwikPath s)
                   options = ref).
  { unfold spread_repo, ref. f_equal.
    unfold JS.or_str, JS.cond. by destruct (p_repo options). }
  rewrite Href. unfold bind. fold sync.
  pose proof (keeps_writes_setupRepo host ref s) as Hw.
  pose proof (same_module_setupRepo ref s) as (_ & Hqp & _).
  fold sync in Hw, Hqp. unfold keeps in Hw.
  destruct sync as [[[]|e] s1]; cbn [fst snd] in *; [|done].
  set (Wc := λ s' : State W,
         writes (trace s')
         = writes (trace s)
           ++ match readFile host file (world s1) with
              | Ok text =>
                  match JSON_parse host text with
                  | Ok pkg => if needs_pin host pkg (cwd s1) (world s1) then [file] else []
                  | Throw _ => []
                  end
              | Throw _ => []
              end).
  change (wp body
            (λ r s', (r = Ok tt ∨ r = Throw (JsError "Failed to setup Qwik repo"))
                     ∧ Wc s') s1).
  unfold body, Wc. clear Wc body. apply wp_try_catch.
  apply wp_bind, wp_get_qwikPath. rewrite Hqp. fold file.
  apply wp_bind, wp_fs_read.
  destruct (readFile host file (world s1)) as [text|e];
    [|apply wp_throw; split; [by right|]; cbn [snd]; by rewrite Hw, app_nil_r].
  apply wp_bind, wp_lift_res.
  destruct (JSON_parse host text) as [pkg|e];
    [|apply wp_throw; split; [by right|]; cbn [snd]; by rewrite Hw, app_nil_r].
  apply wp_bind.
  eapply wp_mono;
    [apply (overridePackageManagerVersion_run writes); [apply quiet_writes|apply blind_writes]|].
  intros r s2 [Hw2 ->]. cbn beta in Hw2. rewrite pin_outcome_pnpm.
  unfold needs_pin.
  destruct (version_in_use host pkg "pnpm" (cwd s1) (world s1)) as [v|e];
    [|apply wp_throw; split; [by right|]; cbn [snd]; by rewrite Hw2, Hw, app_nil_r].
  destruct (semver_eq host v "7.18.0") as [[]|e];
    [|apply wp_ret; split; [by left|]; cbn [snd]; by rewrite Hw2, Hw, app_nil_r
     |apply wp_throw; split; [by right|]; cbn [snd]; by rewrite Hw2, Hw, app_nil_r].
  apply wp_bind, wp_fs_write. intros r s3 Ht3.
  assert (Hw3 : writes (trace s3) = writes (trace s) ++ [file]).
  { rewrite Ht3, writes_app, Hw2, Hw. done. }
  destruct r as [[]|e]; [|apply wp_throw; by split; [right|]].
  destruct (JS.truthy_opt _).
  - apply wp_sh__obs. intros r s4 _ Hw4 _.
    destruct r as [[]|e]; [|apply wp_throw]; (split; [by (left + right)|]);
      cbn [throw snd]; by rewrite Hw4.
  - apply wp_ret. by split; [left|].
Qed.

(** *** Choosing the suites *)

Lemma take_append (a b : string) : JS.take (String.length a) (a +:+ b) = a.
Proof. induction a as [|c a IH]; [by destruct b|]. rewrite append_cons. cbn. by rewrite IH. Qed.

Lemma take_drop_string n (t : string) : JS.take n t +:+ JS.drop n t = t.
Proof.
  revert t. induction n as [|n IH]; intros [|c t]; try done.
  cbn [JS.take JS.drop]. by rewrite append_cons, IH.
Qed.

Lemma endsWith_spec (p t : string) :
  endsWith p t = true ↔ ∃ a, t = a +:+ p.
Proof.
  unfold endsWith. rewrite andb_true_iff, Nat.leb_le, String.eqb_eq. split.
  - intros [Hlen Hd]. exists (JS.take (String.length t - String.length p) t).
    rewrite <- (take_drop_string (String.length t - String.length p) t) at 1.
    by rewrite Hd.
  - intros [a ->]. rewrite string_length_app. split; [lia|].
    replace (String.length a + String.length p - String.length p)
      with (String.length a) by lia.
    apply drop_append.
Qed.

Lemma startsWith_underscore_ts (x : string) :
  JS.startsWith "_" (x +:+ ".ts") = JS.startsWith "_" x.
Proof.
  destruct x as [|c x]; [reflexivity|].
  unfold JS.startsWith. rewrite append_cons. cbn [String.prefix].
  destruct (ascii_dec _ c); [|done]. by destruct x.
Qed.

Lemma string_app_inj_r (a b c : string) : a +:+ c = b +:+ c → a = b.
Proof.
  intros H.
  assert (Hl : String.length a = String.length b).
  { apply (f_equal String.length) in H. rewrite !string_length_app in H. lia. }
  rewrite <- (take_append a c), <- (take_append b c), H. by rewrite Hl.
Qed.

Lemma availableSuites_elem files (x : string) :
  x ∈ availableSuites files
  ↔ (x +:+ ".ts") ∈ files ∧ JS.startsWith "_" x = false.
Proof.
  unfold availableSuites. rewrite merge_sort_Permutation.
  rewrite list_elem_of_In, in_map_iff. split.
  - intros (f & <- & Hf). apply filter_In in Hf as [Hin Hf].
    apply andb_prop in Hf as [Hu He]. apply endsWith_spec in He as [a ->].
    assert (slice_off3 (a +:+ ".ts") = a) as ->.
    { unfold slice_off3. rewrite string_length_app.
      replace (String.length a + String.length ".ts" - 3) with (String.length a)
        by (cbn; lia).
      apply take_append. }
    rewrite startsWith_underscore_ts in Hu.
    split; [by apply list_elem_of_In|by destruct (JS.startsWith "_" a)].
  - intros [Hin Hu]. exists (x +:+ ".ts"). split.
    + unfold slice_off3. rewrite string_length_app.
      replace (String.length x + String.length ".ts" - 3) with (String.length x)
        by (cbn; lia).
      apply take_append.
    + apply filter_In. split; [by apply list_elem_of_In|].
      rewrite startsWith_underscore_ts, Hu. cbn.
      apply endsWith_spec. by exists x.
Qed.

(** X18: without a request, every suite of the catalogue runs: the
    files of the [tests] directory that end in [.ts] and do not start
    with an underscore, named without the extension, in sorted order.
    Nothing is logged. *)
Theorem getSuitesToRun_default root s files :
  readdirSync (path_join host [root; "tests"]) (world s) = Ok files →
  ∃ l,
    getSuitesToRun host readdirSync [] root s = (Ok (Returned l), s)
    ∧ StronglySorted String.le l
    ∧ ∀ x : string, x ∈ l ↔ (x +:+ ".ts") ∈ files ∧ JS.startsWith "_" x = false.
Proof.
  intros Hr. exists (availableSuites files). split_and!.
  - unfold getSuitesToRun, bind. by rewrite Hr.
  - apply StronglySorted_merge_sort; apply _.
  - apply availableSuites_elem.
Qed.

Lemma filter_bool_prop {A} (P : A → Prop) `{∀ x, Decision (P x)} (f : A → bool) l :
  (∀ x, f x = true ↔ P x) → List.filter f l = filter P l.
Proof.
  intros Hf. induction l as [|x l IH]; [done|]. cbn [List.filter].
  destruct (f x) eqn:Hx.
  - rewrite filter_cons_True by by apply Hf. by rewrite IH.
  - rewrite filter_cons_False; [done|]. rewrite <- Hf. congruence.
Qed.

(** X19: a request is checked against the catalogue.  It is returned
    as it is when every name in it starts with an underscore or names
    a suite file; otherwise the names that do neither are logged, then
    the catalogue, and the process exits with status 1. *)
Theorem getSuitesToRun_validates root s files (suites : list string) :
  suites ≠ [] →
  readdirSync (path_join host [root; "tests"]) (world s) = Ok files →
  let known (x : string) := JS.startsWith "_" x = true ∨ (x +:+ ".ts") ∈ files in
  let run := getSuitesToRun host readdirSync suites root s in
  (Forall known suites → run = (Ok (Returned suites), s))
  ∧ (¬ Forall known suites →
     run.1 = Ok (ProcessExit 1)
     ∧ trace run.2
       = trace s
         ++ [EvLog ("invalid suite(s): "
                    +:+ String.concat ", " (filter (λ x, ¬ known x) suites));
             EvLog ("available suites: "
                    +:+ String.concat ", " (availableSuites files))]).
Proof.
  intros Hne Hr known run. unfold run, getSuitesToRun.
  change (bind (λ s0, (readdirSync ?p (world s0), s0)) ?f s)
    with (match readdirSync p (world s) with
          | Ok a => f a s
          | Throw e => (Throw e, s)
          end).
  rewrite Hr. cbn beta iota.
  destruct suites as [|x0 rest]; [done|]. clear Hne.
  set (suites := x0 :: rest).
  rewrite (filter_bool_prop (λ x, ¬ known x)).
  2:{ intros x. rewrite andb_true_iff, !negb_true_iff, bool_decide_eq_false.
      rewrite availableSuites_elem. unfold known.
      destruct (JS.startsWith "_" x); split.
      - by intros [? _].
      - intros H. destruct H. by left.
      - intros [_ H] [?|?]; [done|]. by apply H.
      - intros H. split; [done|]. intros [? _]. apply H. by right. }
  destruct (filter (λ x, ¬ known x) suites) as [|b bad] eqn:Hbad.
  - split; [done|]. intros Hn. destruct Hn. apply Forall_forall. intros x Hx.
    destruct (decide (known x)) as [|Hk]; [done|].
    assert (x ∈ filter (λ x, ¬ known x) suites) as Hin by by apply list_elem_of_filter.
    rewrite Hbad in Hin. by apply elem_of_nil in Hin.
  - split; [|intros _; split; [done|]; cbn; by rewrite <- app_assoc]. intros Hall.
    assert (b ∈ filter (λ x, ¬ known x) suites) as Hin by (rewrite Hbad; left).
    apply list_elem_of_filter in Hin as [Hnk Hin].
    destruct Hnk. by apply (proj1 (Forall_forall _ _) Hall).
Qed.

(** *** The suite runner *)

Global Instance on_state_refl {O} (R : State W → State W → Prop) `{!Reflexive R} :
  Reflexive (@on_state O W R).
Proof. intros st. unfold on_state. reflexivity. Qed.

Global Instance on_state_trans {O} (R : State W → State W → Prop) `{!Transitive R} :
  Transitive (@on_state O W R).
Proof. intros a b c H1 H2. unfold on_state in *. by etrans. Qed.

Lemma on_state_lift {O A} (R : State W → State W → Prop) (m : M (State W) A) :
  stable R m → stable (@on_state O W R) (lift m).
Proof.
  intros Hm [o s]. unfold on_state, lift. specialize (Hm s).
  by destruct (m s) as [r s'].
Qed.

Lemma on_state_get_options {O} (R : State W → State W → Prop) `{!Reflexive R} :
  stable (@on_state O W R) get_options.
Proof. intros [o s]. unfold on_state. cbn. reflexivity. Qed.

Lemma on_state_update_options {O} (R : State W → State W → Prop) `{!Reflexive R}
    (f : O → O) :
  stable (@on_state O W R) (update_options f).
Proof. intros [o s]. unfold on_state. cbn. reflexivity. Qed.

Lemma keeps_removed_run_task agent scripts (t : Task W) :
  stable (keeps removed) (run_task host agent scripts t).
Proof.
  pose proof quiet_removed. pose proof blind_removed.
  unfold run_task, has_script. keeps_obs.
Qed.

Lemma keeps_removed_toCommand (t : Slot W) agent scripts :
  stable (keeps removed) (toCommand host t agent scripts).
Proof.
  assert (Hl : ∀ ts, stable (keeps removed) (run_tasks host agent scripts ts)).
  { induction ts as [|t' ts IH]; [apply stable_ret, _|].
    cbn [run_tasks]. apply stable_bind; [apply _|apply keeps_removed_run_task|].
    intros _. apply IH. }
  destruct t; cbn [toCommand]; [apply stable_ret, _|apply Hl..].
Qed.

Lemma keeps_removed_applyPackageOverrides dir pkg (ov : Overrides) :
  stable (keeps removed) (applyPackageOverrides host dir pkg ov).
Proof.
  pose proof quiet_removed as Hq. pose proof blind_removed as Hb.
  unfold applyPackageOverrides.
  apply stable_bind; [apply _| |intros sanitized].
  { intros s. unfold sanitize, bind.
    pose proof (sanitize_entries_state (map_to_list ov) s) as Hs.
    destruct (sanitize_entries host _ s) as [[l|e] s1]; cbn in Hs; by subst s1. }
  apply stable_bind; [apply _|by apply keeps_sh_|intros _].
  apply stable_bind; [apply _|by intros s|intros agent].
  unfold JS.cond. destruct agent as [agent|]; [|apply stable_throw, _].
  destruct (JS.truthy agent); [|apply stable_throw, _].
  apply stable_bind; [apply _|by apply keeps_overridePackageManagerVersion|].
  intros [pkg1 b].
  apply stable_bind; [apply _|apply stable_lift_res, _|intros pkg2].
  apply stable_bind; [apply _| |intros _].
  { intros s. unfold fs_write, keeps. destruct (writeFile host _ _ (world s)).
    cbn. rewrite removed_app. cbn. by rewrite app_nil_r. }
  keeps_obs.
Qed.

(** X20: with [skipGit] the working copy is used as it is found: the
    run removes no directory itself, so the clone is never deleted to
    be cloned again.  (What a caller-supplied hook or a shell command
    does on disk is not the run's own doing.) *)
Theorem runInRepo_skipGit_removes_nothing (o : Options W) s :
  o_skipGit o = Some true →
  removed (trace (runInRepo host (o, s)).2.2) = removed (trace s).
Proof.
  intros Hskip.
  change (wp (runInRepo host) (λ _ st, on_state (keeps removed) (o, s) st) (o, s)).
  pose proof quiet_removed as Hq. pose proof blind_removed as Hb.
  unfold runInRepo.
  apply wp_bind, wp_get_options. apply wp_bind, wp_default_verify.
  apply wp_bind, wp_get_options. apply wp_bind, wp_default_skipGit.
  apply wp_bind, wp_get_options. apply wp_bind, wp_default_branch.
  change (set_branch _ _) with (with_defaults o).
  apply wp_bind, wp_get_options_eq. intros options Hopt.
  assert (Hsk : o_skipGit options = Some true).
  { subst options. cbn. by rewrite Hskip. }
  rewrite Hsk. cbn [default negb from_option id].
  apply wp_bind, wp_lift, wp_get_world.
  set (dir := path_resolve host (world s) _).
  apply wp_bind, wp_lift, wp_cd.
  eapply (wp_stable (on_state (keeps removed))); [|intros r st H; exact H].
  repeat first
    [ apply on_state_lift
    | apply on_state_get_options, _
    | apply on_state_update_options, _
    | apply keeps_removed_toCommand
    | apply keeps_removed_applyPackageOverrides
    | apply stable_ret, _
    | apply stable_throw, _
    | apply stable_lift_res, _
    | apply keeps_sh_; [done|done]
    | apply stable_bind; [apply _| |intros ?]
    | match goal with
      | |- stable _ (if ?b then _ else _) => destruct b
      | |- stable _ (match ?x with _ => _ end) => destruct x
      end
    | by intros ? ].
Qed.

Lemma wp_bind_result {S A B} (m : M S A) (f : A → M S B) (P : Res B → Prop) (st : S) :
  (∀ e, P (Throw e)) →
  (∀ a st', wp (f a) (λ r _, P r) st') →
  wp (bind m f) (λ r _, P r) st.
Proof.
  intros Ht Hf. unfold wp, bind. specialize (Hf).
  destruct (m st) as [[a|e] st']; [apply Hf|apply Ht].
Qed.

(** X21: the [dir] that a run returns is the directory it worked in:
    the [dir] option, or else the last segment of the repository name,
    resolved against the workspace. *)
Theorem runInRepo_returns_dir (o : Options W) s :
  match (runInRepo host (o, s)).1 with
  | Ok dir =>
      dir = path_resolve host (world s)
              [o_workspace o; JS.or_str (o_dir o) (JS.after_last "/" (o_repo o))]
  | Throw _ => True
  end.
Proof.
  set (P := λ r : Res string,
         match r with
         | Ok dir =>
             dir = path_resolve host (world s)
                     [o_workspace o; JS.or_str (o_dir o) (JS.after_last "/" (o_repo o))]
         | Throw _ => True
         end).
  change (wp (runInRepo host) (λ r _, P r) (o, s)).
  unfold runInRepo.
  apply wp_bind, wp_get_options. apply wp_bind, wp_default_verify.
  apply wp_bind, wp_get_options. apply wp_bind, wp_default_skipGit.
  apply wp_bind, wp_get_options. apply wp_bind, wp_default_branch.
  change (set_branch _ _) with (with_defaults o).
  apply wp_bind, wp_get_options_eq. intros options Hopt.
  assert (o_workspace options = o_workspace o ∧ o_dir options = o_dir o
          ∧ o_repo options = o_repo o) as (-> & -> & ->) by by subst options.
  apply wp_bind, wp_lift, wp_get_world.
  set (dir := path_resolve host (world s) _).
  assert (Hdir : P (Ok dir)) by done.
  assert (Hthrow : ∀ e, P (Throw e)) by done.
  clearbody dir P.
  repeat first
    [ apply (wp_bind_result _ _ P); [exact Hthrow|intros ? ?]
    | apply wp_ret; exact Hdir
    | apply wp_throw; exact (Hthrow _)
    | match goal with
      | |- wp (if ?b then _ else _) _ _ => destruct b
      | |- wp (match ?x with _ => _ end) _ _ => destruct x
      end ].
Qed.

(** X22: an agent that is not among the supported ones (nor a name
    that every object inherits: the table of agents is read with
    [AGENTS[agent]]) ends the run with an exception.  On a working
    copy that is used as it is found (with [skipGit]) the exception is
    the invalid-agent error and nothing was logged, run, read or
    written before it. *)
Theorem runInRepo_invalid_agent (o : Options W) s a :
  o_agent o = Some a →
  a ∉ AGENTS host →
  a ∉ object_prototype_keys →
  is_ok (runInRepo host (o, s)).1 = false
  ∧ (o_skipGit o = Some true →
     (runInRepo host (o, s)).1
     = Throw (JsError ("Invalid agent " +:+ a +:+ ". Allowed values: "
                       +:+ String.concat ", " (AGENTS host)))
     ∧ trace (runInRepo host (o, s)).2.2 = trace s).
Proof.
  intros Hagent Hnot Hown.
  change (wp (runInRepo host)
            (λ r st,
               is_ok r = false
               ∧ (o_skipGit o = Some true →
                  r = Throw (JsError ("Invalid agent " +:+ a +:+ ". Allowed values: "
                                      +:+ String.concat ", " (AGENTS host)))
                  ∧ trace st.2 = trace s)) (o, s)).
  unfold runInRepo.
  apply wp_bind, wp_get_options. apply wp_bind, wp_default_verify.
  apply wp_bind, wp_get_options. apply wp_bind, wp_default_skipGit.
  apply wp_bind, wp_get_options. apply wp_bind, wp_default_branch.
  change (set_branch _ _) with (with_defaults o).
  apply wp_bind, wp_get_options_eq. intros options Hopt.
  assert (Hag : o_agent options = Some a) by by subst options.
  assert (Hsk : default false (o_skipGit options) = default false (o_skipGit o))
    by by subst options.
  apply wp_bind, wp_lift, wp_get_world.
  set (dir := path_resolve host (world s) _).
  apply wp_bind.
  apply (wp_mono _ (λ r st, st.1 = with_defaults o
                            ∧ (o_skipGit o = Some true → r = Ok tt ∧ trace st.2 = trace s))).
  { rewrite Hsk. destruct (o_skipGit o) as [[]|]; cbn [default from_option id negb];
      apply wp_lift.
    - by apply wp_cd.
    - by unfold wp.
    - by unfold wp. }
  intros r [o' s1] [Ho' Ht]. cbn [fst snd] in *. subst o'.
  destruct r as [[]|e]; [|split; [done|]; intros Hs; by destruct (Ht Hs)].
  rewrite Hag. rewrite bool_decide_eq_false_2 by done.
  apply wp_bind, wp_ret. apply wp_bind, wp_get_options_eq. intros options0 Hopt0.
  assert (Hag0 : o_agent options0 = Some a) by by subst options0.
  rewrite Hag0. cbn [default from_option id].
  rewrite (bool_decide_eq_false_2 (_ ∨ _)) by (by intros [?|?]). cbn [negb].
  apply wp_throw. split; [done|]. intros Hs. split; [done|]. by destruct (Ht Hs).
Qed.

(** *** One turn of the bisection *)

(** X23: a turn on a code commit.  The probe runs; when it returns,
    the checkout is reset and the commit is marked [bad] if the probe
    returned an error and [good] if it returned none: the turn runs
    the subject query, the hard reset and that verdict, in this order.
    When the probe throws, the turn throws the same and marks
    nothing. *)
Theorem bisect_turn_verdict (runSuite : Callback W (option Exn)) s subject w1 probe w2 c :
  execSync host "git log -1 --format=%s" {| opt_cwd := cwd s; opt_env := None |} (world s)
  = (Ok subject, w1) →
  is_non_code_commit subject = false →
  runSuite w1 (cwd s) = (probe, w2, c) →
  wp (bisect_turn host runSuite)
     (λ r s',
        match probe with
        | Ok error =>
            ran ["git log -1 --format=%s"; "git reset --hard HEAD";
                 "git bisect " +:+ match error with Some _ => "bad" | None => "good" end]
              s r s'
        | Throw e =>
            r = Throw e
            ∧ commands (trace s') = commands (trace s) ++ ["git log -1 --format=%s"]
        end) s.
Proof.
  intros Hlog Hcode Hprobe. unfold bisect_turn.
  apply wp_bind, wp_sh. intros r w' s1 He Hw Hc Hm Ht.
  rewrite Hlog in He. injection He as <- <-. rewrite Hcode.
  assert (Hc1 : commands (trace s1) = commands (trace s) ++ ["git log -1 --format=%s"]).
  { by rewrite Ht, commands_app, commands_sh_events. }
  apply wp_bind, wp_call. intros pr w2' c'. rewrite Hw, Hc, Hprobe.
  intros [= <- <- <-].
  set (s2 := emit EvCall (set_cwd c (set_world w2 s1))).
  assert (Hc2 : commands (trace s2) = commands (trace s) ++ ["git log -1 --format=%s"]).
  { unfold s2. cbn [trace emit set_cwd set_world]. rewrite commands_app, Hc1. cbn.
    by rewrite app_nil_r. }
  destruct probe as [error|e]; [|done].
  apply wp_bind, wp_get_qwikPath.
  eapply wp_mono.
  { apply (wp_ran_cd _ ["git reset --hard HEAD";
                        "git bisect " +:+ match error with
                                          | Some _ => "bad"
                                          | None => "good"
                                          end]).
    intros s3. unfold resetChanges.
    apply (wp_ran_bind _ _ ["git reset --hard HEAD"] [_]); [apply wp_ran_sh_|].
    intros _ s4.
    apply (wp_ran_bind _ _ [_] []); [apply wp_ran_sh|].
    intros out s5. by apply wp_ret, ran_nil. }
  intros r s3 H. apply (ran_seq ["git log -1 --format=%s"] _ s tt s2); [|exact H].
  by apply ran_all.
Qed.

End Coverage.

(** * Concrete runs *)

(** The environment prepared by [setupEnvironment] does not reach the
    child: on a machine whose process environment is empty, a command
    run after the setup sees none of the four flags. *)
Example prepared_env_not_passed :
  child_envs (trace (sh ci_host "pnpm install" (setupEnvironment ci_host ci_start).2).2)
  = [∅].
Proof. vm_compute. reflexivity. Qed.

(** A second synchronization of the core repository removes the clone
    made by the first. *)
Lemma setupRepo_deletes_synchronized_clone_witness :
  removed (trace (setupRepo ci_host (Toy.qwik_ref, ci_start)).2.2)
  = removed (trace ci_start) ++ [Toy.qwik_dir].
Proof.
  apply (setupRepo_deletes_synchronized_clone ci_host Toy.qwik_ref ci_start
           Toy.qwik_dir {| Toy.calls := 1; Toy.dirs := [Toy.qwik_dir] |});
    reflexivity.
Defined.

(** A full clone pinned to a tag: fetch the tag, check out the branch,
    merge, reset to the tag. *)
Lemma setupRepo_target_selection_witness :
  ∃ pre,
    commands (trace (setupRepo ci_host (Toy.tagged_full_ref, ci_start)).2.2)
    = commands (trace ci_start) ++ pre
      ++ ["git clean -fdxq"; "git fetch --tags origin tag v1.0.0";
          "git checkout main"; "git merge FETCH_HEAD"; "git reset --hard v1.0.0"].
Proof.
  exact (setupRepo_target_selection ci_host Toy.tagged_full_ref ci_start eq_refl).
Defined.

(** The parser on the strings of the specification and of the suites. *)
Example parseCommand_examples :
  parseCommand "build" = Some {| pc_cmd := "build"; pc_flags := None |}
  ∧ parseCommand "build --flag"
    = Some {| pc_cmd := "build"; pc_flags := Some "--flag" |}
  ∧ parseCommand "build --skip-nx-cache"
    = Some {| pc_cmd := "build"; pc_flags := Some "--skip-nx-cache" |}
  ∧ parseCommand "build test foo bar" = None
  ∧ parseCommand "build.qwik-ci" = None
  ∧ parseCommand "release.prepare" = None.
Proof. repeat split; reflexivity. Qed.

(** The multi-word task of the specification is refused, not run. *)
Lemma run_task_unparsed_throws_witness :
  toCommand ci_host (SOne (TStr "build test foo bar")) "pnpm" (Some ∅) ci_start
  = (Throw (JsError
       "invalid task, expected string or function but got string: build test foo bar"),
     ci_start).
Proof.
  exact (run_task_unparsed_throws ci_host "pnpm" (Some ∅) "build test foo bar" ci_start
           ltac:(discriminate) eq_refl).
Defined.

(** The example of the specification: [a] stays, [b] is dropped, [c]
    becomes a [file:] reference. *)
Example sanitize_example :
  (sanitize ci_host Toy.example_overrides local_start).1
  = Ok (<["a" := "1.2.3"]> (<["c" := "file:/ci/./local-dir"]> ∅)).
Proof. vm_compute. reflexivity. Qed.

Lemma sanitize_spec_witness :
  ∃ sanitized,
    sanitize ci_host Toy.example_overrides local_start = (Ok sanitized, local_start)
    ∧ ∀ k, sanitized !! k
           = Toy.example_overrides !! k ≫= sanitized_value ci_host (world local_start).
Proof.
  apply (sanitize_spec ci_host Toy.example_overrides local_start).
  intros k v e _ _ Hl. cbn in Hl.
  destruct (bool_decide _) in Hl; [discriminate Hl|].
  injection Hl as <-. reflexivity.
Defined.

(** Release 1.0.0 of the core library against an explicit override of
    the core package to 2.0.0: the run returns, the manifest is
    written, and the overrides applied hold both. *)
Lemma release_ignores_core_override_witness :
  let run := runInRepo ci_host (core_release_suite, ci_start) in
  is_ok run.1 = true
  ∧ writes (trace run.2.2) = ["/ci/workspace/qwik-image/qwik-image/package.json"]
  ∧ o_overrides run.2.1
    = Some (<["vite" := VStr "1.0.0"]> core_override).
Proof.
  destruct (release_ignores_core_override ci_host core_release_suite ci_start
              "1.0.0" (VStr "2.0.0") core_override
              eq_refl eq_refl eq_refl eq_refl eq_refl ltac:(discriminate) eq_refl)
    as (_ & _ & H).
  split; [vm_compute; reflexivity|]. split; [vm_compute; reflexivity|].
  apply H. left. vm_compute. reflexivity.
Defined.


(** A release against a different explicit value under [vite]: the run
    stops with the conflict before anything is written. *)
Lemma release_override_conflict_witness :
  is_ok (runInRepo ci_host (Toy.release_suite, ci_start)).1 = false
  ∧ writes (trace (runInRepo ci_host (Toy.release_suite, ci_start)).2.2)
    = writes (trace ci_start)
  ∧ o_overrides (runInRepo ci_host (Toy.release_suite, ci_start)).2.1
    = Some Toy.pinned_overrides.
Proof.
  destruct (release_override_conflict ci_host Toy.release_suite ci_start
              "1.0.0" (VStr "2.0.0") Toy.pinned_overrides
              eq_refl eq_refl eq_refl eq_refl eq_refl) as (_ & _ & H).
  destruct (H ltac:(discriminate)) as (_ & Hfail & Hw & Ho).
  split; [exact Hfail|]. split; [exact Hw|exact Ho].
Defined.

(** A bisection over four commits, two of them skipped: it ends after
    four turns, returns normally, and the reset ran once, last. *)
Example bisection_example :
  let run := bisectQwik (Toy.host Toy.bisecting) 4 "v1.0.0" Toy.failing_probe
               (Toy.start []) in
  run.1 = Some (Ok tt)
  ∧ commands (trace run.2)
    = ["git reset --hard HEAD"; "git bisect start"; "git bisect bad";
       "git bisect good v1.0.0";
       "git log -1 --format=%s"; "git bisect skip";
       "git log -1 --format=%s"; "git reset --hard HEAD"; "git bisect bad";
       "git log -1 --format=%s"; "git bisect skip";
       "git log -1 --format=%s"; "git reset --hard HEAD"; "git bisect bad";
       "git bisect reset"]
  ∧ (bisectQwik (Toy.host Toy.bisecting) 3 "v1.0.0" Toy.failing_probe
       (Toy.start [])).1 = None.
Proof. vm_compute. repeat split; reflexivity. Qed.


(** A task with flags, for a manifest that has the script. *)
Lemma toCommand_string_task_witness :
  wp (toCommand ci_host (SOne (TStr "build --skip-nx-cache")) "pnpm" (Some build_scripts))
     (ran ["pnpm run build --skip-nx-cache"] ci_start) ci_start.
Proof.
  apply (toCommand_string_task ci_host "pnpm" build_scripts "build --skip-nx-cache"
           {| pc_cmd := "build"; pc_flags := Some "--skip-nx-cache" |} ci_start eq_refl).
  refine (bool_decide_unpack _ _). vm_compute. exact I.
Defined.

(** A script reference with arguments. *)
Lemma toCommand_script_reference_witness :
  wp (toCommand ci_host (SOne (TScript "build" (Some ["--watch"]))) "pnpm"
        (Some build_scripts))
     (ran ["pnpm run build --watch"] ci_start) ci_start.
Proof.
  apply (toCommand_script_reference ci_host "pnpm" build_scripts "build"
           (Some ["--watch"]) ci_start eq_refl).
  refine (bool_decide_unpack _ _). vm_compute. exact I.
Defined.


(** The first synchronization of the core repository, on an empty
    disk. *)
Lemma setupRepo_script_witness :
  wp (setupRepo ci_host)
     (λ r st,
        ran ["git -c advice.detachedHead=false clone --depth=1 --no-tags --branch main https://github.com/QwikDev/qwik.git /ci/workspace/qwik";
             "git clean -fdxq";
             "git fetch --depth=1 --no-tags origin main";
             "git -c advice.detachedHead=false checkout main"] fresh_start r st.2
        ∧ removed (trace st.2) = removed (trace fresh_start) ++ [])
     (Toy.qwik_ref, fresh_start).
Proof.
  exact (setupRepo_script ci_host Toy.qwik_ref fresh_start Toy.qwik_dir eq_refl eq_refl).
Defined.

Lemma setupEnvironment_inherits_witness :
  env (setupEnvironment (Toy.host with_path) ci_start).2 !! "PATH"
  = process_env (Toy.host with_path) (world ci_start) !! "PATH".
Proof.
  apply (setupEnvironment_inherits (Toy.host with_path) ci_start "PATH").
  refine (bool_decide_unpack _ _). vm_compute. exact I.
Defined.

Lemma initWorkspace_keeps_existing_witness :
  initWorkspace ci_host "/ci/workspace" prepared_start = (Ok tt, prepared_start).
Proof.
  exact (initWorkspace_keeps_existing ci_host "/ci/workspace" prepared_start
           eq_refl eq_refl eq_refl eq_refl).
Defined.

Lemma pinned_manager_version_witness :
  let run := overridePackageManagerVersion ci_host pinned_pkg "pnpm" ci_start in
  commands (trace run.2) = commands (trace ci_start)
  ∧ match run.1 with
    | Ok (_, needsWrite) =>
        needsWrite = true
        ↔ "pnpm" = "pnpm" ∧ semver_eq ci_host "7.18.0" "7.18.0" = Ok true
    | Throw e => "pnpm" = "pnpm" ∧ semver_eq ci_host "7.18.0" "7.18.0" = Throw e
    end.
Proof.
  exact (pinned_manager_version ci_host pinned_pkg "pnpm" "7.18.0" ci_start eq_refl).
Defined.

Lemma resolve_overrides_defaults_witness :
  ∃ ov',
    resolve_overrides None "/ci/workspace/qwik" Toy.pinned_overrides = Ok ov'
    ∧ ∀ k, ov' !! k
           = match qwik_local "/ci/workspace/qwik" k with
             | Some local =>
                 Some match Toy.pinned_overrides !! k with
                      | Some v => if ovalue_truthy v then v else VStr local
                      | None => VStr local
                      end
             | None => Toy.pinned_overrides !! k
             end.
Proof.
  exact (resolve_overrides_defaults None "/ci/workspace/qwik" Toy.pinned_overrides eq_refl).
Defined.

Lemma resolve_overrides_release_sets_vite_witness :
  match resolve_overrides (Some "1.0.0") "/ci/workspace/qwik" ∅ with
  | Ok ov' =>
      ov' !! "vite" = Some (VStr "1.0.0") ∧ ∀ k, k ≠ "vite" → ov' !! k = (∅ : Overrides) !! k
  | Throw _ =>
      ∃ v, (∅ : Overrides) !! "vite" = Some v ∧ ovalue_truthy v = true ∧ v ≠ VStr "1.0.0"
  end.
Proof.
  exact (resolve_overrides_release_sets_vite "1.0.0" "/ci/workspace/qwik" ∅ eq_refl).
Defined.

(** A verified build of the core repository. *)
Lemma buildQwik_script_witness :
  wp (buildQwik ci_host (Some true))
     (ran ["pnpm frozen"; "pnpm run build.full"; "pnpm run test"] ci_start) ci_start.
Proof.
  exact (buildQwik_script ci_host (Some true) "pnpm frozen" "pnpm run build.full"
           "pnpm run test" ci_start eq_refl eq_refl eq_refl).
Defined.

Lemma getSuitesToRun_default_witness :
  ∃ l,
    getSuitesToRun ci_host tests_listing [] "/ci" ci_start = (Ok (Returned l), ci_start)
    ∧ StronglySorted String.le l
    ∧ ∀ x : string,
        x ∈ l
        ↔ (x +:+ ".ts") ∈ ["qwik-ui-headless.ts"; "_selftest.ts"; "qwik-image.ts";
                            "README.md"]
          ∧ JS.startsWith "_" x = false.
Proof.
  exact (getSuitesToRun_default ci_host tests_listing "/ci" ci_start _ eq_refl).
Defined.

(** The catalogue of the listing above. *)
Example availableSuites_example :
  availableSuites ["qwik-ui-headless.ts"; "_selftest.ts"; "qwik-image.ts"; "README.md"]
  = ["qwik-image"; "qwik-ui-headless"].
Proof. vm_compute. reflexivity. Qed.

Lemma getSuitesToRun_validates_witness :
  let files := ["qwik-ui-headless.ts"; "_selftest.ts"; "qwik-image.ts"; "README.md"] in
  let suites := ["qwik-image"; "_local"; "qwik-city"] in
  let known (x : string) := JS.startsWith "_" x = true ∨ (x +:+ ".ts") ∈ files in
  let run := getSuitesToRun ci_host tests_listing suites "/ci" ci_start in
  (Forall known suites → run = (Ok (Returned suites), ci_start))
  ∧ (¬ Forall known suites →
     run.1 = Ok (ProcessExit 1)
     ∧ trace run.2
       = trace ci_start
         ++ [EvLog ("invalid suite(s): "
                    +:+ String.concat ", " (filter (λ x, ¬ known x) suites));
             EvLog ("available suites: "
                    +:+ String.concat ", " (availableSuites files))]).
Proof.
  exact (getSuitesToRun_validates ci_host tests_listing "/ci" ci_start _
           ["qwik-image"; "_local"; "qwik-city"] ltac:(discriminate) eq_refl).
Defined.

(** A request with an unknown name ends the process. *)
Example getSuitesToRun_example :
  let run := getSuitesToRun ci_host tests_listing ["qwik-image"; "_local"; "qwik-city"]
               "/ci" ci_start in
  run.1 = Ok (ProcessExit 1)
  ∧ trace run.2 = [EvLog "invalid suite(s): qwik-city";
                   EvLog "available suites: qwik-image, qwik-ui-headless"].
Proof. vm_compute. split; reflexivity. Qed.

Lemma runInRepo_skipGit_removes_nothing_witness :
  removed (trace (runInRepo ci_host (skip_suite, ci_start)).2.2)
  = removed (trace ci_start).
Proof.
  exact (runInRepo_skipGit_removes_nothing ci_host skip_suite ci_start eq_refl).
Defined.

(** The image suite returns the directory it ran in. *)
Example runInRepo_returns_dir_example :
  (runInRepo ci_host (Toy.image_suite, ci_start)).1
  = Ok "/ci/workspace/qwik-image/qwik-image".
Proof. vm_compute. reflexivity. Qed.

Lemma runInRepo_invalid_agent_witness :
  is_ok (runInRepo ci_host (deno_suite, ci_start)).1 = false
  ∧ (o_skipGit deno_suite = Some true →
     (runInRepo ci_host (deno_suite, ci_start)).1
     = Throw (JsError ("Invalid agent " +:+ "deno" +:+ ". Allowed values: "
                       +:+ String.concat ", " (AGENTS ci_host)))
     ∧ trace (runInRepo ci_host (deno_suite, ci_start)).2.2 = trace ci_start).
Proof.
  apply (runInRepo_invalid_agent ci_host deno_suite ci_start "deno" eq_refl).
  - refine (bool_decide_unpack _ _). vm_compute. exact I.
  - refine (bool_decide_unpack _ _). vm_compute. exact I.
Defined.

(** A failing probe on a code commit: the commit is marked bad. *)
Lemma bisect_turn_verdict_witness :
  wp (bisect_turn (Toy.host Toy.bisecting) Toy.failing_probe)
     (ran ["git log -1 --format=%s"; "git reset --hard HEAD"; "git bisect bad"]
        bisect_midway)
     bisect_midway.
Proof.
  exact (bisect_turn_verdict (Toy.host Toy.bisecting) Toy.failing_probe bisect_midway
           "fix: hydration" {| Toy.calls := 6; Toy.dirs := [] |}
           (Ok (Some (JsError "suite failed")))
           {| Toy.calls := 6; Toy.dirs := [] |} "/ci" eq_refl eq_refl eq_refl).
Defined.
